(** * gen_blas: the BLAS surface generator of libgpuarray

    A shallow embedding of [gen_blas.py].  The script holds one declarative
    table of BLAS operations ([make_ops]) and renders it through five Mako
    templates into

    - [src/generic_blas.inc.c]      the per-backend specialisation layer,
    - [src/gpuarray/buffer_blas.h]  the backend dispatch table,
    - [src/gpuarray/blas.h]         the simplified public declarations,
    - [src/gpuarray_array_blas.c]   the validating implementation of those,
    - [pygpu/blas.pyx]              the high-level binding.

    The development has three layers:

    - the generator itself: the argument classes, [BlasOp], the formatting
      methods and the five templates, as functions that produce text;
    - the meaning of what [ARRAYBLAS_TMPL] generates: the C function
      [GpuArray_r<op>], as a state-passing function over the runtime's heap of
      copy buffers, read off the template line by line;
    - the meaning of what [BLAS_PYX_TMPL] generates: the Python callable
      [<op>], which ensures the output array exists and calls the C function.

    Text that raises in Python (an index out of range, a missing method, a
    failed assertion) is an [option] that is [None]. *)

From Stdlib Require Import ZArith String Ascii List Bool Lia.
From Stdlib Require Floats.
From stdpp Require Import base option strings list gmap functions.

Open Scope string_scope.

(** ** Python strings *)

(** The double quote, which the templates use for C string literals and
    include directives. *)
Definition dq : string := String (ascii_of_nat 34) EmptyString.

(** The newline that ends a template line. *)
Definition nl : string := String (ascii_of_nat 10) EmptyString.

(** [sep.join(l)] *)
Definition join (sep : string) (l : list string) : string := String.concat sep l.

(** A block of template text given line by line: every line ends in a
    newline. *)
Definition text (l : list string) : string :=
  String.concat "" (map (fun s => s +:+ nl) l).

Definition upper_ascii (c : ascii) : ascii :=
  let n := nat_of_ascii c in
  if (97 <=? n)%nat && (n <=? 122)%nat then ascii_of_nat (n - 32) else c.

Definition lower_ascii (c : ascii) : ascii :=
  let n := nat_of_ascii c in
  if (65 <=? n)%nat && (n <=? 90)%nat then ascii_of_nat (n + 32) else c.

Fixpoint map_string (f : ascii -> ascii) (s : string) : string :=
  match s with
  | EmptyString => EmptyString
  | String c s' => String (f c) (map_string f s')
  end.

(** [s.upper()] and [s.lower()] *)
Definition upper (s : string) : string := map_string upper_ascii s.
Definition lower (s : string) : string := map_string lower_ascii s.

(** [s[-1]]: the last character, an IndexError on the empty string. *)
Fixpoint str_last (s : string) : option string :=
  match s with
  | EmptyString => None
  | String c EmptyString => Some (String c EmptyString)
  | String _ s' => str_last s'
  end.

(** [pat % (arg,)] for a pattern whose only conversion is one [%s]: the text
    before it, the argument, the text after it.  A pattern with no conversion
    raises a TypeError. *)
Fixpoint percent_s (pat arg : string) : option string :=
  match pat with
  | EmptyString => None
  | String "%" (String "s" rest) => Some (arg +:+ rest)
  | String c rest => String c <$> percent_s rest arg
  end.

(** ** The argument classes *)

(** [Dtype]: an element type and the letter of its BLAS symbols. *)
Record Dtype := mkDtype { dtype_name : string; dtype_c : string }.

Definition float : Dtype := mkDtype "float" "s".
Definition double : Dtype := mkDtype "double" "d".

(** The classes [scalar], [size], [inc] and [trans] derive from [ScalarArg],
    [matrix] and [vector] from [ArrayArg]; both derive from [Argument], whose
    fields are [name], [const] and [pydef].  An [ArrayArg] sets [pydef] from
    [output] and keeps it as [isoutput]. *)
Inductive Argument :=
| scalar (name : string) (const : bool) (pydef : option string)
| size (name : string) (const : bool) (pydef : option string)
| inc (name : string) (const : bool) (pydef : option string)
| trans (name : string) (const : bool) (pydef : option string)
| matrix (name : string) (output : bool)
| vector (name : string) (output : bool).

Definition name (a : Argument) : string :=
  match a with
  | scalar n _ _ | size n _ _ | inc n _ _ | trans n _ _ => n
  | matrix n _ | vector n _ => n
  end.

Definition const (a : Argument) : bool :=
  match a with
  | scalar _ c _ | size _ c _ | inc _ c _ | trans _ c _ => c
  | matrix _ _ | vector _ _ => false
  end.

Definition pydef (a : Argument) : option string :=
  match a with
  | scalar _ _ d | size _ _ d | inc _ _ d | trans _ _ d => d
  | matrix _ o | vector _ o => if o then Some "None" else None
  end.

Definition ismatrix (a : Argument) : bool :=
  match a with matrix _ _ => true | _ => false end.

Definition isarray (a : Argument) : bool :=
  match a with matrix _ _ | vector _ _ => true | _ => false end.

(** [isoutput] is an attribute of arrays only; the generator reads it only
    after [isarray]. *)
Definition isoutput (a : Argument) : bool :=
  match a with matrix _ o | vector _ o => o | _ => false end.

(** [type(arg) is scalar], [type(arg) is trans], [type(arg) is size] *)
Definition is_scalar (a : Argument) : bool :=
  match a with scalar _ _ _ => true | _ => false end.
Definition is_trans (a : Argument) : bool :=
  match a with trans _ _ _ => true | _ => false end.
Definition is_size (a : Argument) : bool :=
  match a with size _ _ _ => true | _ => false end.

(** The class attributes [tf_macro] and [ctype] of the [ScalarArg]s. *)
Definition tf_macro (a : Argument) : string :=
  match a with
  | scalar _ _ _ => "SCAL"
  | size _ _ _ => "SZ"
  | inc _ _ _ => ""
  | trans _ _ _ => "TRANS"
  | _ => ""
  end.

Definition const_prefix (a : Argument) : string :=
  if const a then "const " else "".

(** [arg.format_as_arg(ctype)]: the parameter of the low-level declaration. *)
Definition format_as_arg (a : Argument) (ctype : string) : string :=
  match a with
  | scalar n _ _ => const_prefix a +:+ ctype +:+ " " +:+ n
  | size n _ _ => const_prefix a +:+ "size_t" +:+ " " +:+ n
  | inc n _ _ => const_prefix a +:+ "int" +:+ " " +:+ n
  | trans n _ _ => const_prefix a +:+ "cb_transpose" +:+ " " +:+ n
  | matrix n _ | vector n _ => "gpudata *" +:+ n +:+ ", size_t off" +:+ n
  end.

(** [arg.format_simple_arg(ctype, arraytype)]: the parameter of the simplified
    declaration.  In a [ScalarArg] it is the class's own [format_as_arg]. *)
Definition format_simple_arg (a : Argument) (ctype arraytype : string) : string :=
  match a with
  | matrix n _ | vector n _ => arraytype +:+ n
  | _ => format_as_arg a ctype
  end.

(** [arg.format_simple_call(arraypat)] *)
Definition format_simple_call (a : Argument) (arraypat : string) : option string :=
  match a with
  | matrix n _ | vector n _ => percent_s arraypat n
  | _ => Some (name a)
  end.

(** [arg.format_as_call()]: the argument the specialisation layer forwards. *)
Definition format_as_call (a : Argument) : string :=
  match a with
  | matrix n _ | vector n _ => "ARRAY(" +:+ n +:+ ", dtype)"
  | _ => tf_macro a +:+ "(" +:+ name a +:+ ")"
  end.

(** [arg.format_as_callarg(ctype)]: the argument [GpuArray_r<op>] passes to
    the dispatch-table entry. *)
Definition format_as_callarg (a : Argument) (ctype : string) : option string :=
  match a with
  | scalar n _ _ => Some ("(" +:+ ctype +:+ ")" +:+ n)
  | size n _ _ => Some (lower n)
  | inc n _ _ => l ← str_last n; Some (l +:+ "p->strides[0] / elsize")
  | trans n _ _ => Some n
  | matrix n _ | vector n _ => Some (n +:+ "p->data, " +:+ n +:+ "p->offset / elsize")
  end.

Definition with_pydef (res : string) (a : Argument) : string :=
  match pydef a with
  | Some d => res +:+ "=" +:+ d
  | None => res
  end.

(** [arg.format_pyarg()]; [size], [inc] and [trans] have no such method. *)
Definition format_pyarg (a : Argument) : option string :=
  match a with
  | scalar n _ _ => Some (with_pydef ("double " +:+ n) a)
  | matrix n _ | vector n _ => Some (with_pydef ("GpuArray " +:+ n) a)
  | _ => None
  end.

(** ** Operation descriptors *)

(** [BlasOp]: the operation's name, its element types, its ordered arguments
    and four fragments of generated code, kept as text.  [__init__] stores the
    seven constructor arguments; [has_order] is derived from [arguments]. *)
Record BlasOp := mkBlasOp {
  opname : string;
  types : list Dtype;
  arguments : list Argument;
  check_dims : string;
  setup_order : string;
  py_decls : string;
  py_ensure_output : string
}.

Definition has_order (op : BlasOp) : bool := existsb ismatrix (arguments op).

Definition matrix_args (op : BlasOp) : list Argument :=
  filter (fun a => ismatrix a = true) (arguments op).

Definition array_args (op : BlasOp) : list Argument :=
  filter (fun a => isarray a = true) (arguments op).

Definition args_per_class (op : BlasOp) (cls : Argument -> bool) : list Argument :=
  filter (fun a => cls a = true) (arguments op).

Definition size_args (op : BlasOp) : list Argument := args_per_class op is_size.

Definition simple_args (op : BlasOp) : list Argument :=
  filter (fun a => isarray a || is_scalar a || is_trans a = true) (arguments op).

Definition py_args (op : BlasOp) : list Argument :=
  filter (fun a => isarray a || is_scalar a = true) (arguments op).

(** [op.format_arguments(ctype)] *)
Definition format_arguments (op : BlasOp) (ctype : string) : string :=
  let order := if has_order op then "cb_order order, " else "" in
  order +:+ join ", " (map (fun a => format_as_arg a ctype) (arguments op)).

(** [op.format_blas_args(ctype)] *)
Definition format_blas_args (op : BlasOp) (ctype : string) : option string :=
  join ", " <$> mapM (fun a => format_as_callarg a ctype) (arguments op).

(** [op.format_call_args()] *)
Definition format_call_args (op : BlasOp) : string :=
  let order := if has_order op then "ORDER " else "" in
  order +:+ join ", " (map format_as_call (arguments op)).

(** [op.format_simple_args(ctype, arraytype)] *)
Definition format_simple_args (op : BlasOp) (ctype arraytype : string) : string :=
  join ", " (map (fun a => format_simple_arg a ctype arraytype) (simple_args op)).

(** [op.format_simple_call(arraypat)] *)
Definition BlasOp_format_simple_call (op : BlasOp) (arraypat : string) : option string :=
  join ", " <$> mapM (fun a => format_simple_call a arraypat) (simple_args op).

(** [op.format_pyargs()] *)
Definition format_pyargs (op : BlasOp) : option string :=
  l ← mapM format_pyarg (py_args op);
  ts ← mapM (fun t => c ← str_last (name t); Some ("trans_" +:+ lower c +:+ "=False"))
            (args_per_class op is_trans);
  let os := map (fun a => "overwrite_" +:+ lower (name a) +:+ "=False")
                (filter (fun a => isoutput a = true) (array_args op)) in
  Some (join ", " (l ++ ts ++ os)).

(** ** The code fragments of the three operations *)

Definition check_dims_gemv : string := nl +:+ text [
    "  if (transA == cb_no_trans) {";
    "    m = A->dimensions[0];";
    "    n = A->dimensions[1];";
    "  } else {";
    "    m = A->dimensions[1];";
    "    n = A->dimensions[0];";
    "  }";
    "";
    "  if (Y->dimensions[0] != m || X->dimensions[0] != n)";
    "    return GA_VALUE_ERROR;";
    "";
    "  m = A->dimensions[0];";
    "  n = A->dimensions[1];"
  ].

Definition setup_order_gemv : string := nl +:+ text [
    "  if (Ap->flags & GA_F_CONTIGUOUS) {";
    "    o = cb_fortran;";
    "    lda = Ap->dimensions[0];";
    "  } else if (Ap->flags & GA_C_CONTIGUOUS) {";
    "    o = cb_c;";
    "    lda = Ap->dimensions[1];";
    "  } else {";
    "    /* Might be worth looking at making degenerate matrices (1xn) work here. */";
    "    err = GA_VALUE_ERROR;";
    "    goto cleanup;";
    "  }"
  ].

Definition py_ensure_output_gemv : string := nl +:+ text [
    "    if A.ga.nd != 2:";
    "        raise TypeError, " +:+ dq +:+ "A is not a matrix" +:+ dq;
    "    if transA == cb_no_trans:";
    "        Yshp = A.ga.dimensions[0]";
    "    else:";
    "        Yshp = A.ga.dimensions[1]";
    "    if Y is None:";
    "        if beta != 0.0:";
    "            raise ValueError, " +:+ dq +:+ "Y not provided and beta != 0" +:+ dq;
    "        Y = pygpu_empty(1, &Yshp, A.ga.typecode, GA_ANY_ORDER, A.context, None)";
    "        overwrite_y = True"
  ].

Definition check_dims_gemm : string := nl +:+ text [
    "  if (transA == cb_no_trans) {";
    "    m = A->dimensions[0];";
    "    k = A->dimensions[1];";
    "  } else {";
    "    m = A->dimensions[1];";
    "    k = A->dimensions[0];";
    "  }";
    "";
    "  if (transB == cb_no_trans) {";
    "    n = B->dimensions[1];";
    "    if (B->dimensions[0] != k)";
    "      return GA_VALUE_ERROR;";
    "  } else {";
    "    n = B->dimensions[0];";
    "    if (B->dimensions[1] != k)";
    "      return GA_VALUE_ERROR;";
    "  }";
    "";
    "  if (C->dimensions[0] != m || C->dimensions[1] != n)";
    "    return GA_VALUE_ERROR;"
  ].

Definition setup_order_gemm : string := nl +:+ text [
    "  if (Cp->flags & GA_F_CONTIGUOUS) {";
    "    o = cb_fortran;";
    "    ldc = Cp->dimensions[0];";
    "  } else if (Cp->flags & GA_C_CONTIGUOUS) {";
    "    o = cb_c;";
    "    ldc = Cp->dimensions[1];";
    "  } else {";
    "    err = GA_VALUE_ERROR;";
    "    goto cleanup;";
    "  }";
    "  if (Ap->flags & GA_F_CONTIGUOUS) {";
    "    lda = Ap->dimensions[0];";
    "    if (o == cb_c) {";
    "      if (transA == cb_no_trans)";
    "        transA = cb_trans;";
    "      else";
    "        transA = cb_no_trans;";
    "    }";
    "  } else if (Ap->flags & GA_C_CONTIGUOUS) {";
    "    lda = Ap->dimensions[1];";
    "    if (o == cb_fortran) {";
    "      if (transA == cb_no_trans)";
    "        transA = cb_trans;";
    "      else";
    "        transA = cb_no_trans;";
    "    }";
    "  } else {";
    "    err = GA_VALUE_ERROR;";
    "    goto cleanup;";
    "  }";
    "  if (Bp->flags & GA_F_CONTIGUOUS) {";
    "    ldb = Bp->dimensions[0];";
    "    if (o == cb_c) {";
    "      if (transB == cb_no_trans)";
    "        transB = cb_trans;";
    "      else";
    "        transB = cb_no_trans;";
    "    }";
    "  } else if (Bp->flags & GA_C_CONTIGUOUS) {";
    "    ldb = Bp->dimensions[1];";
    "    if (o == cb_fortran) {";
    "      if (transB == cb_no_trans)";
    "        transB = cb_trans;";
    "      else";
    "        transB = cb_no_trans;";
    "    }";
    "  } else {";
    "    err = GA_VALUE_ERROR;";
    "    goto cleanup;";
    "  }"
  ].

Definition py_ensure_output_gemm : string := nl +:+ text [
    "    if A.ga.nd != 2:";
    "        raise TypeError, " +:+ dq +:+ "A is not a matrix" +:+ dq;
    "    if B.ga.nd != 2:";
    "        raise TypeError, " +:+ dq +:+ "B is not a matrix" +:+ dq;
    "    if transA == cb_no_trans:";
    "        Cshp[0] = A.ga.dimensions[0]";
    "    else:";
    "        Cshp[0] = A.ga.dimensions[1]";
    "    if transB == cb_no_trans:";
    "        Cshp[1] = B.ga.dimensions[1]";
    "    else:";
    "        Cshp[1] = B.ga.dimensions[0]";
    "    if C is None:";
    "        if beta != 0.0:";
    "            raise ValueError, " +:+ dq +:+ "C not provided and beta != 0" +:+ dq;
    "        C = pygpu_empty(2, Cshp, A.ga.typecode, GA_ANY_ORDER, A.context, None)";
    "        overwrite_c = True"
  ].

Definition check_dims_ger : string := nl +:+ text [
    "  m = X->dimensions[0];";
    "  n = Y->dimensions[0];";
    "  if (A->dimensions[0] != m || A->dimensions[1] != n)";
    "    return GA_VALUE_ERROR;"
  ].

Definition setup_order_ger : string := nl +:+ text [
    "  if (Ap->flags & GA_F_CONTIGUOUS) {";
    "    o = cb_fortran;";
    "    lda = Ap->dimensions[0];";
    "  } else if (Ap->flags & GA_C_CONTIGUOUS) {";
    "    o = cb_c;";
    "    lda = Ap->dimensions[1];";
    "  } else {";
    "    /* Might be worth looking at making degenerate matrices (1xn) work here. */";
    "    err = GA_VALUE_ERROR;";
    "    goto cleanup;";
    "  }"
  ].

Definition py_ensure_output_ger : string := nl +:+ text [
    "    if A is None:";
    "        Ashp[0] = X.ga.dimensions[0];";
    "        Ashp[1] = Y.ga.dimensions[0];";
    "        A = pygpu_zeros(2, Ashp, X.ga.typecode, GA_ANY_ORDER, X.context, None)";
    "        overwrite_a = True"
  ].

Definition py_decls_gemv : string := "cdef size_t Yshp".
Definition py_decls_gemm : string := "cdef size_t[2] Cshp".
Definition py_decls_ger : string := "cdef size_t[2] Ashp".

(** ** The declarative table *)

(** Constructor calls as [make_ops] writes them: [const] is never given, and
    [pydef] only for [beta] of gemv. *)
Definition scalar_ (n : string) : Argument := scalar n false None.
Definition size_ (n : string) : Argument := size n false None.
Definition inc_ (n : string) : Argument := inc n false None.
Definition trans_ (n : string) : Argument := trans n false None.

Definition gemv : BlasOp :=
  mkBlasOp "gemv" [float; double]
    [trans_ "transA"; size_ "M"; size_ "N"; scalar_ "alpha";
     matrix "A" false; size_ "lda"; vector "X" false; inc_ "incX";
     scalar "beta" false (Some "0.0"); vector "Y" true;
     inc_ "incY"]
    check_dims_gemv setup_order_gemv py_decls_gemv py_ensure_output_gemv.

Definition gemm : BlasOp :=
  mkBlasOp "gemm" [float; double]
    [trans_ "transA"; trans_ "transB"; size_ "M"; size_ "N";
     size_ "K"; scalar_ "alpha"; matrix "A" false; size_ "lda";
     matrix "B" false; size_ "ldb"; scalar_ "beta";
     matrix "C" true; size_ "ldc"]
    check_dims_gemm setup_order_gemm py_decls_gemm py_ensure_output_gemm.

Definition ger : BlasOp :=
  mkBlasOp "ger" [float; double]
    [size_ "M"; size_ "N"; scalar_ "alpha";
     vector "X" false; inc_ "incX"; vector "Y" false; inc_ "incY";
     matrix "A" true; size_ "lda"]
    check_dims_ger setup_order_ger py_decls_ger py_ensure_output_ger.

Definition make_ops : list BlasOp := [gemv; gemm; ger].

Definition OPS : list BlasOp := make_ops.

(** ** The templates *)

(** A Mako template renders its text lines with every [${expr}] replaced by
    the value of the expression.  A line whose first non-blank character is
    [%] is a control line ([for], [if], [else], [endfor], [endif]) and
    leaves no text; a [<% ... %>] block of Python leaves no text either, only
    the end of line that follows it.  Each template opens with an end of line,
    the one after its opening quotes.  An expression that raises aborts the
    rendering: the result is [None]. *)

(** [GENERIC_TMPL.render(ops=ops, bs=bs)], written to
    [src/generic_blas.inc.c]. *)
Definition GENERIC_TMPL (ops : list BlasOp) (bs : string) : option string :=
  fns ← mapM (fun op =>
    firsta ← name <$> head (array_args op);
    Some (
      text [
        "#define " +:+ (upper (opname op)) +:+ "(dtype, typec, TYPEC)			    " +:+ bs;
        "  static int typec ## " +:+ (opname op) +:+ "(" +:+ (format_arguments op "dtype") +:+ ") { " +:+ bs;
        "    FETCH_CONTEXT(" +:+ firsta +:+ ");			    " +:+ bs;
        "    FUNC_DECLS;							    " +:+ bs;
        "    PREP_ORDER_" +:+ (upper (opname op)) +:+ ";		                    " +:+ bs;
        "								    " +:+ bs;
        "    HANDLE_ORDER_" +:+ (upper (opname op)) +:+ ";	                            " +:+ bs;
        "    FUNC_INIT;							    " +:+ bs;
        "								    " +:+ bs ]
      +:+ String.concat "" (map (fun a =>
      text [
        "    ARRAY_INIT(" +:+ (name a) +:+ ");					    " +:+ bs ]
        ) (array_args op)) +:+
      text [
        "								    " +:+ bs;
        "    PRE_CALL __GLUE(PREFIX(typec, TYPEC), " +:+ (opname op) +:+ ")(INIT_ARGS " +:+ (format_call_args op) +:+ " TRAIL_ARGS); " +:+ bs;
        "    POST_CALL;							    " +:+ bs;
        "								    " +:+ bs ]
      +:+ String.concat "" (map (fun a =>
      text [
        "    ARRAY_FINI(" +:+ (name a) +:+ ");					    " +:+ bs ]
        ) (array_args op)) +:+
      text [
        "    FUNC_FINI;							    " +:+ bs;
        "								    " +:+ bs;
        "    return GA_NO_ERROR;						    " +:+ bs;
        "  }";
        "" ]
      +:+ String.concat "" (map (fun ty =>
      text [
        (upper (opname op)) +:+ "(" +:+ (dtype_name ty) +:+ ", " +:+ (dtype_c ty) +:+ ", " +:+ (upper (dtype_c ty)) +:+ ")" ]
        ) (types op)))) ops;
  Some (
    nl +:+
      text [
        "/* This file is generated by gen_blas.py in the root of the distribution */";
        "#if !defined(FETCH_CONTEXT) || !defined(PREFIX) || !defined(ARRAY) || !defined(POST_CALL)";
        "#error " +:+ dq +:+ "required macros not defined" +:+ dq;
        "#endif";
        "";
        "#ifdef ORDER" ]
    +:+ String.concat "" (map (fun op =>
      text [
        "#ifndef PREP_ORDER_" +:+ (upper (opname op));
        "#define PREP_ORDER_" +:+ (upper (opname op));
        "#endif";
        "#ifndef HANDLE_ORDER_" +:+ (upper (opname op));
        "#define HANDLE_ORDER_" +:+ (upper (opname op));
        "#endif" ]
      ) ops) +:+
      text [
        "#else";
        "#define ORDER";
        "#endif";
        "";
        "#ifndef INIT_ARGS";
        "#define INIT_ARGS";
        "#endif";
        "";
        "#ifndef TRAIL_ARGS";
        "#define TRAIL_ARGS";
        "#endif";
        "";
        "#ifndef SZ";
        "#define SZ(a) a";
        "#endif";
        "";
        "#ifndef TRANS";
        "#define TRANS(t) t";
        "#endif";
        "";
        "#ifndef SCAL";
        "#define SCAL(s) s";
        "#endif";
        "";
        "#ifndef FUNC_INIT";
        "#define FUNC_INIT";
        "#endif";
        "";
        "#ifndef FUNC_FINI";
        "#define FUNC_FINI";
        "#endif";
        "";
        "#define __GLUE(part1, part2) __GLUE_INT(part1, part2)";
        "#define __GLUE_INT(part1, part2) part1 ## part2";
        "" ]
    +:+ String.concat "" fns +:+
      text [
        "";
        "GPUARRAY_LOCAL gpuarray_blas_ops __GLUE(NAME, _ops) = {";
        "  setup,";
        "  teardown," ]
    +:+ String.concat "" (map (fun op => String.concat "" (map (fun ty =>
      text [
        "  " +:+ (dtype_c ty) +:+ (opname op) +:+ "," ]
      ) (types op))) ops) +:+
      text [
        "  sgemmBatch,";
        "  dgemmBatch,";
        "};" ]
    ).

(** [BUFFERBLAS_TMPL.render(ops=ops)], written to
    [src/gpuarray/buffer_blas.h]. *)
Definition BUFFERBLAS_TMPL (ops : list BlasOp) : option string :=
  Some (
    nl +:+
      text [
        "/* This file is generated by gen_blas.py in the root of the distribution */";
        "#ifndef GPUARRAY_BUFFER_BLAS_H";
        "#define GPUARRAY_BUFFER_BLAS_H";
        "";
        "#include <gpuarray/buffer.h>";
        "#include <gpuarray/config.h>";
        "";
        "#ifdef __cplusplus";
        "extern " +:+ dq +:+ "C" +:+ dq +:+ " {";
        "#endif";
        "";
        "typedef enum _cb_order {";
        "  cb_row,";
        "  cb_column";
        "} cb_order;";
        "";
        "#define cb_c cb_row";
        "#define cb_fortran cb_column";
        "";
        "typedef enum _cb_side {";
        "  cb_left,";
        "  cb_right";
        "} cb_side;";
        "";
        "typedef enum _cb_transpose {";
        "  cb_no_trans,";
        "  cb_trans,";
        "  cb_conj_trans";
        "} cb_transpose;";
        "";
        "typedef enum _cb_uplo {";
        "  cb_upper,";
        "  cb_lower";
        "} cb_uplo;";
        "";
        "typedef struct _gpuarray_blas_ops {";
        "  int (*setup)(void *ctx);";
        "  void (*teardown)(void *ctx);" ]
    +:+ String.concat "" (map (fun op => String.concat "" (map (fun ty =>
      text [
        "  int (*" +:+ (dtype_c ty) +:+ (opname op) +:+ ")(" +:+ (format_arguments op (dtype_name ty)) +:+ ");" ]
      ) (types op))) ops) +:+
      text [
        "  int (*sgemmBatch)(cb_order order, cb_transpose transA, cb_transpose transB, size_t M, size_t N, size_t K, float alpha, gpudata **A, size_t *offA, size_t lda, gpudata **B, size_t *offB, size_t ldb, float beta, gpudata **C, size_t *offC, size_t ldc, size_t batchCount);";
        "  int (*dgemmBatch)(cb_order order, cb_transpose transA, cb_transpose transB, size_t M, size_t N, size_t K, double alpha, gpudata **A, size_t *offA, size_t lda, gpudata **B, size_t *offB, size_t ldb, double beta, gpudata **C, size_t *offC, size_t ldc, size_t batchCount);";
        "} gpuarray_blas_ops;";
        "";
        "#ifdef __cplusplus";
        "}";
        "#endif";
        "";
        "#endif" ]
    ).

(** [BLAS_TMPL.render(ops=ops)], written to [src/gpuarray/blas.h]. *)
Definition BLAS_TMPL (ops : list BlasOp) : option string :=
  Some (
    nl +:+
      text [
        "/* This file is generated by gen_blas.py in the root of the distribution */";
        "#ifndef GPUARRAY_BLAS_H";
        "#define GPUARRAY_BLAS_H";
        "";
        "#include <gpuarray/buffer_blas.h>";
        "#include <gpuarray/array.h>";
        "";
        "#ifdef __cplusplus";
        "extern " +:+ dq +:+ "C" +:+ dq +:+ " {";
        "#endif";
        "" ]
    +:+ String.concat "" (map (fun op =>
      text [
        "GPUARRAY_PUBLIC int GpuArray_r" +:+ (opname op) +:+ "(" +:+ (format_simple_args op "double" "GpuArray *") +:+ ",";
        "                                        int nocopy);" ]
      +:+ String.concat "" (map (fun ty =>
      text [
        "#define GpuArray_" +:+ (dtype_c ty) +:+ (opname op) +:+ " GpuArray_r" +:+ (opname op) ]
        ) (types op))) ops) +:+
      text [
        "";
        "#ifdef __cplusplus";
        "}";
        "#endif";
        "";
        "#endif" ]
    ).

(** The three conditions [ARRAYBLAS_TMPL] defines in a Python block. *)
Definition ndcond (ary : Argument) : string :=
  if ismatrix ary then name ary +:+ "->nd != 2" else name ary +:+ "->nd != 1".

Definition typecond (first : string) (ary : Argument) : string :=
  name ary +:+ "->typecode != " +:+ first +:+ "->typecode".

Definition aligncond (a : Argument) : string :=
  "!(" +:+ name a +:+ "->flags & GA_ALIGNED)".

(** [ARRAYBLAS_TMPL.render(ops=ops)], written to
    [src/gpuarray_array_blas.c]: one function [GpuArray_r<op>] per
    operation. *)
Definition ARRAYBLAS_TMPL (ops : list BlasOp) : option string :=
  fns ← mapM (fun op =>
    firsta ← name <$> head (array_args op);
    blas_args_float ← format_blas_args op "float";
    blas_args_double ← format_blas_args op "double";
    Some (
      text [
        "int GpuArray_r" +:+ (opname op) +:+ "(" +:+ (format_simple_args op "double" "GpuArray *") +:+ ",";
        "                         int nocopy) {" ]
      +:+ String.concat "" (map (fun a =>
        text [
          "  GpuArray *" +:+ (name a) +:+ "p = " +:+ (name a) +:+ ";" ]
        +:+ (if negb (isoutput a) then
        text [
          "  GpuArray copy" +:+ (name a) +:+ ";" ]
             else "")) (array_args op)) +:+
      text [
        "  gpuarray_blas_ops *blas;";
        "  void *ctx;";
        "  size_t elsize;";
        "  size_t " +:+ (join ", " (map (fun a => lower (name a)) (size_args op))) +:+ ";";
        "  cb_order o;";
        "  int err;" ]
      +:+ text [ "" ] +:+
      text [
        "";
        "  if (" +:+ firsta +:+ "->typecode != GA_FLOAT && " +:+ firsta +:+ "->typecode != GA_DOUBLE)";
        "    return GA_INVALID_ERROR;";
        "" ]
      +:+ text [ "" ] +:+
      text [
        "  if (" +:+ (join "||" (map ndcond (array_args op))) +:+ " ||";
        "      " +:+ (join "||" (map (typecond firsta) (array_args op))) +:+ ")";
        "    return GA_VALUE_ERROR;";
        "";
        "  if (" +:+ (join "||" (map aligncond (array_args op))) +:+ ")";
        "    return GA_UNALIGNED_ERROR;";
        "";
        "  " +:+ (check_dims op);
        "";
        "  elsize = gpuarray_get_elsize(" +:+ firsta +:+ "->typecode);";
        "" ]
      +:+ String.concat "" (map (fun a =>
        if ismatrix a then
          text [
            "  if (!GpuArray_ISONESEGMENT(" +:+ (name a) +:+ ")) {" ]
          +:+ (if isoutput a then
          text [
            "    err = GA_VALUE_ERROR;";
            "    goto cleanup;" ]
               else
          text [
            "    if (nocopy)";
            "      return GA_COPY_ERROR;";
            "    else {";
            "      err = GpuArray_copy(&copy" +:+ (name a) +:+ ", " +:+ (name a) +:+ ", GA_F_ORDER);";
            "      if (err != GA_NO_ERROR)";
            "	goto cleanup;";
            "      " +:+ (name a) +:+ "p = &copy" +:+ (name a) +:+ ";";
            "    }" ]
              ) +:+
          text [
            "  }" ]
        else
          text [
            "  if (" +:+ (name a) +:+ "->strides[0] < 0) {" ]
          +:+ (if isoutput a then
          text [
            "    err = GA_VALUE_ERROR;";
            "    goto cleanup;" ]
               else
          text [
            "    if (nocopy)";
            "      return GA_COPY_ERROR;";
            "    else {";
            "      err = GpuArray_copy(&copy" +:+ (name a) +:+ ", " +:+ (name a) +:+ ", GA_ANY_ORDER);";
            "      if (err != GA_NO_ERROR)";
            "	goto cleanup;";
            "      " +:+ (name a) +:+ "p = &copy" +:+ (name a) +:+ ";";
            "    }" ]
              ) +:+
          text [
            "  }" ]
        ) (array_args op)) +:+
      text [
        "";
        "  " +:+ (setup_order op);
        "";
        "  err = " +:+ firsta +:+ "p->ops->property(NULL, " +:+ firsta +:+ "p->data, NULL, GA_BUFFER_PROP_CTX, &ctx);";
        "  if (err != GA_NO_ERROR)";
        "    goto cleanup;";
        "  err = " +:+ firsta +:+ "p->ops->property(ctx, NULL, NULL, GA_CTX_PROP_BLAS_OPS, &blas);";
        "  if (err != GA_NO_ERROR)";
        "    goto cleanup;";
        "";
        "  err = blas->setup(ctx);";
        "  if (err != GA_NO_ERROR)";
        "    goto cleanup;";
        "";
        "  if (" +:+ firsta +:+ "p->typecode == GA_FLOAT)";
        "    err = blas->s" +:+ (opname op) +:+ "(o, " +:+ blas_args_float +:+ ");";
        "  else";
        "    err = blas->d" +:+ (opname op) +:+ "(o, " +:+ blas_args_double +:+ ");";
        "";
        " cleanup:" ]
      +:+ String.concat "" (map (fun a =>
        if negb (isoutput a) then
          text [
            "  if (" +:+ (name a) +:+ "p == &copy" +:+ (name a) +:+ ")";
            "    GpuArray_clear(&copy" +:+ (name a) +:+ ");" ]
        else "") (array_args op)) +:+
      text [
        "  return err;";
        "}" ]
      )) ops;
  Some (
    nl +:+
      text [
        "/* This file is generated by gen_blas.py in the root of the distribution */";
        "#include " +:+ dq +:+ "gpuarray/blas.h" +:+ dq;
        "#include " +:+ dq +:+ "gpuarray/buffer_blas.h" +:+ dq;
        "#include " +:+ dq +:+ "gpuarray/types.h" +:+ dq;
        "#include " +:+ dq +:+ "gpuarray/util.h" +:+ dq;
        "#include " +:+ dq +:+ "gpuarray/error.h" +:+ dq;
        "" ]
    +:+ String.concat "" fns).

(** [BLAS_PYX_TMPL.render(ops=ops)], written to [pygpu/blas.pyx]: the
    declarations of the C functions, one wrapper [pygpu_blas_r<op>] and one
    callable [<op>] per operation.  The Python block before the [return]
    collects the names of the output arrays and asserts there is one. *)
Definition BLAS_PYX_TMPL (ops : list BlasOp) : option string :=
  wrappers ← mapM (fun op =>
    firsta ← name <$> head (array_args op);
    simple_call_ga ← BlasOp_format_simple_call op "&%s.ga";
    Some (
      text [
        "cdef api int pygpu_blas_r" +:+ (opname op) +:+ "(" +:+ (format_simple_args op "double" "GpuArray ") +:+ ",";
        "                      bint nocopy) except -1:";
        "    cdef int err";
        "    err = GpuArray_r" +:+ (opname op) +:+ "(" +:+ simple_call_ga +:+ ", nocopy);";
        "    if err != GA_NO_ERROR:";
        "        raise GpuArrayException(GpuArray_error(&" +:+ firsta +:+ ".ga, err), err)";
        "    return 0";
        "" ]
      )) ops;
  defs ← mapM (fun op =>
    pyargs ← format_pyargs op;
    simple_call ← BlasOp_format_simple_call op "%s";
    let outas := map name (filter (fun a => isoutput a = true) (array_args op)) in
    outa ← (if decide (length outas = 0%nat) then None else Some (join ", " outas));
    Some (
      text [
        "def " +:+ (opname op) +:+ "(" +:+ pyargs +:+ "):" ]
      +:+ String.concat "" (map (fun m =>
        if negb (isoutput m) then
          text [
            "    cdef cb_transpose trans" +:+ (name m) ]
        else "") (matrix_args op)) +:+
      text [
        "    " +:+ (py_decls op);
        "" ]
      +:+ String.concat "" (map (fun m =>
        if negb (isoutput m) then
          text [
            "    if trans_" +:+ (lower (name m)) +:+ ":";
            "        trans" +:+ (name m) +:+ " = cb_trans";
            "    else:";
            "        trans" +:+ (name m) +:+ " = cb_no_trans" ]
        else "") (matrix_args op)) +:+
      text [
        "";
        "    " +:+ (py_ensure_output op);
        "" ]
      +:+ String.concat "" (map (fun a =>
        if isoutput a then
          text [
            "    if not overwrite_" +:+ (lower (name a)) +:+ ":";
            "        " +:+ (name a) +:+ " = pygpu_copy(" +:+ (name a) +:+ ", GA_ANY_ORDER)" ]
        else "") (array_args op)) +:+
      text [
        "    pygpu_blas_r" +:+ (opname op) +:+ "(" +:+ simple_call +:+ ", 0)" ]
      +:+ text [ "" ] +:+
      text [
        "    return " +:+ outa;
        "" ]
      )) ops;
  Some (
    nl +:+
      text [
        "# This file is generated by gen_blas.py in the root of the distribution";
        "from pygpu.gpuarray import GpuArrayException";
        "from pygpu.gpuarray cimport (_GpuArray, GpuArray, GA_NO_ERROR, GpuArray_error,";
        "                             pygpu_copy, pygpu_empty, pygpu_zeros,";
        "                             GA_ANY_ORDER, GA_F_ORDER, GpuArray_ISONESEGMENT)";
        "";
        "cdef extern from " +:+ dq +:+ "gpuarray/buffer_blas.h" +:+ dq +:+ ":";
        "    ctypedef enum cb_transpose:";
        "        cb_no_trans,";
        "        cb_trans,";
        "        cb_conj_trans";
        "";
        "cdef extern from " +:+ dq +:+ "gpuarray/blas.h" +:+ dq +:+ ":" ]
    +:+ String.concat "" (map (fun op =>
      text [
        "    int GpuArray_r" +:+ (opname op) +:+ "(" +:+ (format_simple_args op "double" "_GpuArray *") +:+ ",";
        "                             int nocopy)" ]
      ) ops) +:+
      text [
        "" ]
    +:+ String.concat "" wrappers +:+
      text [
        "" ]
    +:+ String.concat "" defs).

(** ** The script *)

(** The backslash the script passes to [GENERIC_TMPL] as [bs]. *)
Definition BS : string := String (ascii_of_nat 92) EmptyString.

(** The body of the script for a table [ops], run where each of its five
    files can be opened and written: the five templates are rendered inside
    one [try], and an exception there prints the error and exits with status
    1 before any file is opened; otherwise the five files are opened for
    writing (which truncates them) and written, in this order.  The result
    is the exit status and the files afterwards; the files of the
    distribution are a map from paths to contents.  [run_script], below, is
    the script where [open] and [write] may raise. *)
Definition gen_blas (ops : list BlasOp) (fs : gmap string string) : Z * gmap string string :=
  match
    generic ← GENERIC_TMPL ops BS;
    bufferblas ← BUFFERBLAS_TMPL ops;
    blas ← BLAS_TMPL ops;
    arrayblas ← ARRAYBLAS_TMPL ops;
    blas_pyx ← BLAS_PYX_TMPL ops;
    Some (generic, bufferblas, blas, arrayblas, blas_pyx)
  with
  | None => (1, fs)
  | Some (generic, bufferblas, blas, arrayblas, blas_pyx) =>
      (0,
       <["pygpu/blas.pyx" := blas_pyx]>
       (<["src/gpuarray_array_blas.c" := arrayblas]>
       (<["src/gpuarray/blas.h" := blas]>
       (<["src/gpuarray/buffer_blas.h" := bufferblas]>
       (<["src/generic_blas.inc.c" := generic]> fs)))))
  end%Z.

(** The five paths the script writes. *)
Definition artifacts : list string :=
  ["src/generic_blas.inc.c"; "src/gpuarray/buffer_blas.h"; "src/gpuarray/blas.h";
   "src/gpuarray_array_blas.c"; "pygpu/blas.pyx"].

(** What [open(path, 'w')] and the [write] that follows do to one file:
    the file is written; or [open] raises, as it does when the directory is
    missing or the file may not be written, and the file is as it was; or
    [write] raises, and the file, which [open] has truncated, holds what had
    been written of the text. *)
Inductive IOOutcome := Written | OpenFails | WriteFails (partial : string).

(** How a run of the script ends: at its last statement, by [sys.exit], or
    by an exception nothing catches, raised on the file [path]. *)
Inductive ScriptEnd := Finished | SysExit (status : Z) | Uncaught (path : string).

(** The exit status of the interpreter. *)
Definition exit_status (e : ScriptEnd) : Z :=
  match e with Finished => 0 | SysExit s => s | Uncaught _ => 1 end%Z.

(** The [with open(path, 'w') as f: f.write(text)] statements of the
    script, in order; they stand outside the [try], so the first that
    raises ends the run. *)
Fixpoint write_files (io : string → IOOutcome) (files : list (string * string))
    (fs : gmap string string) : ScriptEnd * gmap string string :=
  match files with
  | [] => (Finished, fs)
  | (p, t) :: rest =>
      match io p with
      | Written => write_files io rest (<[p := t]> fs)
      | OpenFails => (Uncaught p, fs)
      | WriteFails partial => (Uncaught p, <[p := partial]> fs)
      end
  end.

(** The body of the script for a table [ops], [io] telling what happens
    when a file is opened and written: the five templates are rendered
    inside one [try], and an exception there prints the error and exits with
    status 1 before any file is opened; otherwise the five files are opened
    and written, in this order. *)
Definition run_script (ops : list BlasOp) (io : string → IOOutcome)
    (fs : gmap string string) : ScriptEnd * gmap string string :=
  match
    generic ← GENERIC_TMPL ops BS;
    bufferblas ← BUFFERBLAS_TMPL ops;
    blas ← BLAS_TMPL ops;
    arrayblas ← ARRAYBLAS_TMPL ops;
    blas_pyx ← BLAS_PYX_TMPL ops;
    Some [("src/generic_blas.inc.c", generic); ("src/gpuarray/buffer_blas.h", bufferblas);
          ("src/gpuarray/blas.h", blas); ("src/gpuarray_array_blas.c", arrayblas);
          ("pygpu/blas.pyx", blas_pyx)]
  with
  | None => (SysExit 1, fs)
  | Some files => write_files io files fs
  end.

(** ** The runtime the generated code is compiled against *)

(** The enumerations [BUFFERBLAS_TMPL] declares, with its two macros
    [cb_c] and [cb_fortran]. *)
Inductive cb_order := cb_row | cb_column.

Definition cb_c : cb_order := cb_row.
Definition cb_fortran : cb_order := cb_column.

Inductive cb_transpose := cb_no_trans | cb_trans | cb_conj_trans.

(** Modelled from the spec: the error codes of [gpuarray/error.h], which is
    not part of the generator.  The generated code names the first five;
    [GA_ERROR] stands for every other code a runtime function or a backend
    may return. *)
Inductive ga_error :=
| GA_NO_ERROR
| GA_VALUE_ERROR
| GA_INVALID_ERROR
| GA_UNALIGNED_ERROR
| GA_COPY_ERROR
| GA_ERROR (code : Z).

(** Modelled from the spec: the element type tags of [gpuarray/types.h];
    the generated code names [GA_FLOAT] and [GA_DOUBLE]. *)
Inductive ga_typecode := GA_FLOAT | GA_DOUBLE | GA_TYPE (code : Z).

(** Modelled from the spec: the orders [GpuArray_copy] and the allocators
    take, of [gpuarray/array.h]. *)
Inductive ga_order := GA_ANY_ORDER | GA_C_ORDER | GA_F_ORDER.

#[global] Instance cb_order_eq_dec : EqDecision cb_order.
Proof. solve_decision. Defined.
#[global] Instance cb_transpose_eq_dec : EqDecision cb_transpose.
Proof. solve_decision. Defined.
#[global] Instance ga_error_eq_dec : EqDecision ga_error.
Proof. solve_decision. Defined.
#[global] Instance ga_typecode_eq_dec : EqDecision ga_typecode.
Proof. solve_decision. Defined.
#[global] Instance ga_order_eq_dec : EqDecision ga_order.
Proof. solve_decision. Defined.

(** Modelled from the spec: the array descriptor [GpuArray] of
    [gpuarray/array.h], with the fields the generated code reads.  [data] is
    the handle of the device buffer. *)
Record GpuArray := mkGpuArray {
  data : positive;
  offset : Z;
  nd : Z;
  dimensions : list Z;
  strides : list Z;
  flags : Z;
  typecode : ga_typecode
}.

(** [a->dimensions[i]] and [a->strides[i]].  The generated C function reads
    them only below the rank it has checked. *)
Definition dim (a : GpuArray) (i : nat) : Z := nth i (dimensions a) 0%Z.
Definition stride (a : GpuArray) (i : nat) : Z := nth i (strides a) 0%Z.

Definition with_data (a : GpuArray) (d : positive) : GpuArray :=
  mkGpuArray d (offset a) (nd a) (dimensions a) (strides a) (flags a) (typecode a).

(** One argument of a call of a dispatch-table entry, as
    [format_as_callarg] renders it. *)
Inductive BlasArg :=
| BTrans (t : cb_transpose)
| BSize (n : Z)
| BScal (ctype : string) (x : PrimFloat.float)
| BArray (buf : positive) (off : Z)
| BInc (i : Z).

(** A call [blas-><letter><op>(o, ...)]. *)
Record BlasCall := mkBlasCall {
  bc_entry : string;
  bc_order : cb_order;
  bc_args : list BlasArg
}.

(** A Python [GpuArray] object: the descriptor [ga] and the [context]. *)
Record PyGpuArray := mkPyGpuArray { ga : GpuArray; context : Z }.

(** What a run does to the runtime, in order. *)
Inductive Event :=
| EvCopy (dst : string) (src : GpuArray) (ord : ga_order) (err : ga_error)
| EvClear (dst : string) (buf : positive)
| EvPropertyCtx (buf : positive) (err : ga_error)
| EvPropertyBlas (ctx : Z) (err : ga_error)
| EvSetup (ctx : Z) (err : ga_error)
| EvBlas (call : BlasCall) (err : ga_error)
| EvPyEmpty (shape : list Z) (tc : ga_typecode) (ord : ga_order) (ctx : Z)
| EvPyZeros (shape : list Z) (tc : ga_typecode) (ord : ga_order) (ctx : Z)
| EvPyCopy (src : PyGpuArray) (ord : ga_order).

(** The state of the runtime a call runs in: the buffers [GpuArray_copy] has
    allocated and [GpuArray_clear] has not released, and the events so far. *)
Record World := mkWorld { live : gset positive; trace : list Event }.

Definition log (e : Event) (w : World) : World :=
  mkWorld (live w) (trace w ++ [e]).

(** Modelled from the spec: what the generated code takes from the array
    runtime and leaves to it.  The three flag masks and the macro
    [GpuArray_ISONESEGMENT] are of [gpuarray/array.h]; [gpuarray_get_elsize]
    is of [gpuarray/types.h].  The others give the status (and the result) of
    a runtime call in a given state: [GpuArray_copy], the two [property]
    lookups (buffer to context, context to dispatch table), the table's
    [setup] and its entries, and the allocators of [pygpu]. *)
Class Runtime := {
  GA_C_CONTIGUOUS : Z;
  GA_F_CONTIGUOUS : Z;
  GA_ALIGNED : Z;
  GpuArray_ISONESEGMENT : GpuArray -> bool;
  gpuarray_get_elsize : ga_typecode -> Z;
  GpuArray_copy : World -> GpuArray -> ga_order -> ga_error * GpuArray;
  property_ctx : World -> positive -> ga_error * Z;
  property_blas_ops : World -> Z -> ga_error;
  blas_setup : World -> Z -> ga_error;
  blas_entry : World -> Z -> BlasCall -> ga_error;
  pygpu_empty : World -> list Z -> ga_typecode -> ga_order -> Z -> PyGpuArray;
  pygpu_zeros : World -> list Z -> ga_typecode -> ga_order -> Z -> PyGpuArray;
  pygpu_copy : World -> PyGpuArray -> ga_order -> PyGpuArray
}.

(** ** What ARRAYBLAS_TMPL generates: the C function GpuArray_r<op> *)

(** The arguments of a call: a value for every parameter name. *)
Record CArgs := mkCArgs {
  p_array : string -> GpuArray;
  p_trans : string -> cb_transpose;
  p_scalar : string -> PrimFloat.float
}.

(** The variables the code fragments read and assign: the transpose
    parameters, the [size_t] locals (named after the [size] arguments, in
    lower case) and [o].  C leaves the locals without a value until they are
    assigned; here they start as 0 and [cb_row]. *)
Record Vars := mkVars {
  trans_var : string -> cb_transpose;
  size_var : string -> Z;
  order_var : cb_order
}.

Definition assign_trans (v : Vars) (x : string) (t : cb_transpose) : Vars :=
  mkVars (<[x := t]> (trans_var v)) (size_var v) (order_var v).
Definition assign_size (v : Vars) (x : string) (n : Z) : Vars :=
  mkVars (trans_var v) (<[x := n]> (size_var v)) (order_var v).
Definition assign_order (v : Vars) (o : cb_order) : Vars :=
  mkVars (trans_var v) (size_var v) o.

(** The locals of the function: [copy_of] holds [copyA] for exactly the
    arrays with [Ap == &copyA]; for the others [Ap] is the parameter [A]. *)
Record Locals := mkLocals {
  copy_of : gmap string GpuArray;
  vars : Vars
}.

(** [*Ap] *)
Definition deref (P : CArgs) (L : Locals) (a : string) : GpuArray :=
  default (p_array P a) (copy_of L !! a).

(** The meaning of a code fragment ([check_dims], [setup_order]): from the
    arrays it names and the variables, either the error it leaves with or
    the variables afterwards.  [check_dims] names the parameters and leaves
    with [return]; [setup_order] names the pointers [Ap] and leaves with
    [goto cleanup]. *)
Definition Fragment : Type := (string -> GpuArray) -> Vars -> ga_error + Vars.

(** How control leaves a statement: to the next one, to the label
    [cleanup] with [err] set, or out of the function. *)
Inductive Flow (A : Type) :=
| Next (a : A)
| Goto_cleanup (err : ga_error)
| Return (err : ga_error).
Arguments Next {A} a.
Arguments Goto_cleanup {A} err.
Arguments Return {A} err.

(** Statements: state passing over the locals and the runtime. *)
Definition C (A : Type) : Type := Locals -> World -> Flow A * Locals * World.

#[global] Instance C_ret : MRet C := fun A a L w => (Next a, L, w).

#[global] Instance C_bind : MBind C := fun A B k m L w =>
  match m L w with
  | (Next a, L', w') => k a L' w'
  | (Goto_cleanup e, L', w') => (Goto_cleanup e, L', w')
  | (Return e, L', w') => (Return e, L', w')
  end.

Definition return_ {A} (e : ga_error) : C A := fun L w => (Return e, L, w).
Definition goto_cleanup {A} (e : ga_error) : C A := fun L w => (Goto_cleanup e, L, w).
Definition emit (e : Event) : C unit := fun L w => (Next tt, L, log e w).
Definition get_locals : C Locals := fun L w => (Next L, L, w).
Definition get_world : C World := fun L w => (Next w, L, w).
Definition set_vars (v : Vars) : C unit := fun L w => (Next tt, mkLocals (copy_of L) v, w).

(** [err = e; if (err != GA_NO_ERROR) goto cleanup;] *)
Definition check (e : ga_error) : C unit :=
  if decide (e = GA_NO_ERROR) then mret tt else goto_cleanup e.

(** A [% for a in ...:] loop of statements. *)
Fixpoint for_each {A} (f : A -> C unit) (l : list A) : C unit :=
  match l with
  | [] => mret tt
  | a :: l' => f a ≫= fun _ => for_each f l'
  end.

(** The meaning of the fragments of the three operations. *)

Definition check_dims_gemv_c : Fragment := fun arr v =>
  let A := arr "A" in let X := arr "X" in let Y := arr "Y" in
  let '(m, n) :=
    if decide (trans_var v "transA" = cb_no_trans)
    then (dim A 0, dim A 1) else (dim A 1, dim A 0) in
  if negb (dim Y 0 =? m)%Z || negb (dim X 0 =? n)%Z then inl GA_VALUE_ERROR
  else inr (assign_size (assign_size v "m" (dim A 0)) "n" (dim A 1)).

Definition check_dims_gemm_c : Fragment := fun arr v =>
  let A := arr "A" in let B := arr "B" in let C := arr "C" in
  let '(m, k) :=
    if decide (trans_var v "transA" = cb_no_trans)
    then (dim A 0, dim A 1) else (dim A 1, dim A 0) in
  let n := if decide (trans_var v "transB" = cb_no_trans) then dim B 1 else dim B 0 in
  let inner := if decide (trans_var v "transB" = cb_no_trans) then dim B 0 else dim B 1 in
  if negb (inner =? k)%Z then inl GA_VALUE_ERROR
  else if negb (dim C 0 =? m)%Z || negb (dim C 1 =? n)%Z then inl GA_VALUE_ERROR
  else inr (assign_size (assign_size (assign_size v "m" m) "k" k) "n" n).

Definition check_dims_ger_c : Fragment := fun arr v =>
  let X := arr "X" in let Y := arr "Y" in let A := arr "A" in
  let m := dim X 0 in
  let n := dim Y 0 in
  if negb (dim A 0 =? m)%Z || negb (dim A 1 =? n)%Z then inl GA_VALUE_ERROR
  else inr (assign_size (assign_size v "m" m) "n" n).

(** [t = (t == cb_no_trans) ? cb_trans : cb_no_trans], the assignment
    [setup_order_gemm] makes to [transA] and [transB]. *)
Definition flip_trans (t : cb_transpose) : cb_transpose :=
  if decide (t = cb_no_trans) then cb_trans else cb_no_trans.

Section generated.
Context `{rt : Runtime}.

(** [a->flags & mask], as a C condition. *)
Definition has_flag (a : GpuArray) (mask : Z) : bool :=
  negb (Z.land (flags a) mask =? 0)%Z.

Definition setup_order_gemv_c : Fragment := fun arr v =>
  let Ap := arr "A" in
  if has_flag Ap GA_F_CONTIGUOUS then
    inr (assign_size (assign_order v cb_fortran) "lda" (dim Ap 0))
  else if has_flag Ap GA_C_CONTIGUOUS then
    inr (assign_size (assign_order v cb_c) "lda" (dim Ap 1))
  else inl GA_VALUE_ERROR.

(** The second and third statement of [setup_order_gemm], for the matrix
    [x] with leading dimension [ldx] and transpose flag [transx]. *)
Definition setup_order_gemm_input (x ldx transx : string)
    (arr : string -> GpuArray) (v : Vars) : ga_error + Vars :=
  let Xp := arr x in
  if has_flag Xp GA_F_CONTIGUOUS then
    let v := assign_size v ldx (dim Xp 0) in
    inr (if decide (order_var v = cb_c)
         then assign_trans v transx (flip_trans (trans_var v transx)) else v)
  else if has_flag Xp GA_C_CONTIGUOUS then
    let v := assign_size v ldx (dim Xp 1) in
    inr (if decide (order_var v = cb_fortran)
         then assign_trans v transx (flip_trans (trans_var v transx)) else v)
  else inl GA_VALUE_ERROR.

Definition setup_order_gemm_c : Fragment := fun arr v =>
  let Cp := arr "C" in
  match
    (if has_flag Cp GA_F_CONTIGUOUS then
       inr (assign_size (assign_order v cb_fortran) "ldc" (dim Cp 0))
     else if has_flag Cp GA_C_CONTIGUOUS then
       inr (assign_size (assign_order v cb_c) "ldc" (dim Cp 1))
     else inl GA_VALUE_ERROR)
  with
  | inl e => inl e
  | inr v =>
      match setup_order_gemm_input "A" "lda" "transA" arr v with
      | inl e => inl e
      | inr v => setup_order_gemm_input "B" "ldb" "transB" arr v
      end
  end.

Definition setup_order_ger_c : Fragment := fun arr v =>
  let Ap := arr "A" in
  if has_flag Ap GA_F_CONTIGUOUS then
    inr (assign_size (assign_order v cb_fortran) "lda" (dim Ap 0))
  else if has_flag Ap GA_C_CONTIGUOUS then
    inr (assign_size (assign_order v cb_c) "lda" (dim Ap 1))
  else inl GA_VALUE_ERROR.

(** The conditions of the three validation statements, which the template
    builds with [ndcond], [typecond] and [aligncond]. *)
Definition ndcond_c (P : CArgs) (ary : Argument) : bool :=
  if ismatrix ary then negb (nd (p_array P (name ary)) =? 2)%Z
  else negb (nd (p_array P (name ary)) =? 1)%Z.

Definition typecond_c (P : CArgs) (first : string) (ary : Argument) : bool :=
  negb (bool_decide (typecode (p_array P (name ary)) = typecode (p_array P first))).

Definition aligncond_c (P : CArgs) (a : Argument) : bool :=
  negb (has_flag (p_array P (name a)) GA_ALIGNED).

(** [${firsta}]; the template renders only for an operation that has an array
    argument. *)
Definition firsta (op : BlasOp) : string :=
  default "" (name <$> head (array_args op)).

(** The order the fallback loop asks [GpuArray_copy] for: [GA_F_ORDER] for
    a matrix, [GA_ANY_ORDER] for a vector. *)
Definition copy_order (a : Argument) : ga_order :=
  if ismatrix a then GA_F_ORDER else GA_ANY_ORDER.

(** The condition the fallback loop tests on the parameter [A] of the
    argument [a]: [!GpuArray_ISONESEGMENT(A)] for a matrix,
    [A->strides[0] < 0] for a vector. *)
Definition defect (a : Argument) (A : GpuArray) : bool :=
  if ismatrix a then negb (GpuArray_ISONESEGMENT A) else (stride A 0 <? 0)%Z.

(** The statement the template emits for the array [a] in its loop over
    [array_args] (the contiguity fallback). *)
Definition fallback (P : CArgs) (nocopy : Z) (a : Argument) : C unit :=
  let A := p_array P (name a) in
  if defect a A then
    if isoutput a then goto_cleanup GA_VALUE_ERROR
    else if negb (nocopy =? 0)%Z then return_ GA_COPY_ERROR
    else fun L w =>
      let ord := copy_order a in
      let '(err, c) := GpuArray_copy w A ord in
      let w := log (EvCopy (name a) A ord err) w in
      if decide (err = GA_NO_ERROR) then
        let buf := fresh (live w) in
        (Next tt,
         mkLocals (<[name a := with_data c buf]> (copy_of L)) (vars L),
         mkWorld ({[buf]} ∪ live w) (trace w))
      else (Goto_cleanup err, L, w)
  else mret tt.

(** The conversions of C on the way of an increment to the backend.  In
    [Xp->strides[0] / elsize] the stride is an [ssize_t] and [elsize] a
    [size_t]: the stride is converted to [size_t] and the division is the
    unsigned one.  The entry declares the increment as [int] ([inc.ctype]),
    and the quotient is converted to it.  The widths are those of the LP64
    platforms: 64 bits for [size_t], 32 for [int], the conversion to [int]
    keeping the low 32 bits in two's complement. *)
Definition to_size_t (z : Z) : Z := (z mod 2 ^ 64)%Z.

Definition to_int (z : Z) : Z := ((z + 2 ^ 31) mod 2 ^ 32 - 2 ^ 31)%Z.

(** The value the entry receives for the increment of the array [X]:
    [Xp->strides[0] / elsize] as an [int]. *)
Definition inc_arg (X : GpuArray) (elsize : Z) : Z :=
  to_int (to_size_t (stride X 0) / elsize).

(** The argument [format_as_callarg] renders for [a], evaluated. *)
Definition blas_arg (P : CArgs) (L : Locals) (ctype : string) (elsize : Z)
    (a : Argument) : list BlasArg :=
  match a with
  | scalar n _ _ => [BScal ctype (p_scalar P n)]
  | size n _ _ => [BSize (size_var (vars L) (lower n))]
  | inc n _ _ =>
      [BInc (inc_arg (deref P L (default "" (str_last n))) elsize)]
  | trans n _ _ => [BTrans (trans_var (vars L) n)]
  | matrix n _ | vector n _ =>
      [BArray (data (deref P L n)) (offset (deref P L n) / elsize)]
  end%Z.

(** The statements from the top of the function to [check_dims]: the four
    checks that leave with [return], before anything is allocated. *)
Definition validate (op : BlasOp) (check_dims_c : Fragment) (P : CArgs)
    (v : Vars) : ga_error + Vars :=
  let first := firsta op in
  let tc := typecode (p_array P first) in
  if negb (bool_decide (tc = GA_FLOAT)) && negb (bool_decide (tc = GA_DOUBLE))
  then inl GA_INVALID_ERROR
  else if existsb (ndcond_c P) (array_args op)
          || existsb (typecond_c P first) (array_args op)
  then inl GA_VALUE_ERROR
  else if existsb (aligncond_c P) (array_args op)
  then inl GA_UNALIGNED_ERROR
  else check_dims_c (p_array P) v.

(** The call of the dispatch-table entry: [s<op>] with [float] casts when
    [firstap] is of type [GA_FLOAT], [d<op>] with [double] casts otherwise;
    [o] first, then the arguments in the descriptor's order.  [elsize] is
    assigned before the fallback loop, from the type of the first
    parameter. *)
Definition blas_call (op : BlasOp) (P : CArgs) (L : Locals) : BlasCall :=
  let first := firsta op in
  let elsize := gpuarray_get_elsize (typecode (p_array P first)) in
  let '(letter, ctype) :=
    if bool_decide (typecode (deref P L first) = GA_FLOAT)
    then ("s", "float") else ("d", "double") in
  mkBlasCall (letter +:+ opname op) (order_var (vars L))
    (concat (map (blas_arg P L ctype elsize) (arguments op))).

(** The statements from the first [property] lookup to the call of the
    dispatch-table entry. *)
Definition dispatch (op : BlasOp) (P : CArgs) : C ga_error :=
  L ← get_locals;
  let firstap := deref P L (firsta op) in
  w ← get_world;
  let '(e, ctx) := property_ctx w (data firstap) in
  emit (EvPropertyCtx (data firstap) e);;
  check e;;
  w ← get_world;
  let e := property_blas_ops w ctx in
  emit (EvPropertyBlas ctx e);;
  check e;;
  w ← get_world;
  let e := blas_setup w ctx in
  emit (EvSetup ctx e);;
  check e;;
  w ← get_world;
  let e := blas_entry w ctx (blas_call op P L) in
  emit (EvBlas (blas_call op P L) e);;
  mret e.

(** From the top of the function to the statement before [cleanup:]. *)
Definition body (op : BlasOp) (check_dims_c setup_order_c : Fragment)
    (P : CArgs) (nocopy : Z) : C ga_error :=
  L ← get_locals;
  match validate op check_dims_c P (vars L) with
  | inl e => return_ e
  | inr v =>
      set_vars v;;
      for_each (fallback P nocopy) (array_args op);;
      L ← get_locals;
      match setup_order_c (deref P L) (vars L) with
      | inl e => goto_cleanup e
      | inr v => set_vars v;; dispatch op P
      end
  end.

(** The statements after [cleanup:], before [return err]. *)
Definition cleanup (op : BlasOp) (L : Locals) (w : World) : World :=
  foldl (fun w a =>
           if isoutput a then w
           else match copy_of L !! name a with
                | Some c => mkWorld (live w ∖ {[data c]}) (trace w ++ [EvClear (name a) (data c)])
                | None => w
                end)
        w (array_args op).

Definition init_locals (P : CArgs) : Locals :=
  mkLocals ∅ (mkVars (p_trans P) (fun _ => 0%Z) cb_row).

(** [GpuArray_r<op>(..., nocopy)]: the status it returns and the runtime
    afterwards. *)
Definition GpuArray_r (op : BlasOp) (check_dims_c setup_order_c : Fragment)
    (P : CArgs) (nocopy : Z) (w : World) : ga_error * World :=
  match body op check_dims_c setup_order_c P nocopy (init_locals P) w with
  | (Return e, _, w') => (e, w')
  | (Goto_cleanup e, L, w') | (Next e, L, w') => (e, cleanup op L w')
  end.

(** Following the specification's words (its pipeline, steps 1 to 8): the
    same statements with the operation-specific dimension check placed after
    the contiguity fallback, where it reads the shapes of the possibly
    copied arrays [*Ap] and, copies being allocated by then, leaves through
    [cleanup].  It is the order the specification states, to compare
    [GpuArray_r] with. *)
Definition spec_order_body (op : BlasOp) (check_dims_c setup_order_c : Fragment)
    (P : CArgs) (nocopy : Z) : C ga_error :=
  L ← get_locals;
  match validate op (fun _ v => inr v) P (vars L) with
  | inl e => return_ e
  | inr _ =>
      for_each (fallback P nocopy) (array_args op);;
      L ← get_locals;
      match check_dims_c (deref P L) (vars L) with
      | inl e => goto_cleanup e
      | inr v =>
          set_vars v;;
          L ← get_locals;
          match setup_order_c (deref P L) (vars L) with
          | inl e => goto_cleanup e
          | inr v => set_vars v;; dispatch op P
          end
      end
  end.

Definition spec_order_GpuArray_r (op : BlasOp) (check_dims_c setup_order_c : Fragment)
    (P : CArgs) (nocopy : Z) (w : World) : ga_error * World :=
  match spec_order_body op check_dims_c setup_order_c P nocopy (init_locals P) w with
  | (Return e, _, w') => (e, w')
  | (Goto_cleanup e, L, w') | (Next e, L, w') => (e, cleanup op L w')
  end.

End generated.

(** ** What BLAS_PYX_TMPL generates: the wrapper and the callable *)

(** The exceptions a callable raises.  [NoneAccess] stands for what happens
    when the code reads a field of an array argument that is [None], which
    Cython leaves undefined. *)
Inductive PyExn :=
| TypeError (msg : string)
| ValueError (msg : string)
| GpuArrayException (err : ga_error)
| NoneAccess.

(** The frame of a callable: its arguments (the scalars, the arrays, the
    [trans_<x>] and [overwrite_<x>] options, by name) and its [cdef]
    transpose variables. *)
Record PyVars := mkPyVars {
  py_scalar : string -> PrimFloat.float;
  py_array : string -> option PyGpuArray;
  py_option : string -> bool;
  py_trans : string -> cb_transpose
}.

Definition py_set_array (f : PyVars) (x : string) (a : PyGpuArray) : PyVars :=
  mkPyVars (py_scalar f) (<[x := Some a]> (py_array f)) (py_option f) (py_trans f).
Definition py_set_option (f : PyVars) (x : string) (b : bool) : PyVars :=
  mkPyVars (py_scalar f) (py_array f) (<[x := b]> (py_option f)) (py_trans f).
Definition py_set_trans (f : PyVars) (x : string) (t : cb_transpose) : PyVars :=
  mkPyVars (py_scalar f) (py_array f) (py_option f) (<[x := t]> (py_trans f)).

(** The meaning of a [py_ensure_output] fragment: it raises, or leaves the
    frame changed. *)
Definition PyFragment : Type := PyVars -> World -> (PyExn + PyVars) * World.

Section binding.
Context `{rt : Runtime}.

Definition py_ensure_output_gemv_py : PyFragment := fun f w =>
  match py_array f "A" with
  | None => (inl NoneAccess, w)
  | Some A =>
      if negb (nd (ga A) =? 2)%Z then (inl (TypeError "A is not a matrix"), w)
      else
        let Yshp :=
          if decide (py_trans f "transA" = cb_no_trans)
          then dim (ga A) 0 else dim (ga A) 1 in
        match py_array f "Y" with
        | Some _ => (inr f, w)
        | None =>
            if negb (PrimFloat.eqb (py_scalar f "beta") PrimFloat.zero)
            then (inl (ValueError "Y not provided and beta != 0"), w)
            else
              let Y := pygpu_empty w [Yshp] (typecode (ga A)) GA_ANY_ORDER (context A) in
              (inr (py_set_option (py_set_array f "Y" Y) "overwrite_y" true),
               log (EvPyEmpty [Yshp] (typecode (ga A)) GA_ANY_ORDER (context A)) w)
        end
  end.

Definition py_ensure_output_gemm_py : PyFragment := fun f w =>
  match py_array f "A" with
  | None => (inl NoneAccess, w)
  | Some A =>
      if negb (nd (ga A) =? 2)%Z then (inl (TypeError "A is not a matrix"), w)
      else
        match py_array f "B" with
        | None => (inl NoneAccess, w)
        | Some B =>
            if negb (nd (ga B) =? 2)%Z then (inl (TypeError "B is not a matrix"), w)
            else
              let Cshp0 :=
                if decide (py_trans f "transA" = cb_no_trans)
                then dim (ga A) 0 else dim (ga A) 1 in
              let Cshp1 :=
                if decide (py_trans f "transB" = cb_no_trans)
                then dim (ga B) 1 else dim (ga B) 0 in
              match py_array f "C" with
              | Some _ => (inr f, w)
              | None =>
                  if negb (PrimFloat.eqb (py_scalar f "beta") PrimFloat.zero)
                  then (inl (ValueError "C not provided and beta != 0"), w)
                  else
                    let C :=
                      pygpu_empty w [Cshp0; Cshp1] (typecode (ga A)) GA_ANY_ORDER (context A) in
                    (inr (py_set_option (py_set_array f "C" C) "overwrite_c" true),
                     log (EvPyEmpty [Cshp0; Cshp1] (typecode (ga A)) GA_ANY_ORDER (context A)) w)
              end
        end
  end.

Definition py_ensure_output_ger_py : PyFragment := fun f w =>
  match py_array f "A" with
  | Some _ => (inr f, w)
  | None =>
      match py_array f "X", py_array f "Y" with
      | Some X, Some Y =>
          let Ashp := [dim (ga X) 0; dim (ga Y) 0] in
          let A := pygpu_zeros w Ashp (typecode (ga X)) GA_ANY_ORDER (context X) in
          (inr (py_set_option (py_set_array f "A" A) "overwrite_a" true),
           log (EvPyZeros Ashp (typecode (ga X)) GA_ANY_ORDER (context X)) w)
      | _, _ => (inl NoneAccess, w)
      end
  end.

(** The parameters [pygpu_blas_r<op>] passes on: [&A.ga] for an array, the
    variable itself for a scalar and a transpose flag. *)
Definition c_params (f : PyVars) : CArgs :=
  mkCArgs
    (fun x => match py_array f x with
              | Some a => ga a
              | None => mkGpuArray 1 0 0 [] [] 0 (GA_TYPE 0)
              end)
    (py_trans f) (py_scalar f).

(** [pygpu_blas_r<op>(..., nocopy)]: it returns 0 or raises. *)
Definition pygpu_blas_r (op : BlasOp) (check_dims_c setup_order_c : Fragment)
    (f : PyVars) (nocopy : Z) (w : World) : (PyExn + Z) * World :=
  if existsb (fun a => bool_decide (py_array f (name a) = None)) (array_args op)
  then (inl NoneAccess, w)
  else
    let '(err, w') := GpuArray_r op check_dims_c setup_order_c (c_params f) nocopy w in
    if decide (err = GA_NO_ERROR) then (inr 0%Z, w')
    else (inl (GpuArrayException err), w').

(** The two loops before the fragment: [trans<M> = cb_trans if trans_<m> else
    cb_no_trans] for every matrix that is not an output. *)
Definition py_set_transposes (op : BlasOp) (f : PyVars) : PyVars :=
  foldl (fun f m =>
           if isoutput m then f
           else py_set_trans f ("trans" +:+ name m)
                  (if py_option f ("trans_" +:+ lower (name m)) then cb_trans else cb_no_trans))
        f (matrix_args op).

(** The loop after the fragment: [if not overwrite_<a>: A = pygpu_copy(A,
    GA_ANY_ORDER)] for every output array. *)
Definition py_copy_outputs (op : BlasOp) (f : PyVars) (w : World) : (PyExn + PyVars) * World :=
  foldl (fun st a =>
           match st with
           | (inl e, w) => (inl e, w)
           | (inr f, w) =>
               if negb (isoutput a) then (inr f, w)
               else if py_option f ("overwrite_" +:+ lower (name a)) then (inr f, w)
               else match py_array f (name a) with
                    | None => (inl NoneAccess, w)
                    | Some A =>
                        (inr (py_set_array f (name a) (pygpu_copy w A GA_ANY_ORDER)),
                         log (EvPyCopy A GA_ANY_ORDER) w)
                    end
           end)
        (inr f, w) (array_args op).

(** The callable [<op>(...)] from the statement after the
    [py_ensure_output] fragment: the copies of the outputs, the call of the
    wrapper with [nocopy] 0, and the [return] of the output arrays. *)
Definition py_finish (op : BlasOp) (check_dims_c setup_order_c : Fragment)
    (f : PyVars) (w : World) : (PyExn + list (option PyGpuArray)) * World :=
  match py_copy_outputs op f w with
  | (inl e, w) => (inl e, w)
  | (inr f, w) =>
      match pygpu_blas_r op check_dims_c setup_order_c f 0 w with
      | (inl e, w) => (inl e, w)
      | (inr _, w) =>
          (inr (map (fun a => py_array f (name a))
                    (filter (fun a => isoutput a = true) (array_args op))), w)
      end
  end.

(** The callable [<op>(...)]: what it raises or the output arrays it
    returns, and the runtime afterwards. *)
Definition py_call (op : BlasOp) (check_dims_c setup_order_c : Fragment)
    (ensure_output : PyFragment) (f : PyVars) (w : World)
    : (PyExn + list (option PyGpuArray)) * World :=
  let f := py_set_transposes op f in
  match ensure_output f w with
  | (inl e, w) => (inl e, w)
  | (inr f, w) => py_finish op check_dims_c setup_order_c f w
  end.

(** An operation of the table with the meaning of its three fragments. *)
Record Generated := mkGenerated {
  g_op : BlasOp;
  g_check_dims : Fragment;
  g_setup_order : Fragment;
  g_py_ensure_output : PyFragment
}.

Definition gemv_g : Generated :=
  mkGenerated gemv check_dims_gemv_c setup_order_gemv_c py_ensure_output_gemv_py.
Definition gemm_g : Generated :=
  mkGenerated gemm check_dims_gemm_c setup_order_gemm_c py_ensure_output_gemm_py.
Definition ger_g : Generated :=
  mkGenerated ger check_dims_ger_c setup_order_ger_c py_ensure_output_ger_py.

Definition GENERATED : list Generated := [gemv_g; gemm_g; ger_g].

(** The three C functions and the three callables. *)
Definition GpuArray_rgemv := GpuArray_r gemv check_dims_gemv_c setup_order_gemv_c.
Definition GpuArray_rgemm := GpuArray_r gemm check_dims_gemm_c setup_order_gemm_c.
Definition GpuArray_rger := GpuArray_r ger check_dims_ger_c setup_order_ger_c.

Definition py_gemv :=
  py_call gemv check_dims_gemv_c setup_order_gemv_c py_ensure_output_gemv_py.
Definition py_gemm :=
  py_call gemm check_dims_gemm_c setup_order_gemm_c py_ensure_output_gemm_py.
Definition py_ger :=
  py_call ger check_dims_ger_c setup_order_ger_c py_ensure_output_ger_py.

End binding.

(** ** A runtime to run the generated code in *)

(** Flag masks 1, 2 and 256; element sizes 4 and 8; a copy is a compact
    array of the same shape in the order asked for ([GA_ANY_ORDER] gives the
    C order); [GpuArray_copy] returns [copy_status], the dispatch-table
    entries return [blas_status], every other call succeeds. *)
Definition compact_strides (ord : ga_order) (elsize : Z) (dims : list Z) : list Z :=
  match ord, dims with
  | GA_F_ORDER, [d0; d1] => [elsize; elsize * d0]
  | _, [d0; d1] => [elsize * d1; elsize]
  | _, _ => map (fun _ => elsize) dims
  end%Z.

Definition compact_flags (ord : ga_order) (dims : list Z) : Z :=
  match ord, dims with
  | GA_F_ORDER, [_; _] => 258
  | _, [_; _] => 257
  | _, _ => 259
  end%Z.

Definition example_elsize (tc : ga_typecode) : Z :=
  match tc with GA_FLOAT => 4 | GA_DOUBLE => 8 | GA_TYPE _ => 1 end%Z.

Definition compact_array (buf : positive) (ord : ga_order) (tc : ga_typecode)
    (dims : list Z) : GpuArray :=
  mkGpuArray buf 0 (Z.of_nat (length dims)) dims
    (compact_strides ord (example_elsize tc) dims) (compact_flags ord dims) tc.

Definition example_runtime (copy_status blas_status : ga_error) : Runtime := {|
  GA_C_CONTIGUOUS := 1;
  GA_F_CONTIGUOUS := 2;
  GA_ALIGNED := 256;
  GpuArray_ISONESEGMENT a := negb (Z.land (flags a) 3 =? 0)%Z;
  gpuarray_get_elsize := example_elsize;
  GpuArray_copy w a ord := (copy_status, compact_array 1 ord (typecode a) (dimensions a));
  property_ctx w buf := (GA_NO_ERROR, 7%Z);
  property_blas_ops w ctx := GA_NO_ERROR;
  blas_setup w ctx := GA_NO_ERROR;
  blas_entry w ctx call := blas_status;
  pygpu_empty w shape tc ord ctx := mkPyGpuArray (compact_array 100 ord tc shape) ctx;
  pygpu_zeros w shape tc ord ctx := mkPyGpuArray (compact_array 101 ord tc shape) ctx;
  pygpu_copy w a ord :=
    mkPyGpuArray (compact_array 102 ord (typecode (ga a)) (dimensions (ga a))) (context a)
|}.

(** Example arguments: compact arrays of [float]s in C order, and a strided
    matrix that is not one segment. *)
Definition compact_vec (buf : positive) (n : Z) : GpuArray :=
  compact_array buf GA_C_ORDER GA_FLOAT [n].
Definition compact_mat (buf : positive) (ord : ga_order) (r c : Z) : GpuArray :=
  compact_array buf ord GA_FLOAT [r; c].
Definition strided_mat (buf : positive) (r c : Z) : GpuArray :=
  mkGpuArray buf 0 2 [r; c] [8 * c; 4]%Z 256 GA_FLOAT.
Definition reversed_vec (buf : positive) (n : Z) : GpuArray :=
  mkGpuArray buf (4 * (n - 1)) 1 [n] [-4]%Z 256 GA_FLOAT.

Definition no_array : GpuArray := mkGpuArray 1 0 0 [] [] 0 (GA_TYPE 0).

(** Three arrays for the parameters [a], [b] and [c]. *)
Definition arrays3 (a : string) (x : GpuArray) (b : string) (y : GpuArray)
    (c : string) (z : GpuArray) : string -> GpuArray :=
  <[a := x]> (<[b := y]> (<[c := z]> (fun _ => no_array))).

Definition params (arr : string -> GpuArray) (tA tB : cb_transpose) : CArgs :=
  mkCArgs arr (<["transA" := tA]> (<["transB" := tB]> (fun _ => cb_no_trans)))
    (fun _ => PrimFloat.one).

Definition w0 : World := mkWorld ∅ [].

(** ** Reading the rendered text back *)

(** The lines of a text. *)
Fixpoint split_char (c : ascii) (s : string) : list string :=
  match s with
  | EmptyString => [EmptyString]
  | String d s' =>
      if Ascii.eqb c d then EmptyString :: split_char c s'
      else match split_char c s' with
           | h :: t => String d h :: t
           | [] => [String d EmptyString]
           end
  end.

Definition lines_of (s : string) : list string := split_char (ascii_of_nat 10) s.

(** [strip_prefix p s = Some r] when [s = p +:+ r]. *)
Fixpoint strip_prefix (p s : string) : option string :=
  match p, s with
  | EmptyString, _ => Some s
  | String a p', String b s' => if Ascii.eqb a b then strip_prefix p' s' else None
  | _, EmptyString => None
  end.

Fixpoint string_rev (s : string) : string :=
  match s with
  | EmptyString => EmptyString
  | String c s' => string_rev s' +:+ String c EmptyString
  end.

(** [strip_suffix q s = Some r] when [s = r +:+ q]. *)
Definition strip_suffix (q s : string) : option string :=
  string_rev <$> strip_prefix (string_rev q) (string_rev s).

(** [between pre post l = Some x] when the line is [pre +:+ x +:+ post]. *)
Definition between (pre post l : string) : option string :=
  strip_prefix pre l ≫= strip_suffix post.


(** All the [x] of lines [pre +:+ x +:+ post], in order. *)
Definition all_between (pre post : string) (ls : list string) : list string :=
  omap (between pre post) ls.

(** The text before the first [c]. *)
Fixpoint take_until (c : ascii) (s : string) : string :=
  match s with
  | EmptyString => EmptyString
  | String d s' => if Ascii.eqb c d then EmptyString else String d (take_until c s')
  end.









(** ** Notions the properties are stated with *)

(** The buffers the copies of a frame hold. *)
Definition bufs (m : gmap string GpuArray) : gset positive := map_img (data <$> m).

(** The events a run from [w] to [w'] added. *)
Definition new_events (w w' : World) : list Event :=
  drop (length (trace w)) (trace w').

Definition is_blas (e : Event) : bool :=
  match e with EvBlas _ _ => true | _ => false end.

Definition is_copy (e : Event) : bool :=
  match e with EvCopy _ _ _ _ => true | _ => false end.

(** The arrays of the descriptor that are inputs come before its outputs. *)
Fixpoint inputs_first (l : list Argument) : bool :=
  match l with
  | [] => true
  | a :: l' => (if isoutput a then forallb isoutput l' else true) && inputs_first l'
  end.

(** The buffers [cleanup] releases. *)
Definition cleared (L : Locals) (l : list Argument) : gset positive :=
  list_to_set (omap (fun a => if isoutput a then None else data <$> copy_of L !! name a) l).

(** What the fallback loop maintains, relative to the live buffers [h0] at
    the call: the live buffers are those and the buffers of the copies, which
    are new; and only inputs of the descriptor have a copy. *)
Definition copies_live (h0 : gset positive) (L : Locals) (w : World) : Prop :=
  live w = h0 ∪ bufs (copy_of L) ∧ bufs (copy_of L) ## h0.

Definition copies_of_inputs (l0 : list Argument) (L : Locals) : Prop :=
  ∀ n, is_Some (copy_of L !! n) → ∃ a, a ∈ l0 ∧ name a = n ∧ isoutput a = false.

(** An event of [dispatch]: a lookup, the setup, or the call [call]. *)
Definition dispatch_event (call : BlasCall) (ev : Event) : Prop :=
  match ev with
  | EvPropertyCtx _ _ | EvPropertyBlas _ _ | EvSetup _ _ => True
  | EvBlas c _ => c = call
  | _ => False
  end.

(** The fragments of the three operations leave only with
    [GA_VALUE_ERROR]. *)
Definition value_errors (fr : Fragment) : Prop :=
  ∀ arr v e, fr arr v = inl e → e = GA_VALUE_ERROR.


(** A release of [cleanup]. *)
Definition is_clear (ev : Event) : bool :=
  match ev with EvClear _ _ => true | _ => false end.

Section notions.
Context `{rt : Runtime}.

(** [c] is what a successful [GpuArray_copy] of the parameter of [a] left in
    [copy<a>]. *)
Definition copied (P : CArgs) (a : Argument) (c : GpuArray) : Prop :=
  ∃ w1 c0, GpuArray_copy w1 (p_array P (name a)) (copy_order a) = (GA_NO_ERROR, c0)
           ∧ c = with_data c0 (data c).

(** An event of the fallback loop over [l]: a copy of a defective input of
    [l]. *)
Definition copy_event (P : CArgs) (l : list Argument) (ev : Event) : Prop :=
  ∃ a err, a ∈ l ∧ isoutput a = false ∧ defect a (p_array P (name a)) = true
           ∧ ev = EvCopy (name a) (p_array P (name a)) (copy_order a) err.

(** The storage order the order setup reads off a matrix: column-major when
    it is Fortran-contiguous, else row-major when it is C-contiguous, else
    none. *)
Definition storage_order (a : GpuArray) : option cb_order :=
  if has_flag a GA_F_CONTIGUOUS then Some cb_fortran
  else if has_flag a GA_C_CONTIGUOUS then Some cb_c
  else None.

(** No call of the runtime returns [GA_COPY_ERROR]. *)
Definition never_copy_error : Prop :=
  (∀ w a o, (GpuArray_copy w a o).1 ≠ GA_COPY_ERROR) ∧
  (∀ w b, (property_ctx w b).1 ≠ GA_COPY_ERROR) ∧
  (∀ w c, property_blas_ops w c ≠ GA_COPY_ERROR) ∧
  (∀ w c, blas_setup w c ≠ GA_COPY_ERROR) ∧
  (∀ w c call, blas_entry w c call ≠ GA_COPY_ERROR).

(** The three checks before [check_dims] pass. *)
Definition prechecked (op : BlasOp) (P : CArgs) : Prop :=
  ∀ v, validate op (fun _ v => inr v) P v = inr v.

(** What holds of every operation of the table. *)
Definition well_generated (g : Generated) : Prop :=
  NoDup (name <$> array_args (g_op g)) ∧
  inputs_first (array_args (g_op g)) = true ∧
  value_errors (g_check_dims g) ∧ value_errors (g_setup_order g).

End notions.

(** The dimension a leading dimension is taken from in the order [o]: the
    first for column-major, the second for row-major. *)
Definition ld_index (o : cb_order) : nat :=
  match o with cb_column => 0 | cb_row => 1 end.

(** The other dimension of a matrix. *)
Definition opposite (i : nat) : nat := 1 - i.

(** Following the specification's words (its storage-order correction):
    the dimension the leading dimension of a matrix stored in the order
    [own] is taken from when the fixed order is [o]: the dimension of its
    own order when the two agree, and the opposite one when they disagree,
    the second dimension instead of the first for a column-major matrix
    under a row-major order.  It is the rule the specification states, to
    compare [setup_order_gemm] with. *)
Definition spec_ld_index (o own : cb_order) : nat :=
  if decide (own = o) then ld_index own else opposite (ld_index own).

(** [needle] occurs in [s]. *)
Fixpoint has_substring (needle s : string) : bool :=
  match strip_prefix needle s with
  | Some _ => true
  | None =>
      match s with
      | EmptyString => false
      | String _ s' => has_substring needle s'
      end
  end.

(** A frame for a callable: the arrays [a], [b] and [c] (or [None]), the
    scalar [beta], and every option as given by [opt]. *)
Definition py_frame (a : string) (x : option PyGpuArray) (b : string) (y : option PyGpuArray)
    (c : string) (z : option PyGpuArray) (beta : PrimFloat.float) (opt : bool) : PyVars :=
  mkPyVars (<["beta" := beta]> (fun _ => PrimFloat.one))
    (<[a := x]> (<[b := y]> (<[c := z]> (fun _ => None))))
    (fun _ => opt) (fun _ => cb_no_trans).

(** The identifiers the lines [pre +:+ identifier +:+ stop ...] of a text
    declare, in order. *)
Definition declared_in (pre : string) (stop : ascii) (ls : list string) : list string :=
  omap (fun l => take_until stop <$> strip_prefix pre l) ls.

Definition declared_names (pre : string) (stop : ascii) (txt : string) : list string :=
  declared_in pre stop (lines_of txt).

(** The lines of a text after the line [marker]. *)
Fixpoint lines_after (marker : string) (ls : list string) : list string :=
  match ls with
  | [] => []
  | l :: ls' => if String.eqb l marker then ls' else lines_after marker ls'
  end.

(** The names of the per-type backend entries, by the naming rule: the
    letter of the element type, then the name of the operation. *)
Definition per_type_names (ops : list BlasOp) : list string :=
  flat_map (fun op => map (fun ty => dtype_c ty +:+ opname op) (types op)) ops.

(** The arrays a run copied with success, and those whose copy it
    released, by name and in order. *)
Definition copied_names (evs : list Event) : list string :=
  omap (fun ev => match ev with
                  | EvCopy n _ _ GA_NO_ERROR => Some n
                  | _ => None
                  end) evs.

Definition cleared_names (evs : list Event) : list string :=
  omap (fun ev => match ev with EvClear n _ => Some n | _ => None end) evs.



(** * Properties *)

Set Warnings "-clear-no-such-hyp".

Section properties.
Context `{rt : Runtime}.

(** ** The statements of the generated function *)

Lemma C_bind_eq {A B} (m : C A) (k : A -> C B) L w :
  (m ≫= k) L w =
  match m L w with
  | (Next a, L', w') => k a L' w'
  | (Goto_cleanup e, L', w') => (Goto_cleanup e, L', w')
  | (Return e, L', w') => (Return e, L', w')
  end.
Proof. reflexivity. Qed.

Lemma GpuArray_r_unfold op cd so P nocopy w :
  GpuArray_r op cd so P nocopy w =
  match validate op cd P (vars (init_locals P)) with
  | inl e => (e, w)
  | inr v =>
      match for_each (fallback P nocopy) (array_args op) (mkLocals ∅ v) w with
      | (Return e, _, w1) => (e, w1)
      | (Goto_cleanup e, L1, w1) => (e, cleanup op L1 w1)
      | (Next _, L1, w1) =>
          match so (deref P L1) (vars L1) with
          | inl e => (e, cleanup op L1 w1)
          | inr v2 =>
              match dispatch op P (mkLocals (copy_of L1) v2) w1 with
              | (Return e, _, w2) => (e, w2)
              | (Goto_cleanup e, L2, w2) | (Next e, L2, w2) => (e, cleanup op L2 w2)
              end
          end
      end
  end.
Proof.
  unfold GpuArray_r, body.
  rewrite C_bind_eq. cbn [get_locals].
  destruct (validate op cd P (vars (init_locals P))) as [e|v]; [reflexivity|].
  rewrite C_bind_eq. cbn [set_vars init_locals copy_of].
  rewrite C_bind_eq.
  destruct (for_each (fallback P nocopy) (array_args op) _ w) as [[[u|e|e] L1] w1];
    try reflexivity.
  rewrite C_bind_eq. cbn [get_locals].
  destruct (so (deref P L1) (vars L1)) as [e|v2]; [reflexivity|].
  rewrite C_bind_eq. cbn [set_vars].
  reflexivity.
Qed.

Lemma bufs_empty : bufs ∅ = ∅.
Proof. unfold bufs. rewrite fmap_empty. apply map_img_empty_L. Qed.

Lemma bufs_insert m n c :
  m !! n = None → bufs (<[n := c]> m) = {[data c]} ∪ bufs m.
Proof.
  intros Hn. unfold bufs. rewrite fmap_insert.
  apply map_img_insert_notin_L. by rewrite lookup_fmap, Hn.
Qed.

Lemma elem_of_bufs m b :
  b ∈ bufs m ↔ ∃ n c, m !! n = Some c ∧ data c = b.
Proof.
  unfold bufs. rewrite elem_of_map_img. split.
  - intros [n Hn]. rewrite lookup_fmap in Hn.
    destruct (m !! n) as [c|] eqn:E; simplify_eq/=. eauto.
  - intros (n & c & Hn & <-). exists n. by rewrite lookup_fmap, Hn.
Qed.

Lemma fallback_loop_live P nocopy h0 l0 l :
  ∀ L w,
    NoDup (name <$> l) →
    (∀ a, a ∈ l → copy_of L !! name a = None) →
    (∀ a, a ∈ l → a ∈ l0) →
    copies_live h0 L w → copies_of_inputs l0 L → (nocopy ≠ 0%Z → copy_of L = ∅) →
    match for_each (fallback P nocopy) l L w with
    | (Return e, L', w') => live w' = h0
    | (_, L', w') => copies_live h0 L' w' ∧ copies_of_inputs l0 L' ∧ vars L' = vars L
    end.
Proof.
  induction l as [|a l IH]; intros L w Hnd Hnone Hsub HI HD Hnc.
  - by cbn.
  - cbn [for_each]. rewrite C_bind_eq.
    pose proof (NoDup_cons_1_1 _ _ Hnd) as Ha. apply NoDup_cons_1_2 in Hnd.
    assert (Hstep : ∀ L1 w1, copies_live h0 L1 w1 → copies_of_inputs l0 L1 → vars L1 = vars L →
               (nocopy ≠ 0%Z → copy_of L1 = ∅) →
               (∀ a', a' ∈ l → copy_of L1 !! name a' = None) →
               match for_each (fallback P nocopy) l L1 w1 with
               | (Return e, L', w') => live w' = h0
               | (_, L', w') => copies_live h0 L' w' ∧ copies_of_inputs l0 L' ∧ vars L' = vars L
               end).
    { intros L1 w1 HI1 HD1 Hv1 Hnc1 Hnone1.
      specialize (IH L1 w1 Hnd Hnone1 (λ a' H', Hsub a' (list_elem_of_further _ _ _ H')) HI1 HD1 Hnc1).
      destruct (for_each (fallback P nocopy) l L1 w1) as [[[u|e|e] L'] w']; [|  |done];
        destruct IH as (?&?&?); (split_and!; [done|done|congruence]). }
    unfold fallback at 1.
    destruct (defect a (p_array P (name a))); cbn.
    2:{ apply Hstep; auto. intros; apply Hnone; by right. }
    destruct (isoutput a) eqn:Hout; cbn; [done|].
    destruct (nocopy =? 0)%Z eqn:Hz; cbn.
    2:{ apply Z.eqb_neq in Hz. destruct HI as [HI _]. rewrite HI, (Hnc Hz), bufs_empty.
        apply union_empty_r_L. }
    destruct (GpuArray_copy w (p_array P (name a)) _) as [err c].
    destruct (decide (err = GA_NO_ERROR)) as [->|Herr]; cbn; [|done].
    assert (Hfresh : fresh (live w) ∉ live w) by apply is_fresh.
    apply Hstep; unfold copies_live, copies_of_inputs; cbn [copy_of vars live].
    + destruct HI as [HI1 HI2]. split.
      * rewrite bufs_insert by (apply Hnone; by left). cbn. rewrite HI1.
        generalize (bufs (copy_of L)) (fresh (h0 ∪ bufs (copy_of L))).
        clear. intros X b. set_solver.
      * rewrite bufs_insert by (apply Hnone; by left). cbn. rewrite HI1 in Hfresh.
        revert Hfresh HI2. rewrite HI1.
        generalize (bufs (copy_of L)) (fresh (h0 ∪ bufs (copy_of L))).
        clear. intros X b. set_solver.
    + intros n [c' Hn]. destruct (decide (n = name a)) as [->|Hne].
      * exists a. split_and!; auto. apply Hsub. by left.
      * rewrite lookup_insert_ne in Hn by done. apply HD. eauto.
    + done.
    + intros Hnz. apply Z.eqb_eq in Hz. done.
    + intros a' Ha'. rewrite lookup_insert_ne.
      * apply Hnone. by right.
      * intros Heq. apply Ha. rewrite Heq. apply list_elem_of_fmap. eauto.
Qed.

Lemma cleanup_fold_live L l : ∀ w,
  live (foldl (fun w a =>
           if isoutput a then w
           else match copy_of L !! name a with
                | Some c => mkWorld (live w ∖ {[data c]}) (trace w ++ [EvClear (name a) (data c)])
                | None => w
                end) w l)
  = live w ∖ cleared L l.
Proof.
  unfold cleared. induction l as [|a l IH]; intros w; cbn.
  - set_solver.
  - rewrite IH. destruct (isoutput a); cbn; [done|].
    destruct (copy_of L !! name a) as [c|]; cbn; [|done]. set_solver.
Qed.

Lemma elem_of_cleared L l b :
  b ∈ cleared L l ↔
  ∃ a c, a ∈ l ∧ isoutput a = false ∧ copy_of L !! name a = Some c ∧ data c = b.
Proof.
  unfold cleared. rewrite elem_of_list_to_set, list_elem_of_omap. split.
  - intros (a & Ha & Hb). destruct (isoutput a) eqn:Ho; [done|].
    destruct (copy_of L !! name a) as [c|] eqn:Hc; simplify_eq/=. eauto 10.
  - intros (a & c & Ha & Ho & Hc & <-). exists a. by rewrite Ho, Hc.
Qed.

Lemma cleanup_live op L w h0 :
  copies_live h0 L w → copies_of_inputs (array_args op) L → live (cleanup op L w) = h0.
Proof.
  intros [HI1 HI2] HD. unfold cleanup. rewrite cleanup_fold_live, HI1.
  apply set_eq. intros b. rewrite elem_of_difference, elem_of_union, elem_of_cleared.
  split.
  - intros [[Hb|Hb] Hn]; [done|]. exfalso. apply Hn.
    apply elem_of_bufs in Hb as (n & c & Hn' & <-).
    destruct (HD n) as (a & Ha & <- & Ho); eauto 10.
  - intros Hb. split; [by left|].
    intros (a & c & Ha & Ho & Hc & <-).
    apply (HI2 (data c)); [|done]. apply elem_of_bufs. eauto.
Qed.

Lemma check_eq e L w :
  check e L w =
  if decide (e = GA_NO_ERROR) then (Next tt, L, w) else (Goto_cleanup e, L, w).
Proof. unfold check. by destruct (decide _). Qed.

Ltac run_C :=
  repeat (rewrite C_bind_eq; cbn [get_locals get_world emit set_vars]);
  rewrite ?check_eq.

Lemma dispatch_run op P L w :
  ∃ f w' evs,
    dispatch op P L w = (f, L, w') ∧
    live w' = live w ∧
    trace w' = (trace w ++ evs)%list ∧
    (∀ e, f ≠ Return e) ∧
    Forall (dispatch_event (blas_call op P L)) evs ∧
    (length (List.filter is_blas evs) ≤ 1)%nat ∧
    (∀ e, f = Goto_cleanup e → e ≠ GA_NO_ERROR ∧ Forall (fun ev => is_blas ev = false) evs).
Proof.
  unfold dispatch. run_C.
  destruct (property_ctx w _) as [e1 ctx]. run_C.
  destruct (decide (e1 = GA_NO_ERROR)) as [->|H1]; [run_C|].
  2:{ do 3 eexists. split_and!; [reflexivity|reflexivity|reflexivity|done| |cbn; lia|].
      - by repeat constructor.
      - intros e [= <-]. split; [done|]. by repeat constructor. }
  destruct (decide (property_blas_ops _ ctx = GA_NO_ERROR)) as [E2|H2]; [run_C|].
  2:{ do 3 eexists.
      split_and!; [reflexivity|reflexivity|cbn; rewrite <- ?app_assoc; reflexivity
                  |done| |cbn; lia|].
      - by repeat constructor.
      - intros e [= <-]. split; [done|]. by repeat constructor. }
  destruct (decide (blas_setup _ ctx = GA_NO_ERROR)) as [E3|H3]; [run_C|].
  2:{ do 3 eexists.
      split_and!; [reflexivity|reflexivity|cbn; rewrite <- ?app_assoc; reflexivity
                  |done| |cbn; lia|].
      - by repeat constructor.
      - intros e [= <-]. split; [done|]. by repeat constructor. }
  do 3 eexists.
  split_and!; [reflexivity|reflexivity|cbn; rewrite <- ?app_assoc; reflexivity
              |done| |cbn; lia|done].
  by repeat constructor.
Qed.

(** No leak through [GpuArray_r], for any operation whose arrays have
    distinct names. *)
Lemma GpuArray_r_live op cd so P nocopy w :
  NoDup (name <$> array_args op) →
  live (GpuArray_r op cd so P nocopy w).2 = live w.
Proof.
  intros Hnd. rewrite GpuArray_r_unfold.
  destruct (validate op cd P _) as [e|v]; [done|].
  assert (HI0 : copies_live (live w) (mkLocals ∅ v) w).
  { split; cbn; rewrite bufs_empty; set_solver. }
  assert (HD0 : copies_of_inputs (array_args op) (mkLocals ∅ v)).
  { intros n [c Hc]. cbn in Hc. by rewrite lookup_empty in Hc. }
  pose proof (fallback_loop_live P nocopy (live w) (array_args op) (array_args op)
                (mkLocals ∅ v) w Hnd (λ _ _, lookup_empty _) (λ _ H, H) HI0 HD0 (λ _, eq_refl)) as H.
  destruct (for_each _ _ _ w) as [[[u|e|e] L1] w1]; cbn; [| |done].
  - destruct H as (HI & HD & _).
    destruct (so (deref P L1) (vars L1)) as [e|v2]; cbn.
    + by apply cleanup_live.
    + destruct (dispatch_run op P (mkLocals (copy_of L1) v2) w1)
        as (f & w2 & evs & -> & Hl & _ & Hf & _).
      destruct f as [e|e|e]; cbn; [| |by destruct (Hf e)];
        (apply cleanup_live; [|done]); destruct HI as [HI1 HI2]; (split; cbn [copy_of]; [by rewrite Hl|done]).
  - destruct H as (HI & HD & _). by apply cleanup_live.
Qed.

Lemma copy_event_cons P a l evs :
  Forall (copy_event P l) evs → Forall (copy_event P (a :: l)) evs.
Proof.
  induction 1 as [|ev evs (a' & e' & ? & ?) _ IH]; constructor; [|done].
  exists a', e'. split; [by right|done].
Qed.

Lemma fallback_cases P nocopy a L w :
  let A := p_array P (name a) in
  (defect a A = false ∧ fallback P nocopy a L w = (Next tt, L, w)) ∨
  (defect a A = true ∧ isoutput a = true ∧
     fallback P nocopy a L w = (Goto_cleanup GA_VALUE_ERROR, L, w)) ∨
  (defect a A = true ∧ isoutput a = false ∧ nocopy ≠ 0%Z ∧
     fallback P nocopy a L w = (Return GA_COPY_ERROR, L, w)) ∨
  (defect a A = true ∧ isoutput a = false ∧ nocopy = 0%Z ∧
     ∃ err c0, GpuArray_copy w A (copy_order a) = (err, c0) ∧
       let w1 := log (EvCopy (name a) A (copy_order a) err) w in
       (err ≠ GA_NO_ERROR ∧ fallback P nocopy a L w = (Goto_cleanup err, L, w1) ∨
        err = GA_NO_ERROR ∧
        fallback P nocopy a L w =
          (Next tt,
           mkLocals (<[name a := with_data c0 (fresh (live w))]> (copy_of L)) (vars L),
           mkWorld ({[fresh (live w)]} ∪ live w) (trace w1)))).
Proof.
  intros A. unfold fallback. fold A.
  destruct (defect a A); [|by left]. right.
  destruct (isoutput a); [by left|]. right.
  destruct (nocopy =? 0)%Z eqn:Hz; cbn.
  - apply Z.eqb_eq in Hz. right. split_and!; try done.
    destruct (GpuArray_copy w A _) as [err c0].
    exists err, c0. split; [done|]. cbn.
    destruct (decide (err = GA_NO_ERROR)); [right|left]; done.
  - apply Z.eqb_neq in Hz. by left.
Qed.

Lemma fallback_loop_outcome P nocopy l : ∀ L w f L' w',
  NoDup (name <$> l) →
  (∀ a, a ∈ l → copy_of L !! name a = None) →
  for_each (fallback P nocopy) l L w = (f, L', w') →
  vars L' = vars L ∧
  live w ⊆ live w' ∧
  (∃ evs, trace w' = (trace w ++ evs)%list ∧ Forall (copy_event P l) evs
          ∧ (nocopy ≠ 0%Z → evs = [])) ∧
  (∀ n, (∀ a, a ∈ l → name a ≠ n) → copy_of L' !! n = copy_of L !! n) ∧
  (∀ a c, a ∈ l → copy_of L' !! name a = Some c →
     isoutput a = false ∧ defect a (p_array P (name a)) = true ∧ nocopy = 0%Z ∧
     (data c ∉ live w) ∧ (data c ∈ live w') ∧ copied P a c) ∧
  match f with
  | Next _ =>
      ∀ a, a ∈ l →
        if defect a (p_array P (name a))
        then isoutput a = false ∧ is_Some (copy_of L' !! name a)
        else copy_of L' !! name a = None
  | Return e =>
      e = GA_COPY_ERROR ∧ nocopy ≠ 0%Z ∧ L' = L ∧ w' = w ∧
      ∃ a, a ∈ l ∧ isoutput a = false ∧ defect a (p_array P (name a)) = true
  | Goto_cleanup e =>
      e ≠ GA_NO_ERROR ∧
      ((e = GA_VALUE_ERROR ∧
        (∃ a, a ∈ l ∧ isoutput a = true ∧ defect a (p_array P (name a)) = true)) ∨
       (nocopy = 0%Z ∧
        ∃ a w1 c0, a ∈ l ∧ isoutput a = false ∧ defect a (p_array P (name a)) = true ∧
          GpuArray_copy w1 (p_array P (name a)) (copy_order a) = (e, c0)))
  end.
Proof.
  induction l as [|a l IH]; intros L w f L' w' Hnd Hnone Hrun.
  - cbn [for_each] in Hrun. unfold mret, C_ret in Hrun. simplify_eq.
    split; [done|]. split; [done|].
    split; [exists nil; by rewrite app_nil_r|]. split; [done|].
    split; [intros a c Ha; by apply elem_of_nil in Ha|].
    intros a Ha. by apply elem_of_nil in Ha.
  - cbn [for_each] in Hrun. rewrite C_bind_eq in Hrun.
    pose proof (NoDup_cons_1_1 _ _ Hnd) as Ha. apply NoDup_cons_1_2 in Hnd.
    assert (Hnone_l : ∀ a', a' ∈ l → copy_of L !! name a' = None)
      by (intros; apply Hnone; by right).
    assert (Hne : ∀ a', a' ∈ l → name a' ≠ name a).
    { intros a' Ha' Heq. apply Ha. rewrite <- Heq. apply list_elem_of_fmap. eauto. }
    destruct (fallback_cases P nocopy a L w)
      as [[Hd Hf]|[(Hd & Ho & Hf)|[(Hd & Ho & Hnz & Hf)|(Hd & Ho & Hz & err & c0 & Hc & Hf)]]];
      cbn zeta in *.
    + (* no defect *)
      rewrite Hf in Hrun.
      destruct (IH _ _ _ _ _ Hnd Hnone_l Hrun) as (Hv & Hl & (evs & Ht & Hevs & Hnc) & Hother & Hcopy & Hflow).
      split_and!; try done.
      * exists evs. split_and!; try done.
        by apply copy_event_cons.
      * intros n Hn. apply Hother. intros a' Ha'. apply Hn. by right.
      * intros a' c Ha' Hc'. apply elem_of_cons in Ha' as [->|Ha'].
        -- rewrite Hother in Hc' by (intros a'' Ha''; by apply Hne).
           by rewrite Hnone in Hc' by (by left).
        -- by apply Hcopy.
      * destruct f as [u|e|e].
        -- intros a' Ha'. apply elem_of_cons in Ha' as [->|Ha']; [|by apply Hflow].
           rewrite Hd. rewrite Hother by (intros a'' Ha''; by apply Hne).
           apply Hnone. by left.
        -- destruct Hflow as (He & [(-> & a' & ? & ? & ?)|(? & a' & w1 & c1 & ? & ? & ? & ?)]);
             split; try done; [left|right]; split; try done.
           ++ exists a'. split_and!; try done. by right.
           ++ exists a', w1, c1. split_and!; try done. by right.
        -- destruct Hflow as (-> & ? & -> & -> & a' & ? & ? & ?). split_and!; try done.
           exists a'. split_and!; try done. by right.
    + (* defective output *)
      rewrite Hf in Hrun. simplify_eq. split_and!; try done.
      * exists nil. by rewrite app_nil_r.
      * intros a' c Ha' Hc'. by rewrite Hnone in Hc'.
      * left. split; [done|]. exists a. split_and!; try done. by left.
    + (* defective input, copying disabled *)
      rewrite Hf in Hrun. simplify_eq. split_and!; try done.
      * exists nil. by rewrite app_nil_r.
      * intros a' c Ha' Hc'. by rewrite Hnone in Hc'.
      * exists a. split_and!; try done. by left.
    + (* defective input, copied *)
      destruct Hf as [[Herr Hf]|[-> Hf]]; rewrite Hf in Hrun.
      * simplify_eq. split_and!; try done.
        -- eexists [_]. split_and!; try done. constructor; [|done].
           exists a, err. split_and!; try done. by left.
        -- intros a' c Ha' Hc'. by rewrite Hnone in Hc'.
        -- right. split; [done|]. exists a, w, c0. split_and!; try done. by left.
      * assert (Hfresh : fresh (live w) ∉ live w) by apply is_fresh.
        specialize (fun H => IH _ _ _ _ _ Hnd H Hrun).
        destruct IH as (Hv & Hl & (evs & Ht & Hevs & Hnc) & Hother & Hcopy & Hflow).
        { intros a' Ha'. cbn. rewrite lookup_insert_ne by (apply not_eq_sym; by apply Hne).
          by apply Hnone_l. }
        cbn [vars live trace copy_of log] in *.
        assert (Hcopy_a : copy_of L' !! name a = Some (with_data c0 (fresh (live w)))).
        { rewrite Hother by (intros a'' Ha''; by apply Hne). apply lookup_insert_eq. }
        split_and!; try done.
        -- clear - Hl. set_solver.
        -- eexists (_ :: evs). split_and!.
           ++ rewrite Ht. by rewrite <- app_assoc.
           ++ constructor.
              ** exists a, GA_NO_ERROR. split_and!; try done. by left.
              ** by apply copy_event_cons.
           ++ done.
        -- intros n Hn. rewrite Hother by (intros a' Ha'; apply Hn; by right).
           apply lookup_insert_ne. apply Hn. by left.
        -- intros a' c Ha' Hc'. apply elem_of_cons in Ha' as [->|Ha'].
           ++ rewrite Hcopy_a in Hc'. simplify_eq. cbn. split_and!; try done.
              ** apply Hl. clear. set_solver.
              ** exists w, c0. done.
           ++ destruct (Hcopy a' c Ha' Hc') as (? & ? & ? & Hnotin & ? & ?).
              split_and!; try done. clear - Hnotin. set_solver.
        -- destruct f as [u|e|e].
           ++ intros a' Ha'. apply elem_of_cons in Ha' as [->|Ha']; [|by apply Hflow].
              rewrite Hd. split; [done|]. by rewrite Hcopy_a.
           ++ destruct Hflow as (He & [(-> & a' & ? & ? & ?)|(? & a' & w1 & c1 & ? & ? & ? & ?)]);
                split; try done; [left|right]; split; try done.
              ** exists a'. split_and!; try done. by right.
              ** exists a', w1, c1. split_and!; try done. by right.
           ++ by destruct Hflow as (_ & ? & _).
Qed.

(** ** The three operations *)

Lemma check_dims_gemv_c_error : value_errors check_dims_gemv_c.
Proof.
  intros arr v e. unfold check_dims_gemv_c.
  destruct (decide _); destruct (_ || _); congruence.
Qed.

Lemma check_dims_gemm_c_error : value_errors check_dims_gemm_c.
Proof.
  intros arr v e. unfold check_dims_gemm_c.
  destruct (decide (trans_var v "transA" = _)); destruct (negb _); try congruence;
    destruct (_ || _); congruence.
Qed.

Lemma check_dims_ger_c_error : value_errors check_dims_ger_c.
Proof.
  intros arr v e. unfold check_dims_ger_c. destruct (_ || _); congruence.
Qed.

Lemma setup_order_gemv_c_error : value_errors setup_order_gemv_c.
Proof.
  intros arr v e. unfold setup_order_gemv_c. repeat destruct (has_flag _ _); congruence.
Qed.

Lemma setup_order_gemm_input_error x ldx tx arr v e :
  setup_order_gemm_input x ldx tx arr v = inl e → e = GA_VALUE_ERROR.
Proof.
  unfold setup_order_gemm_input. repeat destruct (has_flag _ _); congruence.
Qed.

Lemma setup_order_gemm_c_error : value_errors setup_order_gemm_c.
Proof.
  intros arr v e. unfold setup_order_gemm_c.
  repeat destruct (has_flag (arr "C") _); try congruence;
    (destruct (setup_order_gemm_input "A" _ _ _ _) eqn:EA;
     [apply setup_order_gemm_input_error in EA; congruence
     |apply setup_order_gemm_input_error]).
Qed.

Lemma setup_order_ger_c_error : value_errors setup_order_ger_c.
Proof.
  intros arr v e. unfold setup_order_ger_c. repeat destruct (has_flag _ _); congruence.
Qed.

Lemma validate_error op cd P v e :
  value_errors cd → validate op cd P v = inl e →
  e = GA_INVALID_ERROR ∨ e = GA_VALUE_ERROR ∨ e = GA_UNALIGNED_ERROR.
Proof.
  intros Hcd. unfold validate.
  destruct (_ && _); [intros [= <-]; auto|].
  destruct (_ || _); [intros [= <-]; auto|].
  destruct (existsb _ _); [intros [= <-]; auto|].
  intros H. apply Hcd in H. auto.
Qed.

Lemma well_generated_intro op cd so pe :
  bool_decide (NoDup (name <$> array_args op)) = true →
  inputs_first (array_args op) = true →
  value_errors cd → value_errors so →
  well_generated (mkGenerated op cd so pe).
Proof. intros H%bool_decide_eq_true_1 ? ? ?. by split_and!. Qed.

Lemma GENERATED_well_generated : Forall well_generated GENERATED.
Proof.
  unfold GENERATED, gemv_g, gemm_g, ger_g.
  apply Forall_cons_2; [|apply Forall_cons_2; [|apply Forall_cons_2; [|apply Forall_nil_2]]];
    apply well_generated_intro; try (vm_compute; reflexivity);
    auto using check_dims_gemv_c_error, check_dims_gemm_c_error, check_dims_ger_c_error,
      setup_order_gemv_c_error, setup_order_gemm_c_error, setup_order_ger_c_error.
Qed.


Lemma Forall_GENERATED (Q : Generated → Prop) :
  (∀ g, well_generated g → Q g) → Forall Q GENERATED.
Proof. intros H. induction GENERATED_well_generated; constructor; auto. Qed.

Lemma cleanup_trace op L w :
  ∃ cl, trace (cleanup op L w) = (trace w ++ cl)%list ∧ Forall (fun ev => is_clear ev = true) cl.
Proof.
  unfold cleanup. generalize (array_args op). intros l. revert w.
  induction l as [|a l IH]; intros w; cbn.
  - exists nil. by rewrite app_nil_r.
  - destruct (isoutput a); [apply IH|].
    destruct (copy_of L !! name a) as [c|]; [|apply IH].
    destruct (IH (mkWorld (live w ∖ {[data c]}) (trace w ++ [EvClear (name a) (data c)])))
      as (cl & Ht & Hcl).
    exists (EvClear (name a) (data c) :: cl). split.
    + rewrite Ht. cbn. by rewrite <- app_assoc.
    + by constructor.
Qed.

(** The events of a call, in order: the copies of the fallback loop, the
    events of [dispatch], the releases of [cleanup]. *)
Lemma GpuArray_r_events op cd so P nocopy w :
  NoDup (name <$> array_args op) →
  ∃ cs ds cl,
    trace (GpuArray_r op cd so P nocopy w).2 = (trace w ++ cs ++ ds ++ cl)%list ∧
    Forall (copy_event P (array_args op)) cs ∧
    (nocopy ≠ 0%Z → cs = []) ∧
    Forall (fun ev => is_clear ev = true) cl ∧
    (length (List.filter is_blas ds) ≤ 1)%nat ∧
    (ds = [] ∨
     ∃ v L1 w1 v2,
       validate op cd P (vars (init_locals P)) = inr v ∧
       for_each (fallback P nocopy) (array_args op) (mkLocals ∅ v) w = (Next tt, L1, w1) ∧
       so (deref P L1) (vars L1) = inr v2 ∧
       Forall (dispatch_event (blas_call op P (mkLocals (copy_of L1) v2))) ds).
Proof.
  intros Hnd. rewrite GpuArray_r_unfold.
  destruct (validate op cd P _) as [e|v] eqn:Hval.
  { exists nil, nil, nil. cbn. rewrite app_nil_r. split_and!; auto; cbn; lia. }
  destruct (for_each _ _ _ w) as [[f L1] w1] eqn:Hloop.
  destruct (fallback_loop_outcome P nocopy _ _ _ _ _ _ Hnd (λ _ _, lookup_empty _) Hloop)
    as (_ & _ & (cs & Hcs & HFcs & Hnc) & _ & _ & Hf).
  destruct f as [[]|e|e].
  - destruct (so (deref P L1) (vars L1)) as [e|v2] eqn:Hso.
    + destruct (cleanup_trace op L1 w1) as (cl & Hcl & HFcl).
      exists cs, nil, cl. cbn. rewrite Hcl, Hcs, <- app_assoc.
      split_and!; auto; cbn; lia.
    + destruct (dispatch_run op P (mkLocals (copy_of L1) v2) w1)
        as (f & w2 & ds & Hd & _ & Hds & Hret & HFds & Hlen & _).
      rewrite Hd.
      assert (∃ cl, ∀ L2, copy_of L2 = copy_of L1 →
                trace (cleanup op (mkLocals (copy_of L1) v2) w2) = (trace w2 ++ cl)%list
                ∧ Forall (fun ev => is_clear ev = true) cl) as (cl & Hcl).
      { destruct (cleanup_trace op (mkLocals (copy_of L1) v2) w2) as (cl & ? & ?).
        exists cl. auto. }
      destruct (Hcl L1 eq_refl) as (Hcl1 & HFcl).
      exists cs, ds, cl.
      assert (Htr : trace (cleanup op (mkLocals (copy_of L1) v2) w2)
                    = (trace w ++ cs ++ ds ++ cl)%list).
      { rewrite Hcl1, Hds, Hcs. by rewrite <- !app_assoc. }
      destruct f as [e|e|e]; [| |by destruct (Hret e)]; cbn;
        (split_and!; auto; right; exists v, L1, w1, v2; split_and!; auto).
  - destruct (cleanup_trace op L1 w1) as (cl & Hcl & HFcl).
    exists cs, nil, cl. cbn. rewrite Hcl, Hcs, <- app_assoc.
    split_and!; auto; cbn; lia.
  - destruct Hf as (_ & _ & _ & -> & _).
    exists nil, nil, nil. cbn. rewrite app_nil_r. split_and!; auto; cbn; lia.
Qed.

Lemma new_events_app w w' evs :
  trace w' = (trace w ++ evs)%list → new_events w w' = evs.
Proof. intros H. unfold new_events. rewrite H. by rewrite drop_app_length. Qed.

Lemma filter_is_blas_copy_events P l cs :
  Forall (copy_event P l) cs → List.filter is_blas cs = [].
Proof.
  induction 1 as [|ev cs (a & e & _ & _ & _ & ->) _ IH]; [done|]. cbn. exact IH.
Qed.

Lemma filter_is_blas_clears cl :
  Forall (fun ev => is_clear ev = true) cl → List.filter is_blas cl = [].
Proof.
  induction 1 as [|ev cl Hev _ IH]; [done|]. cbn. by destruct ev.
Qed.

Lemma GpuArray_r_no_retry op cd so P nocopy w :
  NoDup (name <$> array_args op) →
  (length (List.filter is_blas (new_events w (GpuArray_r op cd so P nocopy w).2)) ≤ 1)%nat.
Proof.
  intros Hnd.
  destruct (GpuArray_r_events op cd so P nocopy w Hnd)
    as (cs & ds & cl & Ht & Hcs & _ & Hcl & Hlen & _).
  rewrite (new_events_app _ _ _ Ht), !List.filter_app.
  by rewrite (filter_is_blas_copy_events _ _ _ Hcs), (filter_is_blas_clears _ Hcl), app_nil_r.
Qed.


Lemma cleanup_no_copy op L w : copy_of L = ∅ → cleanup op L w = w.
Proof.
  destruct L as [m v]. cbn. intros ->. unfold cleanup. cbn [copy_of].
  generalize (array_args op). intros l.
  induction l as [|a l IH]; [done|]. cbn [foldl].
  destruct (isoutput a); [exact IH|].
  replace ((∅ : gmap string GpuArray) !! name a) with (@None GpuArray)
    by (symmetry; apply lookup_empty).
  exact IH.
Qed.

(** Copying disabled: the loop leaves at the first defective input, with
    nothing allocated. *)
Lemma fallback_loop_nocopy P nocopy l : ∀ L w,
  nocopy ≠ 0%Z → inputs_first l = true →
  (∃ a, a ∈ l ∧ isoutput a = false ∧ defect a (p_array P (name a)) = true) →
  for_each (fallback P nocopy) l L w = (Return GA_COPY_ERROR, L, w).
Proof.
  induction l as [|a l IH]; intros L w Hnz Hif (a' & Ha' & Hin & Hdef).
  - by apply elem_of_nil in Ha'.
  - cbn [for_each]. rewrite C_bind_eq. cbn in Hif. apply andb_true_iff in Hif as [Hhd Hif].
    destruct (fallback_cases P nocopy a L w)
      as [[Hd Hf]|[(Hd & Ho & Hf)|[(Hd & Ho & Hnz' & Hf)|(Hd & Ho & Hz & _)]]];
      cbn zeta in *; [| | |done].
    + rewrite Hf. apply IH; auto. exists a'. split_and!; auto.
      apply elem_of_cons in Ha' as [->|]; [congruence|done].
    + exfalso. rewrite Ho in Hhd. apply elem_of_cons in Ha' as [->|Ha']; [congruence|].
      rewrite forallb_forall in Hhd. apply list_elem_of_In in Ha'.
      specialize (Hhd _ Ha'). congruence.
    + by rewrite Hf.
Qed.

(** Copying enabled: the loop asks [GpuArray_copy] for a copy of every
    defective input, in turn, until one copy fails; it then leaves to
    [cleanup] with the error of that copy. *)
Lemma fallback_loop_attempts P l : ∀ L w f L' w',
  inputs_first l = true →
  for_each (fallback P 0) l L w = (f, L', w') →
  ∃ evs, trace w' = (trace w ++ evs)%list ∧
    ∀ a, a ∈ l → isoutput a = false → defect a (p_array P (name a)) = true →
      EvCopy (name a) (p_array P (name a)) (copy_order a) GA_NO_ERROR ∈ evs ∨
      ∃ a' err, a' ∈ l ∧ isoutput a' = false ∧ defect a' (p_array P (name a')) = true ∧
        err ≠ GA_NO_ERROR ∧
        EvCopy (name a') (p_array P (name a')) (copy_order a') err ∈ evs ∧
        f = Goto_cleanup err.
Proof.
  induction l as [|a0 l IH]; intros L w f L' w' Hif Hrun.
  - cbn [for_each] in Hrun. unfold mret, C_ret in Hrun. simplify_eq.
    exists nil. rewrite app_nil_r. split; [done|]. intros a Ha. by apply elem_of_nil in Ha.
  - cbn [for_each] in Hrun. rewrite C_bind_eq in Hrun.
    cbn in Hif. apply andb_true_iff in Hif as [Hhd Hif].
    destruct (fallback_cases P 0 a0 L w)
      as [[Hd Hf]|[(Hd & Ho & Hf)|[(Hd & Ho & Hnz & _)|(Hd & Ho & _ & err & c0 & Hc & Hf)]]];
      cbn zeta in *; [| |done|].
    + rewrite Hf in Hrun. destruct (IH _ _ _ _ _ Hif Hrun) as (evs & Ht & Hevs).
      exists evs. split; [done|]. intros a [->|Ha]%elem_of_cons Hin Hdef; [congruence|].
      destruct (Hevs a Ha Hin Hdef) as [?|(a' & err & ? & ? & ? & ? & ? & ?)]; [by left|].
      right. exists a', err. split_and!; try done. by right.
    + rewrite Hf in Hrun. simplify_eq. exists nil. rewrite app_nil_r. split; [done|].
      intros a [->|Ha]%elem_of_cons Hin Hdef; [congruence|].
      rewrite Ho in Hhd. rewrite forallb_forall in Hhd. apply list_elem_of_In in Ha.
      specialize (Hhd _ Ha). congruence.
    + destruct Hf as [[Herr Hf]|[-> Hf]]; rewrite Hf in Hrun.
      * simplify_eq. eexists [_]. split; [reflexivity|]. intros a Ha Hin Hdef.
        right. exists a0, err. split_and!; try done; by left.
      * destruct (IH _ _ _ _ _ Hif Hrun) as (evs & Ht & Hevs). cbn [trace log] in Ht.
        exists (EvCopy (name a0) (p_array P (name a0)) (copy_order a0) GA_NO_ERROR :: evs).
        split; [by rewrite Ht, <- app_assoc|].
        intros a [->|Ha]%elem_of_cons Hin Hdef; [left; by left|].
        destruct (Hevs a Ha Hin Hdef) as [?|(a' & err & ? & ? & ? & ? & ? & ?)];
          [left; by right|].
        right. exists a', err. split_and!; try done; by right.
Qed.

(** What follows the fallback loop adds events and takes none away; a
    loop that left to [cleanup] gives the call its status. *)
Lemma GpuArray_r_after_loop op cd so P nocopy w v f L1 w1 :
  validate op cd P (vars (init_locals P)) = inr v →
  for_each (fallback P nocopy) (array_args op) (mkLocals ∅ v) w = (f, L1, w1) →
  (∃ rest, trace (GpuArray_r op cd so P nocopy w).2 = (trace w1 ++ rest)%list) ∧
  (∀ e, f = Goto_cleanup e → (GpuArray_r op cd so P nocopy w).1 = e).
Proof.
  intros Hv Hloop. rewrite GpuArray_r_unfold, Hv, Hloop.
  destruct f as [[]|e|e]; cbn [fst snd].
  - split; [|done]. destruct (so (deref P L1) (vars L1)) as [e|v2]; cbn [snd].
    + destruct (cleanup_trace op L1 w1) as (cl & Hcl & _). eauto.
    + destruct (dispatch_run op P (mkLocals (copy_of L1) v2) w1)
        as (f & w2 & ds & Hd & _ & Hds & Hret & _).
      rewrite Hd.
      destruct (cleanup_trace op (mkLocals (copy_of L1) v2) w2) as (cl & Hcl & _).
      exists (ds ++ cl)%list.
      destruct f as [e|e|e]; cbn [snd]; [| |by destruct (Hret e)];
        by rewrite Hcl, Hds, <- app_assoc.
  - split; [|by intros ? [= ->]].
    destruct (cleanup_trace op L1 w1) as (cl & Hcl & _). eauto.
  - split; [|done]. exists nil. by rewrite app_nil_r.
Qed.

(** No defective input: the loop allocates nothing, and leaves to
    [cleanup] with [GA_VALUE_ERROR] exactly when an output is defective. *)
Lemma fallback_loop_inputs_fine P nocopy l : ∀ L w,
  (∀ a, a ∈ l → isoutput a = false → defect a (p_array P (name a)) = false) →
  for_each (fallback P nocopy) l L w =
  (if existsb (fun a => defect a (p_array P (name a))) l
   then Goto_cleanup GA_VALUE_ERROR else Next tt, L, w).
Proof.
  induction l as [|a l IH]; intros L w Hfine; [done|].
  cbn [for_each existsb]. rewrite C_bind_eq.
  destruct (fallback_cases P nocopy a L w)
    as [[Hd Hf]|[(Hd & Ho & Hf)|[(Hd & Ho & _)|(Hd & Ho & _)]]]; cbn zeta in *.
  - rewrite Hf, Hd. cbn. apply IH. intros a' Ha'. apply Hfine. by right.
  - by rewrite Hf, Hd.
  - rewrite Hfine in Hd; [done|by left|done].
  - rewrite Hfine in Hd; [done|by left|done].
Qed.

(** C2.  For each of the three generated functions [GpuArray_r<op>], every
    call, with any arguments, any [nocopy] and any behaviour of the runtime
    (success, a backend error, a failed copy, any validation error), returns
    with exactly the buffers live that were live at the call: every fallback
    copy the call allocated has been released by [cleanup]. *)
Theorem fallback_copies_released :
  Forall (fun g => ∀ P nocopy w,
            live (GpuArray_r (g_op g) (g_check_dims g) (g_setup_order g) P nocopy w).2
            = live w) GENERATED.
Proof.
  apply Forall_GENERATED. intros g (Hnd & _) P nocopy w. by apply GpuArray_r_live.
Qed.

(** C1, as amended.  Each generated function is one pass through these
    steps, in this order, and returns the error of the first that fails: the
    element type of the first array is [float] or [double]
    ([GA_INVALID_ERROR]); the ranks and then the element types of all arrays
    agree ([GA_VALUE_ERROR]); all arrays are aligned ([GA_UNALIGNED_ERROR]);
    the dimension check of the operation, on the caller's arrays and before
    anything is copied; the contiguity fallback; the order setup, on the
    possibly copied arrays; the lookups and the call of the backend.  Nothing
    is retried: a call adds at most one backend invocation. *)
Theorem pipeline_order :
  Forall (fun g => ∀ P nocopy w,
    let op := g_op g in
    let cd := g_check_dims g in
    let so := g_setup_order g in
    let tc := typecode (p_array P (firsta op)) in
    GpuArray_r op cd so P nocopy w =
      (if negb (bool_decide (tc = GA_FLOAT)) && negb (bool_decide (tc = GA_DOUBLE))
       then (GA_INVALID_ERROR, w)
       else if existsb (ndcond_c P) (array_args op)
               || existsb (typecond_c P (firsta op)) (array_args op)
       then (GA_VALUE_ERROR, w)
       else if existsb (aligncond_c P) (array_args op)
       then (GA_UNALIGNED_ERROR, w)
       else
         match cd (p_array P) (vars (init_locals P)) with
         | inl e => (e, w)
         | inr v =>
             match for_each (fallback P nocopy) (array_args op) (mkLocals ∅ v) w with
             | (Return e, _, w1) => (e, w1)
             | (Goto_cleanup e, L1, w1) => (e, cleanup op L1 w1)
             | (Next _, L1, w1) =>
                 match so (deref P L1) (vars L1) with
                 | inl e => (e, cleanup op L1 w1)
                 | inr v2 =>
                     match dispatch op P (mkLocals (copy_of L1) v2) w1 with
                     | (Return e, _, w2) => (e, w2)
                     | (Goto_cleanup e, L2, w2) | (Next e, L2, w2) =>
                         (e, cleanup op L2 w2)
                     end
                 end
             end
         end)
    ∧ (length (List.filter is_blas
                 (new_events w (GpuArray_r op cd so P nocopy w).2)) ≤ 1)%nat)
  GENERATED.
Proof.
  apply Forall_GENERATED. intros g (Hnd & _) P nocopy w. cbn zeta. split.
  - rewrite GpuArray_r_unfold. unfold validate.
    destruct (_ && _); [done|]. destruct (_ || _); [done|].
    by destruct (existsb (aligncond_c P) _).
  - by apply GpuArray_r_no_retry.
Qed.


Lemma array_args_arguments op a : a ∈ array_args op → a ∈ arguments op.
Proof. unfold array_args. by intros [_ ?]%list_elem_of_filter. Qed.

Lemma blas_call_array op P L a :
  a ∈ array_args op →
  BArray (data (deref P L (name a)))
         (offset (deref P L (name a)) / gpuarray_get_elsize (typecode (p_array P (firsta op))))
  ∈ bc_args (blas_call op P L).
Proof.
  intros Ha. unfold blas_call.
  destruct (if bool_decide _ then _ else _) as [letter ctype]. cbn [bc_args].
  pose proof Ha as Harr. unfold array_args in Harr. apply list_elem_of_filter in Harr as [Hisarr Harg].
  apply list_elem_of_In, List.in_concat. eexists. split.
  - apply List.in_map. apply list_elem_of_In. exact Harg.
  - destruct a; try discriminate; cbn; by left.
Qed.

Lemma NoDup_name_inj (l : list Argument) a a' :
  NoDup (name <$> l) → a ∈ l → a' ∈ l → name a = name a' → a = a'.
Proof.
  induction l as [|b l IH]; intros Hnd Ha Ha' Heq; [by apply elem_of_nil in Ha|].
  cbn in Hnd. pose proof (NoDup_cons_1_1 _ _ Hnd) as Hb. apply NoDup_cons_1_2 in Hnd.
  apply elem_of_cons in Ha as [->|Ha]; apply elem_of_cons in Ha' as [->|Ha']; auto.
  - exfalso. apply Hb. rewrite Heq. by apply list_elem_of_fmap_2.
  - exfalso. apply Hb. rewrite <- Heq. by apply list_elem_of_fmap_2.
Qed.

Lemma events_blas_in_dispatch P l cs ds cl call e :
  Forall (copy_event P l) cs → Forall (fun ev => is_clear ev = true) cl →
  EvBlas call e ∈ (cs ++ ds ++ cl)%list → EvBlas call e ∈ ds.
Proof.
  intros Hcs Hcl. rewrite !elem_of_app. intros [H|[H|H]]; [|done|].
  - rewrite Forall_forall in Hcs. apply list_elem_of_In in H.
    destruct (Hcs _ H) as (? & ? & _ & _ & _ & ?). done.
  - rewrite Forall_forall in Hcl. apply list_elem_of_In in H.
    by specialize (Hcl _ H).
Qed.

(** C3, as amended.  In each generated function, the checks of the type,
    the ranks, the alignment and the dimensions come before the fallback
    loop: a call that fails one of them returns its error with the runtime
    left as it was, whatever the layout of the arrays is.  For an array
    argument [a] whose parameter has the defect the loop tests (a matrix
    that is not one segment, a vector with a negative first stride):
    - [a] an input, copying disabled, the checks before the loop passed: the
      call returns [GA_COPY_ERROR] and leaves the runtime as it was (no
      buffer allocated, no event);
    - [a] an input, copying enabled, the checks before the loop passed:
      [GpuArray_copy] is asked for a copy of [a], in the order [GA_F_ORDER]
      for a matrix and [GA_ANY_ORDER] for a vector, and gives one, unless
      the copy of a defective input, [a] or one before it, failed, and then
      the call returns the error of that copy;
    - [a] an input, copying enabled: whenever the call reaches the backend,
      the backend receives for [a] the buffer of a copy [GpuArray_copy] made
      of it, a buffer that was not live at the call;
    - [a] an output: whatever [nocopy] is, the call fails, the backend is not
      called and no copy of [a] is made; when the checks before the loop
      passed and no input is defective, the error is [GA_VALUE_ERROR] and the
      runtime is left as it was. *)
Theorem contiguity_fallback (g : Generated) (P : CArgs) (nocopy : Z) (w : World)
    (a : Argument) :
  g ∈ GENERATED →
  a ∈ array_args (g_op g) →
  defect a (p_array P (name a)) = true →
  let op := g_op g in
  let r := GpuArray_r op (g_check_dims g) (g_setup_order g) P nocopy w in
  let validated := ∃ v, validate op (g_check_dims g) P (vars (init_locals P)) = inr v in
  (∀ e, validate op (g_check_dims g) P (vars (init_locals P)) = inl e → r = (e, w)) ∧
  (isoutput a = false → nocopy ≠ 0%Z → validated → r = (GA_COPY_ERROR, w)) ∧
  (isoutput a = false → nocopy = 0%Z → validated →
     EvCopy (name a) (p_array P (name a)) (copy_order a) GA_NO_ERROR ∈ new_events w r.2 ∨
     ∃ a' err, a' ∈ array_args op ∧ isoutput a' = false ∧
       defect a' (p_array P (name a')) = true ∧ err ≠ GA_NO_ERROR ∧
       EvCopy (name a') (p_array P (name a')) (copy_order a') err ∈ new_events w r.2 ∧
       r.1 = err) ∧
  (isoutput a = false → nocopy = 0%Z →
     ∀ call e, EvBlas call e ∈ new_events w r.2 →
       ∃ c, copied P a c ∧ (data c ∉ live w) ∧
            BArray (data c)
                   (offset c / gpuarray_get_elsize (typecode (p_array P (firsta op))))
            ∈ bc_args call) ∧
  (isoutput a = true →
     r.1 ≠ GA_NO_ERROR ∧
     Forall (fun ev => is_blas ev = false) (new_events w r.2) ∧
     (∀ src ord err, EvCopy (name a) src ord err ∉ new_events w r.2) ∧
     (validated →
      (∀ a', a' ∈ array_args op → isoutput a' = false →
             defect a' (p_array P (name a')) = false) →
      r = (GA_VALUE_ERROR, w))).
Proof.
  intros Hg Ha Hdef op r validated.
  assert (Hwg : well_generated g).
  { pose proof GENERATED_well_generated as H. rewrite Forall_forall in H.
    apply H. by apply list_elem_of_In. }
  destruct Hwg as (Hnd & Hif & Hcd & Hso). fold op in Hnd, Hif.
  split; [|split; [|split; [|split]]].
  - (* a check before the loop fails *)
    intros e Hv. subst r. by rewrite GpuArray_r_unfold, Hv.
  - (* input, copying disabled *)
    intros Hin Hnz [v Hv]. subst r. rewrite GpuArray_r_unfold, Hv.
    rewrite (fallback_loop_nocopy P nocopy _ _ w Hnz Hif); [done|]. eauto.
  - (* input, copying enabled: the copy is asked for *)
    intros Hin -> [v Hv]. subst r.
    destruct (for_each (fallback P 0) (array_args op) (mkLocals ∅ v) w)
      as [[f L1] w1] eqn:Hloop.
    destruct (fallback_loop_attempts P _ _ _ _ _ _ Hif Hloop) as (evs & Ht & Hevs).
    destruct (GpuArray_r_after_loop op (g_check_dims g) (g_setup_order g) P 0 w
                v f L1 w1 Hv Hloop) as [[rest Hrest] Hgoto].
    rewrite Ht, <- app_assoc in Hrest. rewrite (new_events_app _ _ _ Hrest).
    destruct (Hevs a Ha Hin Hdef) as [Hok|(a' & err & Ha' & Hin' & Hdef' & Herr & Hev & ->)].
    + left. apply elem_of_app. by left.
    + right. exists a', err. split_and!; try done; [|by apply Hgoto].
      apply elem_of_app. by left.
  - (* input, copying enabled *)
    intros Hin -> call e Hev. subst r.
    destruct (GpuArray_r_events op (g_check_dims g) (g_setup_order g) P 0 w Hnd)
      as (cs & ds & cl & Ht & Hcs & _ & Hcl & _ & Hds).
    rewrite (new_events_app _ _ _ Ht) in Hev.
    apply (events_blas_in_dispatch _ _ _ _ _ _ _ Hcs Hcl) in Hev.
    destruct Hds as [->|(v & L1 & w1 & v2 & Hv & Hloop & Hs & Hds)];
      [by apply elem_of_nil in Hev|].
    rewrite Forall_forall in Hds. apply list_elem_of_In in Hev.
    specialize (Hds _ Hev). cbn in Hds. subst call.
    destruct (fallback_loop_outcome P 0 _ _ _ _ _ _ Hnd (λ _ _, lookup_empty _) Hloop)
      as (_ & _ & _ & _ & Hcopy & Hnext).
    specialize (Hnext a Ha). rewrite Hdef in Hnext. destruct Hnext as [_ [c Hc]].
    destruct (Hcopy a c Ha Hc) as (_ & _ & _ & Hfresh & _ & Hcopied).
    exists c. split_and!; [done|done|].
    pose proof (blas_call_array op P (mkLocals (copy_of L1) v2) a Ha) as Hin'.
    unfold deref in Hin'. cbn [copy_of] in Hin'. by rewrite Hc in Hin'.
  - (* output *)
    intros Hout. subst r.
    destruct (GpuArray_r_events op (g_check_dims g) (g_setup_order g) P nocopy w Hnd)
      as (cs & ds & cl & Ht & Hcs & _ & Hcl & _ & Hds).
    rewrite (new_events_app _ _ _ Ht).
    assert (Hloopfail : ∀ v L1 w1,
              for_each (fallback P nocopy) (array_args op) (mkLocals ∅ v) w
              ≠ (Next tt, L1, w1)).
    { intros v L1 w1 Hloop.
      destruct (fallback_loop_outcome P nocopy _ _ _ _ _ _ Hnd (λ _ _, lookup_empty _) Hloop)
        as (_ & _ & _ & _ & _ & Hnext).
      specialize (Hnext a Ha). rewrite Hdef in Hnext. destruct Hnext as [? _]. congruence. }
    assert (Hds' : ds = []).
    { destruct Hds as [->|(v & L1 & w1 & v2 & _ & Hloop & _)]; [done|].
      by destruct (Hloopfail _ _ _ Hloop). }
    subst ds. split; [|split; [|split]].
    + rewrite GpuArray_r_unfold.
      destruct (validate op _ P _) as [e|v] eqn:Hv.
      { destruct (validate_error _ _ _ _ _ Hcd Hv) as [->|[->| ->]]; done. }
      destruct (for_each _ _ _ w) as [[f L1] w1] eqn:Hloop.
      destruct (fallback_loop_outcome P nocopy _ _ _ _ _ _ Hnd (λ _ _, lookup_empty _) Hloop)
        as (_ & _ & _ & _ & _ & Hf).
      destruct f as [[]|e|e]; cbn.
      * by destruct (Hloopfail _ _ _ Hloop).
      * by destruct Hf as [? _].
      * by destruct Hf as [-> _].
    + cbn. rewrite Forall_app. split.
      * eapply List.Forall_impl; [|exact Hcs]. by intros ev (? & ? & _ & _ & _ & ->).
      * eapply List.Forall_impl; [|exact Hcl]. by intros [].
    + intros src ord err. cbn. rewrite elem_of_app. intros [H|H].
      * rewrite Forall_forall in Hcs. apply list_elem_of_In in H.
        destruct (Hcs _ H) as (a' & e' & Ha' & Hin' & _ & Heq). simplify_eq.
        assert (a = a'); [|congruence].
        by eapply NoDup_name_inj.
      * rewrite Forall_forall in Hcl. apply list_elem_of_In in H. by specialize (Hcl _ H).
    + intros [v Hv] Hfine. rewrite GpuArray_r_unfold, Hv.
      rewrite fallback_loop_inputs_fine by done.
      assert (Hex : existsb (λ a0, defect a0 (p_array P (name a0))) (array_args op) = true).
      { apply existsb_exists. exists a. split; [by apply list_elem_of_In|done]. }
      rewrite Hex. by rewrite cleanup_no_copy.
Qed.


(** What [setup_order_gemm] does to one input matrix [x], given the order
    [o] fixed before: its leading dimension is taken from the dimension of
    its own storage order; its transpose flag is inverted exactly when that
    order is not [o]. *)
Lemma setup_order_gemm_input_spec x ldx tx arr v :
  match storage_order (arr x) with
  | None => setup_order_gemm_input x ldx tx arr v = inl GA_VALUE_ERROR
  | Some ox =>
      setup_order_gemm_input x ldx tx arr v =
      inr (let v1 := assign_size v ldx (dim (arr x) (ld_index ox)) in
           if decide (ox = order_var v) then v1
           else assign_trans v1 tx (flip_trans (trans_var v tx)))
  end.
Proof.
  unfold storage_order, setup_order_gemm_input, cb_fortran, cb_c.
  destruct (has_flag (arr x) GA_F_CONTIGUOUS); cbn.
  - destruct (order_var v); cbn; done.
  - destruct (has_flag (arr x) GA_C_CONTIGUOUS); cbn; [|done].
    destruct (order_var v); cbn; done.
Qed.


Lemma gemm_array_C : matrix "C" true ∈ array_args gemm.
Proof. vm_compute. right. right. left. Qed.

Lemma validated_loop_output_not_copied op P nocopy v w L1 w1 a :
  NoDup (name <$> array_args op) →
  for_each (fallback P nocopy) (array_args op) (mkLocals ∅ v) w = (Next tt, L1, w1) →
  a ∈ array_args op → isoutput a = true →
  deref P L1 (name a) = p_array P (name a).
Proof.
  intros Hnd Hloop Ha Hout.
  destruct (fallback_loop_outcome P nocopy _ _ _ _ _ _ Hnd (λ _ _, lookup_empty _) Hloop)
    as (_ & _ & _ & _ & Hcopy & _).
  unfold deref. destruct (copy_of L1 !! name a) as [c|] eqn:Hc; [|done].
  destruct (Hcopy a c Ha Hc) as [? _]. congruence.
Qed.

(** C4, as amended.  The order setup of the matrix-matrix product: the
    order is fixed by [C], column-major if [C] is Fortran-contiguous, else
    row-major if it is C-contiguous; [ldc] is the dimension that order takes
    a leading dimension from.  Each of [A] and [B] whose own storage order
    is the fixed one keeps its transpose flag; each whose storage order is
    the other one has its flag inverted ([cb_no_trans] becomes [cb_trans],
    [cb_trans] becomes [cb_no_trans]).  The leading dimension of [A] and of
    [B] is taken from the dimension of the matrix's own storage order, the
    first for a Fortran-contiguous matrix and the second for a C-contiguous
    one, whether that order is the fixed one or not.  A matrix that is
    neither gives [GA_VALUE_ERROR].  And every call [GpuArray_rgemm] makes of
    the backend passes the order of [C]. *)
Theorem gemm_storage_order :
  (∀ arr v,
     match storage_order (arr "C"), storage_order (arr "A"), storage_order (arr "B") with
     | Some o, Some oa, Some ob =>
         ∃ v', setup_order_gemm_c arr v = inr v' ∧
               order_var v' = o ∧
               size_var v' "ldc" = dim (arr "C") (ld_index o) ∧
               trans_var v' "transA" =
                 (if decide (oa = o) then trans_var v "transA"
                  else flip_trans (trans_var v "transA")) ∧
               size_var v' "lda" = dim (arr "A") (ld_index oa) ∧
               trans_var v' "transB" =
                 (if decide (ob = o) then trans_var v "transB"
                  else flip_trans (trans_var v "transB")) ∧
               size_var v' "ldb" = dim (arr "B") (ld_index ob)
     | _, _, _ => setup_order_gemm_c arr v = inl GA_VALUE_ERROR
     end) ∧
  flip_trans cb_no_trans = cb_trans ∧
  flip_trans cb_trans = cb_no_trans ∧
  (∀ P nocopy w call e,
     EvBlas call e ∈ new_events w (GpuArray_rgemm P nocopy w).2 →
     storage_order (p_array P "C") = Some (bc_order call)).
Proof.
  split_and!; [|done|done|].
  - intros arr v. unfold setup_order_gemm_c.
    destruct (storage_order (arr "C")) as [o|] eqn:EC; unfold storage_order in EC.
    2:{ destruct (has_flag (arr "C") GA_F_CONTIGUOUS); [done|].
        destruct (has_flag (arr "C") GA_C_CONTIGUOUS); [done|].
        by repeat case_match. }
    set (v1 := assign_size (assign_order v o) "ldc" (dim (arr "C") (ld_index o))).
    assert (Hc : (if has_flag (arr "C") GA_F_CONTIGUOUS
                  then inr (assign_size (assign_order v cb_fortran) "ldc" (dim (arr "C") 0))
                  else if has_flag (arr "C") GA_C_CONTIGUOUS
                       then inr (assign_size (assign_order v cb_c) "ldc" (dim (arr "C") 1))
                       else inl GA_VALUE_ERROR) = (inr v1 : ga_error + Vars)).
    { destruct (has_flag (arr "C") GA_F_CONTIGUOUS); [by simplify_eq|].
      destruct (has_flag (arr "C") GA_C_CONTIGUOUS); by simplify_eq. }
    rewrite Hc. clear Hc EC.
    pose proof (setup_order_gemm_input_spec "A" "lda" "transA" arr v1) as HA.
    destruct (storage_order (arr "A")) as [oa|]; [|by rewrite HA].
    rewrite HA. clear HA.
    match goal with |- context [setup_order_gemm_input "B" _ _ _ ?v2] =>
      pose proof (setup_order_gemm_input_spec "B" "ldb" "transB" arr v2) as HB end.
    destruct (storage_order (arr "B")) as [ob|]; [|by rewrite HB].
    rewrite HB. clear HB. eexists. split; [reflexivity|].
    subst v1. destruct o, oa, ob; vm_compute; by split_and!.
  - intros P nocopy w call e Hev.
    assert (Hnd : NoDup (name <$> array_args gemm))
      by (refine (bool_decide_unpack _ _); vm_compute; reflexivity).
    unfold GpuArray_rgemm in Hev.
    destruct (GpuArray_r_events gemm check_dims_gemm_c setup_order_gemm_c P nocopy w Hnd)
      as (cs & ds & cl & Ht & Hcs & _ & Hcl & _ & Hds).
    rewrite (new_events_app _ _ _ Ht) in Hev.
    apply (events_blas_in_dispatch _ _ _ _ _ _ _ Hcs Hcl) in Hev.
    destruct Hds as [->|(v & L1 & w1 & v2 & Hv & Hloop & Hs & Hds)];
      [by apply elem_of_nil in Hev|].
    rewrite Forall_forall in Hds. apply list_elem_of_In in Hev.
    specialize (Hds _ Hev). cbn in Hds. subst call.
    pose proof (validated_loop_output_not_copied gemm P nocopy v w L1 w1 (matrix "C" true)
                  Hnd Hloop gemm_array_C eq_refl) as HC. cbn [name] in HC.
    rewrite <- HC.
    assert (Hord : bc_order (blas_call gemm P (mkLocals (copy_of L1) v2)) = order_var v2).
    { unfold blas_call. by destruct (bool_decide _). }
    rewrite Hord. clear Hord.
    unfold setup_order_gemm_c in Hs. unfold storage_order.
    destruct (has_flag (deref P L1 "C") GA_F_CONTIGUOUS).
    + destruct (setup_order_gemm_input "A" _ _ _ _) as [|vA] eqn:EA; [done|].
      pose proof (setup_order_gemm_input_spec "A" "lda" "transA" (deref P L1)
                    (assign_size (assign_order (vars L1) cb_fortran) "ldc" (dim (deref P L1 "C") 0))) as HA.
      pose proof (setup_order_gemm_input_spec "B" "ldb" "transB" (deref P L1) vA) as HB.
      destruct (storage_order (deref P L1 "A")); [|congruence].
      destruct (storage_order (deref P L1 "B")); [|congruence].
      rewrite EA in HA. rewrite Hs in HB. simplify_eq.
      f_equal. by repeat case_decide.
    + destruct (has_flag (deref P L1 "C") GA_C_CONTIGUOUS); [|done].
      destruct (setup_order_gemm_input "A" _ _ _ _) as [|vA] eqn:EA; [done|].
      pose proof (setup_order_gemm_input_spec "A" "lda" "transA" (deref P L1)
                    (assign_size (assign_order (vars L1) cb_c) "ldc" (dim (deref P L1 "C") 1))) as HA.
      pose proof (setup_order_gemm_input_spec "B" "ldb" "transB" (deref P L1) vA) as HB.
      destruct (storage_order (deref P L1 "A")); [|congruence].
      destruct (storage_order (deref P L1 "B")); [|congruence].
      rewrite EA in HA. rewrite Hs in HB. simplify_eq.
      f_equal. by repeat case_decide.
Qed.


(** ** The binding *)

Lemma dispatch_status op P L w f L' w' :
  never_copy_error →
  dispatch op P L w = (f, L', w') →
  ∀ e, f = Next e ∨ f = Goto_cleanup e → e ≠ GA_COPY_ERROR.
Proof.
  intros (_ & Hctx & Hops & Hsetup & Hentry). unfold dispatch. run_C.
  pose proof (Hctx w (data (deref P L (firsta op)))) as H1.
  destruct (property_ctx w _) as [e1 ctx]. cbn in H1. run_C.
  destruct (decide (e1 = GA_NO_ERROR)) as [->|?]; [run_C|].
  2:{ intros [= <- <- <-] e [[=]|[= <-]]. done. }
  destruct (decide (property_blas_ops _ ctx = GA_NO_ERROR)) as [E2|?]; [run_C|].
  2:{ intros [= <- <- <-] e [[=]|[= <-]]. apply Hops. }
  destruct (decide (blas_setup _ ctx = GA_NO_ERROR)) as [E3|?]; [run_C|].
  2:{ intros [= <- <- <-] e [[=]|[= <-]]. apply Hsetup. }
  intros [= <- <- <-] e [[= <-]|[=]]. apply Hentry.
Qed.

Lemma GpuArray_r_never_copy_error g P w :
  well_generated g → never_copy_error →
  (GpuArray_r (g_op g) (g_check_dims g) (g_setup_order g) P 0 w).1 ≠ GA_COPY_ERROR.
Proof.
  intros (Hnd & _ & Hcd & Hso) Hrt. rewrite GpuArray_r_unfold.
  destruct (validate _ _ P _) as [e|v] eqn:Hv.
  { destruct (validate_error _ _ _ _ _ Hcd Hv) as [->|[->| ->]]; done. }
  destruct (for_each _ _ _ w) as [[f L1] w1] eqn:Hloop.
  destruct (fallback_loop_outcome P 0 _ _ _ _ _ _ Hnd (λ _ _, lookup_empty _) Hloop)
    as (_ & _ & _ & _ & _ & Hf).
  destruct f as [[]|e|e]; cbn.
  - destruct (g_setup_order g _ _) as [e|v2] eqn:Hs; cbn.
    { apply Hso in Hs. by subst. }
    destruct (dispatch _ P _ w1) as [[f L2] w2] eqn:Hd.
    pose proof (dispatch_status _ _ _ _ _ _ _ Hrt Hd) as Hst.
    destruct f as [e|e|e]; cbn; [apply Hst; auto|apply Hst; auto|].
    destruct (dispatch_run (g_op g) P (mkLocals (copy_of L1) v2) w1)
      as (f' & ? & ? & Hd' & _ & _ & Hret & _).
    rewrite Hd in Hd'. simplify_eq. by destruct (Hret e).
  - destruct Hf as (_ & [[-> _]|(_ & a & w' & c0 & _ & _ & _ & Hc)]); [done|].
    destruct Hrt as (Hcopy & _). specialize (Hcopy w' (p_array P (name a)) (copy_order a)).
    by rewrite Hc in Hcopy.
  - by destruct Hf as (_ & ? & _).
Qed.

Lemma pygpu_blas_r_never_copy_error g f w :
  well_generated g → never_copy_error →
  (pygpu_blas_r (g_op g) (g_check_dims g) (g_setup_order g) f 0 w).1
  ≠ inl (GpuArrayException GA_COPY_ERROR).
Proof.
  intros Hg Hrt. unfold pygpu_blas_r. destruct (existsb _ _); [done|].
  pose proof (GpuArray_r_never_copy_error g (c_params f) w Hg Hrt) as H.
  destruct (GpuArray_r _ _ _ _ 0 w) as [err w']. cbn in *.
  destruct (decide _); [done|]. cbn. congruence.
Qed.

Lemma py_copy_outputs_raises op f w e w' :
  py_copy_outputs op f w = (inl e, w') → e = NoneAccess.
Proof.
  unfold py_copy_outputs. generalize (array_args op). intros l.
  assert (H : ∀ st : (PyExn + PyVars) * World,
            (∀ e0 w0, st = (inl e0, w0) → e0 = NoneAccess) →
            foldl (fun st a =>
           match st with
           | (inl e, w) => (inl e, w)
           | (inr f, w) =>
               if negb (isoutput a) then (inr f, w)
               else if py_option f ("overwrite_" +:+ lower (name a)) then (inr f, w)
               else match py_array f (name a) with
                    | None => (inl NoneAccess, w)
                    | Some A =>
                        (inr (py_set_array f (name a) (pygpu_copy w A GA_ANY_ORDER)),
                         log (EvPyCopy A GA_ANY_ORDER) w)
                    end
           end) st l = (inl e, w') → e = NoneAccess).
  { induction l as [|a l IH]; intros st Hst; cbn.
    - intros H. exact (Hst _ _ H).
    - apply IH. intros e0 w0. destruct st as [[e1|f1] w1]; [intros [= <- <-]; exact (Hst _ _ eq_refl)|].
      destruct (negb _); [done|]. destruct (py_option f1 _); [done|].
      destruct (py_array f1 _); [done|]. by intros [= <- <-]. }
  apply H. by intros.
Qed.

Lemma py_finish_never_copy_error g f w :
  well_generated g → never_copy_error →
  (py_finish (g_op g) (g_check_dims g) (g_setup_order g) f w).1
  ≠ inl (GpuArrayException GA_COPY_ERROR).
Proof.
  intros Hg Hrt. unfold py_finish.
  destruct (py_copy_outputs _ f w) as [[e|f'] w'] eqn:Hc; cbn.
  { apply py_copy_outputs_raises in Hc. by subst. }
  pose proof (pygpu_blas_r_never_copy_error g f' w' Hg Hrt) as H.
  destruct (pygpu_blas_r _ _ _ f' 0 w') as [[e|z] w'']; cbn [fst] in *; [|intros [=]].
  intros [= ->]. by apply H.
Qed.

(** The fragments raise [TypeError], [ValueError] or fail on a [None]
    array; never a [GpuArrayException]. *)
Lemma py_ensure_output_raises g f w e w' :
  g ∈ GENERATED → g_py_ensure_output g f w = (inl e, w') →
  ∀ err, e ≠ GpuArrayException err.
Proof.
  unfold GENERATED. rewrite !elem_of_cons, elem_of_nil.
  intros [->|[->|[->|[]]]]; cbn;
    [unfold py_ensure_output_gemv_py|unfold py_ensure_output_gemm_py
    |unfold py_ensure_output_ger_py];
    repeat (case_match; try (intros [= <- <-]; done)); try done.
Qed.


Lemma GENERATED_elem g : g ∈ GENERATED → well_generated g.
Proof.
  intros Hg. pose proof GENERATED_well_generated as H. rewrite Forall_forall in H.
  apply H. by apply list_elem_of_In.
Qed.

(** C10.  For each of the three operations and every call of the callable
    [<op>], in a runtime none of whose calls returns [GA_COPY_ERROR]: the
    callable never raises a [GpuArrayException] carrying [GA_COPY_ERROR].  In
    the rendered binding every callable calls its wrapper with the literal 0
    as the last argument, every wrapper passes its [nocopy] on to
    [GpuArray_r<op>], and no callable has a parameter named [nocopy]. *)
Theorem binding_always_copies (g : Generated) (f : PyVars) (w : World) :
  g ∈ GENERATED →
  never_copy_error →
  (py_call (g_op g) (g_check_dims g) (g_setup_order g) (g_py_ensure_output g) f w).1
    ≠ inl (GpuArrayException GA_COPY_ERROR) ∧
  (pyx ← BLAS_PYX_TMPL OPS; Some (all_between "    pygpu_blas_r" ")" (lines_of pyx)))
    = mapM (fun op => s ← BlasOp_format_simple_call op "%s";
                      Some (opname op +:+ "(" +:+ s +:+ ", 0")) OPS ∧
  (pyx ← BLAS_PYX_TMPL OPS; Some (all_between "    err = GpuArray_r" ");" (lines_of pyx)))
    = mapM (fun op => s ← BlasOp_format_simple_call op "&%s.ga";
                      Some (opname op +:+ "(" +:+ s +:+ ", nocopy")) OPS ∧
  map (has_substring "nocopy") <$> mapM format_pyargs OPS = Some [false; false; false].
Proof.
  intros Hg Hrt. split; [|by vm_compute].
  unfold py_call.
  destruct (g_py_ensure_output g _ w) as [[e|f'] w'] eqn:He; cbn [fst].
  - intros [= ->]. by eapply py_ensure_output_raises.
  - apply py_finish_never_copy_error; [by apply GENERATED_elem|done].
Qed.


Lemma py_set_transposes_gemv f :
  py_set_transposes gemv f =
  py_set_trans f "transA" (if py_option f "trans_a" then cb_trans else cb_no_trans).
Proof. reflexivity. Qed.

Lemma py_set_transposes_gemm f :
  py_set_transposes gemm f =
  py_set_trans
    (py_set_trans f "transA" (if py_option f "trans_a" then cb_trans else cb_no_trans))
    "transB" (if py_option f "trans_b" then cb_trans else cb_no_trans).
Proof. reflexivity. Qed.

Lemma py_set_transposes_ger f : py_set_transposes ger f = f.
Proof. reflexivity. Qed.

Lemma if_trans_no_trans (b : bool) {A} (x y : A) :
  (if decide ((if b then cb_trans else cb_no_trans) = cb_no_trans) then x else y)
  = if b then y else x.
Proof. by destruct b. Qed.

(** C5, as amended.  The callables [gemv] and [gemm], called without their
    output ([Y], [C]) and with [A] (and for [gemm] also [B]) of rank 2: when
    [beta != 0.0] they raise [ValueError] and leave the runtime as it was;
    otherwise they allocate the output with [pygpu_empty], of the inferred
    shape (for [gemv] the rows of [A] after transposition; for [gemm] those
    rows by the columns of [B] after transposition), mark it overwritable and
    go on with the rest of the call, so the allocation comes before the
    validation pipeline.  When [A] does not have rank 2, and for [gemm] when
    [A] has and [B] does not, they raise [TypeError] and leave the runtime
    as it was, whatever the output, [beta] and the other arguments are. *)
Theorem output_inferred :
  (∀ f w A,
     py_array f "A" = Some A → nd (ga A) = 2%Z → py_array f "Y" = None →
     let rows := if py_option f "trans_a" then dim (ga A) 1 else dim (ga A) 0 in
     let f1 := py_set_transposes gemv f in
     py_gemv f w =
     if PrimFloat.eqb (py_scalar f "beta") PrimFloat.zero
     then py_finish gemv check_dims_gemv_c setup_order_gemv_c
            (py_set_option
               (py_set_array f1 "Y"
                  (pygpu_empty w [rows] (typecode (ga A)) GA_ANY_ORDER (context A)))
               "overwrite_y" true)
            (log (EvPyEmpty [rows] (typecode (ga A)) GA_ANY_ORDER (context A)) w)
     else (inl (ValueError "Y not provided and beta != 0"), w)) ∧
  (∀ f w A B,
     py_array f "A" = Some A → nd (ga A) = 2%Z →
     py_array f "B" = Some B → nd (ga B) = 2%Z → py_array f "C" = None →
     let rows := if py_option f "trans_a" then dim (ga A) 1 else dim (ga A) 0 in
     let cols := if py_option f "trans_b" then dim (ga B) 0 else dim (ga B) 1 in
     let f1 := py_set_transposes gemm f in
     py_gemm f w =
     if PrimFloat.eqb (py_scalar f "beta") PrimFloat.zero
     then py_finish gemm check_dims_gemm_c setup_order_gemm_c
            (py_set_option
               (py_set_array f1 "C"
                  (pygpu_empty w [rows; cols] (typecode (ga A)) GA_ANY_ORDER (context A)))
               "overwrite_c" true)
            (log (EvPyEmpty [rows; cols] (typecode (ga A)) GA_ANY_ORDER (context A)) w)
     else (inl (ValueError "C not provided and beta != 0"), w)) ∧
  (∀ f w A,
     py_array f "A" = Some A → nd (ga A) ≠ 2%Z →
     py_gemv f w = (inl (TypeError "A is not a matrix"), w) ∧
     py_gemm f w = (inl (TypeError "A is not a matrix"), w)) ∧
  (∀ f w A B,
     py_array f "A" = Some A → nd (ga A) = 2%Z →
     py_array f "B" = Some B → nd (ga B) ≠ 2%Z →
     py_gemm f w = (inl (TypeError "B is not a matrix"), w)).
Proof.
  split; [|split; [|split]].
  3:{ intros f w A HA Hnd. apply Z.eqb_neq in Hnd. split.
      - unfold py_gemv, py_call, py_ensure_output_gemv_py.
        rewrite py_set_transposes_gemv. cbn [py_array py_set_trans]. by rewrite HA, Hnd.
      - unfold py_gemm, py_call, py_ensure_output_gemm_py.
        rewrite py_set_transposes_gemm. cbn [py_array py_set_trans]. by rewrite HA, Hnd. }
  3:{ intros f w A B HA HndA HB HndB. apply Z.eqb_neq in HndB.
      unfold py_gemm, py_call, py_ensure_output_gemm_py.
      rewrite py_set_transposes_gemm. cbn [py_array py_set_trans].
      by rewrite HA, HB, HndA, HndB. }
  - intros f w A HA Hnd HY rows f1. unfold py_gemv, py_call. fold f1.
    unfold py_ensure_output_gemv_py. subst f1. rewrite py_set_transposes_gemv.
    cbn [py_array py_set_trans py_scalar py_trans]. rewrite HA, HY, Hnd. cbn [Z.eqb Pos.eqb negb].
    rewrite fn_lookup_insert, if_trans_no_trans. fold rows.
    by destruct (PrimFloat.eqb _ _).
  - intros f w A B HA HndA HB HndB HC rows cols f1. unfold py_gemm, py_call. fold f1.
    unfold py_ensure_output_gemm_py. subst f1. rewrite py_set_transposes_gemm.
    cbn [py_array py_set_trans py_scalar py_trans]. rewrite HA, HB, HC, HndA, HndB.
    cbn [Z.eqb Pos.eqb negb].
    rewrite fn_lookup_insert, (fn_lookup_insert_ne _ "transB" "transA") by done.
    rewrite fn_lookup_insert, !if_trans_no_trans. fold rows cols.
    by destruct (PrimFloat.eqb _ _).
Qed.

Lemma validate_prechecked op cd P v :
  prechecked op P → validate op cd P v = cd (p_array P) v.
Proof.
  intros H. specialize (H v). unfold validate in *.
  destruct (_ && _); [done|]. destruct (_ || _); [done|].
  by destruct (existsb (aligncond_c P) _).
Qed.

(** C6.  The callable [ger] called without [A], with [X] and [Y] given:
    whatever the scalar [alpha] is, it allocates [A] with [pygpu_zeros], of
    shape (first dimension of [X], first dimension of [Y]), marks it
    overwritable and goes on with the rest of the call.  And [GpuArray_rger],
    the validation pipeline, on a matrix [A] whose shape is not that one:
    it never succeeds, and when the type, rank and alignment checks pass it
    returns [GA_VALUE_ERROR] with the runtime left as it was; on a matrix of
    that shape the dimension check passes. *)
Theorem ger_output :
  (∀ f w X Y,
     py_array f "A" = None → py_array f "X" = Some X → py_array f "Y" = Some Y →
     let Ashp := [dim (ga X) 0; dim (ga Y) 0] in
     py_ger f w =
     py_finish ger check_dims_ger_c setup_order_ger_c
       (py_set_option
          (py_set_array f "A"
             (pygpu_zeros w Ashp (typecode (ga X)) GA_ANY_ORDER (context X)))
          "overwrite_a" true)
       (log (EvPyZeros Ashp (typecode (ga X)) GA_ANY_ORDER (context X)) w)) ∧
  (∀ P nocopy w,
     let X := p_array P "X" in let Y := p_array P "Y" in let A := p_array P "A" in
     (dim A 0 ≠ dim X 0 ∨ dim A 1 ≠ dim Y 0) →
     (GpuArray_rger P nocopy w).1 ≠ GA_NO_ERROR ∧
     (prechecked ger P → GpuArray_rger P nocopy w = (GA_VALUE_ERROR, w))) ∧
  (∀ P v,
     let X := p_array P "X" in let Y := p_array P "Y" in let A := p_array P "A" in
     dim A 0 = dim X 0 → dim A 1 = dim Y 0 →
     ∃ v', check_dims_ger_c (p_array P) v = inr v').
Proof.
  split_and!.
  - intros f w X Y HA HX HY Ashp. unfold py_ger, py_call.
    rewrite py_set_transposes_ger. unfold py_ensure_output_ger_py.
    by rewrite HA, HX, HY.
  - intros P nocopy w X Y A Hshape.
    assert (Hcd : ∀ v, check_dims_ger_c (p_array P) v = inl GA_VALUE_ERROR).
    { intros v. unfold check_dims_ger_c. fold X Y A.
      destruct (negb (dim A 0 =? dim X 0)%Z || negb (dim A 1 =? dim Y 0)%Z) eqn:E; [done|].
      apply orb_false_iff in E as [E1 E2].
      apply negb_false_iff, Z.eqb_eq in E1. apply negb_false_iff, Z.eqb_eq in E2.
      destruct Hshape; congruence. }
    unfold GpuArray_rger. rewrite GpuArray_r_unfold. split.
    + destruct (validate ger _ P _) as [e|v'] eqn:Hv; cbn.
      * destruct (validate_error _ _ _ _ _ check_dims_ger_c_error Hv) as [->|[->| ->]]; done.
      * unfold validate in Hv. rewrite Hcd in Hv. by repeat case_match.
    + intros Hpre. by rewrite validate_prechecked, Hcd.
  - intros P v X Y A H0 H1. unfold check_dims_ger_c. fold X Y A.
    rewrite H0, H1, !Z.eqb_refl. cbn. eauto.
Qed.


End properties.


(** C1, as stated, fails: [GpuArray_rgemv] with copying disabled, a matrix
    [A] of shape (3,4) that is not one segment, [X] of length 4 and [Y] of
    length 2.  The code checks the dimensions first and returns
    [GA_VALUE_ERROR]; in the order the specification states, the contiguity
    fallback comes first and the call returns [GA_COPY_ERROR]. *)
Lemma pipeline_order_counterexample :
  let rt := example_runtime GA_NO_ERROR GA_NO_ERROR in
  let P := params (arrays3 "A" (strided_mat 10 3 4) "X" (compact_vec 11 4)
                     "Y" (compact_vec 12 2)) cb_no_trans cb_no_trans in
  (GpuArray_rgemv P 1 w0).1 = GA_VALUE_ERROR ∧
  (spec_order_GpuArray_r gemv check_dims_gemv_c setup_order_gemv_c P 1 w0).1 = GA_COPY_ERROR.
Proof. split; vm_compute; reflexivity. Qed.

(** ** The rendered text *)

(** C7, as amended.  In the rendered artifacts, for every operation and
    every element type of the table: the field of the dispatch table, the
    entry of the table's initialiser and the entry [GpuArray_r<op>] calls
    are named by the letter of the element type followed by the name of the
    operation ([sgemv], [dgemm], ...).  The simplified function is named
    [GpuArray_r] followed by the name of the operation, in its declaration,
    its definition and the binding's declaration; the header also defines,
    per element type, the alias [GpuArray_<letter><op>] of it.  The wrapper of
    the binding is [pygpu_blas_r<op>], and the callable alone is named by the
    operation's name. *)
Theorem symbol_names :
  (declared_names "  int (*" ")" <$> BUFFERBLAS_TMPL OPS)
    = Some (["setup"] ++ per_type_names OPS ++ ["sgemmBatch"; "dgemmBatch"])%list ∧
  ((fun g => declared_in "  " ","
               (lines_after "GPUARRAY_LOCAL gpuarray_blas_ops __GLUE(NAME, _ops) = {"
                            (lines_of g))) <$> GENERIC_TMPL OPS BS)
    = Some (["setup"; "teardown"] ++ per_type_names OPS ++ ["sgemmBatch"; "dgemmBatch"])%list ∧
  (declared_names "    err = blas->" "(" <$> ARRAYBLAS_TMPL OPS) = Some (per_type_names OPS) ∧
  (declared_names "GPUARRAY_PUBLIC int " "(" <$> BLAS_TMPL OPS)
    = Some (map (fun op => "GpuArray_r" +:+ opname op) OPS) ∧
  ((fun h => all_between "#define GpuArray_" "" (lines_of h)) <$> BLAS_TMPL OPS)
    = Some (flat_map (fun op => map (fun ty => dtype_c ty +:+ opname op +:+ " GpuArray_r" +:+ opname op)
                                    (types op)) OPS) ∧
  (declared_names "int " "(" <$> ARRAYBLAS_TMPL OPS)
    = Some (map (fun op => "GpuArray_r" +:+ opname op) OPS) ∧
  (declared_names "    int " "(" <$> BLAS_PYX_TMPL OPS)
    = Some (map (fun op => "GpuArray_r" +:+ opname op) OPS) ∧
  (declared_names "cdef api int " "(" <$> BLAS_PYX_TMPL OPS)
    = Some (map (fun op => "pygpu_blas_r" +:+ opname op) OPS) ∧
  (declared_names "def " "(" <$> BLAS_PYX_TMPL OPS) = Some (map opname OPS).
Proof. vm_compute. by split_and!. Qed.

(** C7, as stated, fails: the simplified functions the header declares are
    [GpuArray_rgemv], [GpuArray_rgemm] and [GpuArray_rger], not the names of
    the operations. *)
Lemma symbol_names_counterexample :
  (declared_names "GPUARRAY_PUBLIC int " "(" <$> BLAS_TMPL OPS)
    = Some ["GpuArray_rgemv"; "GpuArray_rgemm"; "GpuArray_rger"] ∧
  (declared_names "GPUARRAY_PUBLIC int " "(" <$> BLAS_TMPL OPS) ≠ Some (map opname OPS).
Proof. vm_compute. split; [done|]. intros [=]. Qed.



Lemma gen_blas_writes ops fs :
  gen_blas ops fs =
  match
    generic ← GENERIC_TMPL ops BS;
    bufferblas ← BUFFERBLAS_TMPL ops;
    blas ← BLAS_TMPL ops;
    arrayblas ← ARRAYBLAS_TMPL ops;
    blas_pyx ← BLAS_PYX_TMPL ops;
    Some [("src/generic_blas.inc.c", generic); ("src/gpuarray/buffer_blas.h", bufferblas);
          ("src/gpuarray/blas.h", blas); ("src/gpuarray_array_blas.c", arrayblas);
          ("pygpu/blas.pyx", blas_pyx)]
  with
  | None => (1%Z, fs)
  | Some files => (0%Z, foldl (fun fs '(p, t) => <[p := t]> fs) fs files)
  end.
Proof.
  unfold gen_blas.
  destruct (GENERIC_TMPL ops BS); [|done]. destruct (BUFFERBLAS_TMPL ops); [|done].
  destruct (BLAS_TMPL ops); [|done]. destruct (ARRAYBLAS_TMPL ops); [|done].
  by destruct (BLAS_PYX_TMPL ops).
Qed.

(** C9.  Running the script on the files a first run left gives the same
    files and the same exit status: the script is idempotent.  Two runs on
    any two file systems have the same exit status, and when it is 0 each of
    the five artifacts exists after either run with the same text, which
    depends on the table alone.  On the table of the script the status is
    0. *)
Theorem gen_blas_idempotent (ops : list BlasOp) (fs fs' : gmap string string) :
  gen_blas ops (gen_blas ops fs).2 = gen_blas ops fs ∧
  (gen_blas ops fs).1 = (gen_blas ops fs').1 ∧
  ((gen_blas ops fs).1 = 0%Z →
   Forall (fun p => is_Some ((gen_blas ops fs).2 !! p) ∧
                    (gen_blas ops fs).2 !! p = (gen_blas ops fs').2 !! p) artifacts) ∧
  (gen_blas OPS fs).1 = 0%Z.
Proof.
  assert (Hne : ∀ a b : string, bool_decide (a = b) = false → a ≠ b)
    by (intros a b H ->; by rewrite bool_decide_eq_true_2 in H).
  split_and!.
  - unfold gen_blas.
    destruct (GENERIC_TMPL ops BS) as [g|]; [|done]. destruct (BUFFERBLAS_TMPL ops) as [b|]; [|done].
    destruct (BLAS_TMPL ops) as [h|]; [|done]. destruct (ARRAYBLAS_TMPL ops) as [a|]; [|done].
    destruct (BLAS_PYX_TMPL ops) as [p|]; [|done]. cbn. f_equal.
    apply map_eq. intros k.
    destruct (decide (k = "pygpu/blas.pyx")) as [->|?]; [by simplify_map_eq|].
    destruct (decide (k = "src/gpuarray_array_blas.c")) as [->|?]; [by simplify_map_eq|].
    destruct (decide (k = "src/gpuarray/blas.h")) as [->|?]; [by simplify_map_eq|].
    destruct (decide (k = "src/gpuarray/buffer_blas.h")) as [->|?]; [by simplify_map_eq|].
    destruct (decide (k = "src/generic_blas.inc.c")) as [->|?]; [by simplify_map_eq|].
    by simplify_map_eq.
  - unfold gen_blas.
    destruct (GENERIC_TMPL ops BS) as [g|]; [|done]. destruct (BUFFERBLAS_TMPL ops) as [b|]; [|done].
    destruct (BLAS_TMPL ops) as [h|]; [|done]. destruct (ARRAYBLAS_TMPL ops) as [a|]; [|done].
    by destruct (BLAS_PYX_TMPL ops) as [p|].
  - unfold gen_blas.
    destruct (GENERIC_TMPL ops BS) as [g|]; [|done]. destruct (BUFFERBLAS_TMPL ops) as [b|]; [|done].
    destruct (BLAS_TMPL ops) as [h|]; [|done]. destruct (ARRAYBLAS_TMPL ops) as [a|]; [|done].
    destruct (BLAS_PYX_TMPL ops) as [p|]; [|done]. cbn. intros _.
    unfold artifacts.
    repeat (apply Forall_cons_2; [split; [by simplify_map_eq|by simplify_map_eq]|]).
    apply Forall_nil_2.
  - unfold gen_blas.
    destruct (GENERIC_TMPL OPS BS) as [g|] eqn:E1; [|by vm_compute in E1].
    destruct (BUFFERBLAS_TMPL OPS) as [b|] eqn:E2; [|by vm_compute in E2].
    destruct (BLAS_TMPL OPS) as [h|] eqn:E3; [|by vm_compute in E3].
    destruct (ARRAYBLAS_TMPL OPS) as [a|] eqn:E4; [|by vm_compute in E4].
    by destruct (BLAS_PYX_TMPL OPS) as [p|] eqn:E5; [|by vm_compute in E5].
Qed.

(** ** The properties at work *)

Lemma example_runtime_never_copy_error :
  @never_copy_error (example_runtime GA_NO_ERROR GA_NO_ERROR).
Proof. by repeat split. Defined.

(** [GpuArray_rgemv] on a matrix that is not one segment, the dimensions
    being right: with copying disabled, the copy error; with copying
    enabled, the copy of [A] is made and the backend is called with its
    buffer. *)
Lemma contiguity_fallback_witness :
  let rt := example_runtime GA_NO_ERROR GA_NO_ERROR in
  let A := strided_mat 10 3 4 in
  let P := params (arrays3 "A" A "X" (compact_vec 11 4)
                     "Y" (compact_vec 12 3)) cb_no_trans cb_no_trans in
  let call :=
    mkBlasCall "sgemv" cb_column
      [BTrans cb_no_trans; BSize 3; BSize 4; BScal "float" PrimFloat.one; BArray 1 0;
       BSize 3; BArray 11 0; BInc 1; BScal "float" PrimFloat.one; BArray 12 0; BInc 1] in
  GpuArray_rgemv P 1 w0 = (GA_COPY_ERROR, w0) ∧
  (EvCopy "A" A GA_F_ORDER GA_NO_ERROR ∈ new_events w0 (GpuArray_rgemv P 0 w0).2 ∨
   ∃ a' err, a' ∈ array_args gemv ∧ isoutput a' = false ∧
     defect a' (p_array P (name a')) = true ∧ err ≠ GA_NO_ERROR ∧
     EvCopy (name a') (p_array P (name a')) (copy_order a') err
       ∈ new_events w0 (GpuArray_rgemv P 0 w0).2 ∧
     (GpuArray_rgemv P 0 w0).1 = err) ∧
  EvBlas call GA_NO_ERROR ∈ new_events w0 (GpuArray_rgemv P 0 w0).2 ∧
  ∃ c, copied P (matrix "A" false) c ∧ (data c ∉ live w0) ∧
       BArray (data c) (offset c / gpuarray_get_elsize (typecode (p_array P "A")))
       ∈ bc_args call.
Proof.
  intros rt A P call.
  assert (Hg : gemv_g ∈ GENERATED) by apply list_elem_of_here.
  assert (Ha : matrix "A" false ∈ array_args gemv) by (vm_compute; apply list_elem_of_here).
  assert (Hv : ∃ v, validate gemv check_dims_gemv_c P (vars (init_locals P)) = inr v)
    by (eexists; reflexivity).
  assert (Hev : EvBlas call GA_NO_ERROR ∈ new_events w0 (GpuArray_rgemv P 0 w0).2).
  { unfold GpuArray_rgemv.
    match goal with
    | |- _ ∈ ?l => let t := eval vm_compute in l in
                  replace l with t by (vm_compute; reflexivity)
    end.
    repeat first [apply list_elem_of_here | apply list_elem_of_further]. }
  split; [|split; [|split]].
  - exact (proj1 (proj2 (@contiguity_fallback rt gemv_g P 1 w0 (matrix "A" false)
                           Hg Ha eq_refl))
             eq_refl ltac:(discriminate) Hv).
  - exact (proj1 (proj2 (proj2 (@contiguity_fallback rt gemv_g P 0 w0 (matrix "A" false)
                                  Hg Ha eq_refl)))
             eq_refl eq_refl Hv).
  - exact Hev.
  - exact (proj1 (proj2 (proj2 (proj2 (@contiguity_fallback rt gemv_g P 0 w0
                                         (matrix "A" false) Hg Ha eq_refl))))
             eq_refl eq_refl call GA_NO_ERROR Hev).
Defined.

(** C3, as stated, fails: [GpuArray_rgemv] with copying disabled on a
    matrix [A] that is not one segment, of shape (3,4), with [X] of length 4
    and [Y] of length 2.  The type, rank and alignment checks pass, but the
    dimension check, which comes before the fallback loop, does not: the
    call returns [GA_VALUE_ERROR], not the copy error. *)
Lemma contiguity_fallback_counterexample :
  let rt := example_runtime GA_NO_ERROR GA_NO_ERROR in
  let P := params (arrays3 "A" (strided_mat 10 3 4) "X" (compact_vec 11 4)
                     "Y" (compact_vec 12 2)) cb_no_trans cb_no_trans in
  matrix "A" false ∈ array_args gemv ∧
  defect (matrix "A" false) (p_array P "A") = true ∧
  prechecked gemv P ∧
  GpuArray_rgemv P 1 w0 = (GA_VALUE_ERROR, w0) ∧
  (GpuArray_rgemv P 1 w0).1 ≠ GA_COPY_ERROR.
Proof.
  intros rt P. split; [vm_compute; apply list_elem_of_here|].
  split; [reflexivity|]. split; [intros v; reflexivity|]. split; [reflexivity|].
  vm_compute. discriminate.
Qed.

(** C4, as stated, fails: a Fortran-contiguous [A] of shape (2,3) with a
    C-contiguous [B] of shape (3,4) and a C-contiguous [C] of shape (2,4).
    The fixed order is row-major and the transpose flag of [A] is inverted,
    but its leading dimension is its first dimension, 2, and not the
    opposite one, 3, which the rule of the specification gives; and 2 is
    what the backend receives. *)
Lemma gemm_storage_order_counterexample :
  let rt := example_runtime GA_NO_ERROR GA_NO_ERROR in
  let A := compact_mat 10 GA_F_ORDER 2 3 in
  let B := compact_mat 11 GA_C_ORDER 3 4 in
  let C := compact_mat 12 GA_C_ORDER 2 4 in
  let P := params (arrays3 "A" A "B" B "C" C) cb_no_trans cb_no_trans in
  storage_order A = Some cb_column ∧ storage_order C = Some cb_row ∧
  dim A 0 = 2%Z ∧ dim A 1 = 3%Z ∧
  dim A (spec_ld_index cb_row cb_column) = 3%Z ∧
  (∃ v', setup_order_gemm_c (p_array P) (vars (init_locals P)) = inr v' ∧
         order_var v' = cb_row ∧ trans_var v' "transA" = cb_trans ∧
         size_var v' "lda" = 2%Z ∧
         size_var v' "lda" ≠ dim A (spec_ld_index cb_row cb_column)) ∧
  new_events w0 (GpuArray_rgemm P 0 w0).2 =
    [EvPropertyCtx 10 GA_NO_ERROR; EvPropertyBlas 7 GA_NO_ERROR; EvSetup 7 GA_NO_ERROR;
     EvBlas
       (mkBlasCall "sgemm" cb_row
          [BTrans cb_trans; BTrans cb_no_trans; BSize 2; BSize 4; BSize 3;
           BScal "float" PrimFloat.one; BArray 10 0; BSize 2; BArray 11 0; BSize 4;
           BScal "float" PrimFloat.one; BArray 12 0; BSize 4])
       GA_NO_ERROR].
Proof.
  intros rt A B C P. split_and!; try reflexivity.
  eexists. split; [reflexivity|]. split_and!; try reflexivity. vm_compute. discriminate.
Qed.

(** The callable [gemv] on a strided matrix and no [Y]. *)
Lemma binding_always_copies_witness :
  let rt := example_runtime GA_NO_ERROR GA_NO_ERROR in
  let f := py_frame "A" (Some (mkPyGpuArray (strided_mat 10 3 4) 7))
             "X" (Some (mkPyGpuArray (compact_vec 11 4) 7)) "Y" None PrimFloat.zero false in
  (py_gemv f w0).1 ≠ inl (GpuArrayException GA_COPY_ERROR).
Proof.
  intros rt f.
  refine (proj1 (@binding_always_copies rt gemv_g f w0 _ _)).
  - apply list_elem_of_here.
  - exact example_runtime_never_copy_error.
Defined.

(** The examples of the specification: [A] of shape (3,4) and no [Y] gives
    [Y] of length 3 when [beta] is 0 and a [ValueError] when it is 1; [A] of
    shape (2,3) and [B] of shape (4,3), transposed, give [C] of shape
    (2,4).  A vector in the place of [A], or of [B], gives a [TypeError],
    the output being supplied. *)
Lemma output_inferred_witness :
  let rt := example_runtime GA_NO_ERROR GA_NO_ERROR in
  let A := mkPyGpuArray (compact_mat 10 GA_C_ORDER 3 4) 7 in
  let X := mkPyGpuArray (compact_vec 11 4) 7 in
  let A2 := mkPyGpuArray (compact_mat 10 GA_C_ORDER 2 3) 7 in
  let B2 := mkPyGpuArray (compact_mat 11 GA_C_ORDER 4 3) 7 in
  let f0 := py_frame "A" (Some A) "X" (Some X) "Y" None PrimFloat.zero false in
  let f1 := py_frame "A" (Some A) "X" (Some X) "Y" None PrimFloat.one false in
  let V := mkPyGpuArray (compact_vec 11 4) 7 in
  let f2 := mkPyVars (fun _ => PrimFloat.zero)
              (<["A" := Some A2]> (<["B" := Some B2]> (fun _ => None)))
              (<["trans_b" := true]> (fun _ => false)) (fun _ => cb_no_trans) in
  let f3 := py_frame "A" (Some V) "X" (Some X) "Y" (Some X) PrimFloat.one false in
  let f4 := py_frame "A" (Some A2) "B" (Some V) "C" (Some A2) PrimFloat.one false in
  py_gemv f0 w0 =
    py_finish gemv check_dims_gemv_c setup_order_gemv_c
      (py_set_option
         (py_set_array (py_set_transposes gemv f0) "Y"
            (pygpu_empty w0 [3%Z] GA_FLOAT GA_ANY_ORDER 7%Z)) "overwrite_y" true)
      (log (EvPyEmpty [3%Z] GA_FLOAT GA_ANY_ORDER 7%Z) w0) ∧
  py_gemv f1 w0 = (inl (ValueError "Y not provided and beta != 0"), w0) ∧
  py_gemm f2 w0 =
    py_finish gemm check_dims_gemm_c setup_order_gemm_c
      (py_set_option
         (py_set_array (py_set_transposes gemm f2) "C"
            (pygpu_empty w0 [2%Z; 4%Z] GA_FLOAT GA_ANY_ORDER 7%Z)) "overwrite_c" true)
      (log (EvPyEmpty [2%Z; 4%Z] GA_FLOAT GA_ANY_ORDER 7%Z) w0) ∧
  (py_gemv f3 w0 = (inl (TypeError "A is not a matrix"), w0) ∧
   py_gemm f3 w0 = (inl (TypeError "A is not a matrix"), w0)) ∧
  py_gemm f4 w0 = (inl (TypeError "B is not a matrix"), w0).
Proof.
  intros rt A X A2 B2 f0 f1 V f2 f3 f4. split; [|split; [|split; [|split]]].
  - exact (proj1 (@output_inferred rt) f0 w0 A eq_refl eq_refl eq_refl).
  - exact (proj1 (@output_inferred rt) f1 w0 A eq_refl eq_refl eq_refl).
  - exact (proj1 (proj2 (@output_inferred rt)) f2 w0 A2 B2
             eq_refl eq_refl eq_refl eq_refl eq_refl).
  - refine (proj1 (proj2 (proj2 (@output_inferred rt))) f3 w0 V eq_refl _). discriminate.
  - refine (proj2 (proj2 (proj2 (@output_inferred rt))) f4 w0 A2 V eq_refl eq_refl eq_refl _).
    discriminate.
Defined.

(** C5, as stated, fails: [gemv] called without [Y], with [beta] 1 and an
    [A] of rank 1 raises [TypeError], from the rank check that comes before
    the test of [Y], and not the [ValueError] of a missing output. *)
Lemma output_inferred_counterexample :
  let rt := example_runtime GA_NO_ERROR GA_NO_ERROR in
  let f := py_frame "A" (Some (mkPyGpuArray (compact_vec 10 4) 7))
             "X" (Some (mkPyGpuArray (compact_vec 11 4) 7)) "Y" None PrimFloat.one false in
  (py_gemv f w0).1 = inl (TypeError "A is not a matrix").
Proof. reflexivity. Qed.

(** The examples of the specification: [X] of length 5, [Y] of length 7 and
    no [A] give an [A] of shape (5,7) from [pygpu_zeros]; an [A] of shape
    (5,6) gives [GA_VALUE_ERROR]. *)
Lemma ger_output_witness :
  let rt := example_runtime GA_NO_ERROR GA_NO_ERROR in
  let X := mkPyGpuArray (compact_vec 10 5) 7 in
  let Y := mkPyGpuArray (compact_vec 11 7) 7 in
  let f := py_frame "X" (Some X) "Y" (Some Y) "A" None PrimFloat.zero false in
  let P := params (arrays3 "X" (compact_vec 10 5) "Y" (compact_vec 11 7)
                     "A" (compact_mat 12 GA_C_ORDER 5 6)) cb_no_trans cb_no_trans in
  py_ger f w0 =
    py_finish ger check_dims_ger_c setup_order_ger_c
      (py_set_option
         (py_set_array f "A" (pygpu_zeros w0 [5%Z; 7%Z] GA_FLOAT GA_ANY_ORDER 7%Z))
         "overwrite_a" true)
      (log (EvPyZeros [5%Z; 7%Z] GA_FLOAT GA_ANY_ORDER 7%Z) w0) ∧
  GpuArray_rger P 0 w0 = (GA_VALUE_ERROR, w0).
Proof.
  intros rt X Y f P. split.
  - exact (proj1 (@ger_output rt) f w0 X Y eq_refl eq_refl eq_refl).
  - refine (proj2 (proj1 (proj2 (@ger_output rt)) P 0%Z w0 _) _).
    + right. vm_compute. discriminate.
    + intros v. reflexivity.
Defined.

(** A call that copies both inputs and whose backend fails: the status is
    the backend's, and both copies are released. *)
Example copies_released_on_backend_error :
  let rt := example_runtime GA_NO_ERROR (GA_ERROR 11) in
  let P := params (arrays3 "A" (strided_mat 10 3 4) "X" (reversed_vec 11 4)
                     "Y" (compact_vec 12 3)) cb_no_trans cb_no_trans in
  let r := GpuArray_rgemv P 0 w0 in
  r.1 = GA_ERROR 11 ∧ live r.2 = ∅ ∧
  map is_copy (trace r.2) = [true; true; false; false; false; false; false; false] ∧
  map is_clear (trace r.2) = [false; false; false; false; false; false; true; true].
Proof. vm_compute. by split_and!. Qed.

(** * More of the generated code

    Properties of the generator and of what it generates beyond those
    above: what the backend is called with, what the functions never do,
    and when the script fails. *)

(** ** The calls of the backend *)

Section backend_calls.
Context `{rt : Runtime}.

Ltac step_C :=
  repeat (rewrite C_bind_eq; cbn [get_locals get_world emit set_vars]);
  rewrite ?check_eq.

(** The events of [dispatch] and its outcome: a status that falls through
    to [cleanup] comes with exactly one call of the dispatch-table entry,
    which returned it; a jump to [cleanup] comes with none. *)
Lemma dispatch_blas_events op P L w :
  ∃ f w' evs,
    dispatch op P L w = (f, L, w') ∧
    trace w' = (trace w ++ evs)%list ∧
    Forall (fun ev => is_copy ev = false ∧ is_clear ev = false) evs ∧
    match f with
    | Next e => List.filter is_blas evs = [EvBlas (blas_call op P L) e]
    | Goto_cleanup e => e ≠ GA_NO_ERROR ∧ List.filter is_blas evs = []
    | Return _ => False
    end.
Proof.
  unfold dispatch. step_C.
  destruct (property_ctx w _) as [e1 ctx]. step_C.
  destruct (decide (e1 = GA_NO_ERROR)) as [->|H1]; [step_C|].
  2:{ do 3 eexists. split; [reflexivity|]. split; [reflexivity|].
      split; [by repeat constructor|]. by cbn. }
  destruct (decide (property_blas_ops _ ctx = GA_NO_ERROR)) as [E2|H2]; [step_C|].
  2:{ do 3 eexists. split; [reflexivity|].
      split; [cbn; rewrite <- ?app_assoc; reflexivity|].
      split; [by repeat constructor|]. by cbn. }
  destruct (decide (blas_setup _ ctx = GA_NO_ERROR)) as [E3|H3]; [step_C|].
  2:{ do 3 eexists. split; [reflexivity|].
      split; [cbn; rewrite <- ?app_assoc; reflexivity|].
      split; [by repeat constructor|]. by cbn. }
  do 3 eexists. split; [reflexivity|].
  split; [cbn; rewrite <- ?app_assoc; reflexivity|].
  split; [by repeat constructor|]. by cbn.
Qed.

Lemma filter_is_blas_app (l1 l2 : list Event) :
  List.filter is_blas (l1 ++ l2) = (List.filter is_blas l1 ++ List.filter is_blas l2)%list.
Proof. apply List.filter_app. Qed.

(** A call either ends without a call of the backend and with an error, or
    passes validation, the fallback loop and the order setup and calls the
    backend once, returning its status. *)
Lemma GpuArray_r_blas_events op cd so P nocopy w :
  NoDup (name <$> array_args op) → value_errors cd → value_errors so →
  let r := GpuArray_r op cd so P nocopy w in
  (r.1 ≠ GA_NO_ERROR ∧ List.filter is_blas (new_events w r.2) = []) ∨
  (∃ v L1 w1 v2,
     validate op cd P (vars (init_locals P)) = inr v ∧
     for_each (fallback P nocopy) (array_args op) (mkLocals ∅ v) w = (Next tt, L1, w1) ∧
     so (deref P L1) (vars L1) = inr v2 ∧
     List.filter is_blas (new_events w r.2)
       = [EvBlas (blas_call op P (mkLocals (copy_of L1) v2)) r.1]).
Proof.
  intros Hnd Hcd Hso r. subst r. rewrite GpuArray_r_unfold.
  destruct (validate op cd P _) as [e|v] eqn:Hval.
  { left. cbn. split.
    - destruct (validate_error _ _ _ _ _ Hcd Hval) as [->|[->| ->]]; done.
    - unfold new_events. by rewrite drop_all. }
  destruct (for_each _ _ _ w) as [[f L1] w1] eqn:Hloop.
  destruct (fallback_loop_outcome P nocopy _ _ _ _ _ _ Hnd (λ _ _, lookup_empty _) Hloop)
    as (_ & _ & (cs & Hcs & HFcs & Hnc) & _ & _ & Hf).
  pose proof (filter_is_blas_copy_events _ _ _ HFcs) as Hcsb.
  destruct f as [[]|e|e].
  - destruct (so (deref P L1) (vars L1)) as [e|v2] eqn:Hso'.
    + destruct (cleanup_trace op L1 w1) as (cl & Hcl & HFcl).
      left. cbn. split; [by rewrite (Hso _ _ _ Hso')|].
      rewrite (new_events_app w _ (cs ++ cl)) by (by rewrite Hcl, Hcs, <- app_assoc).
      by rewrite filter_is_blas_app, Hcsb, (filter_is_blas_clears cl).
    + destruct (dispatch_blas_events op P (mkLocals (copy_of L1) v2) w1)
        as (f & w2 & ds & Hd & Hds & _ & Hf2).
      rewrite Hd.
      destruct (cleanup_trace op (mkLocals (copy_of L1) v2) w2) as (cl & Hcl & HFcl).
      assert (Htr : trace (cleanup op (mkLocals (copy_of L1) v2) w2)
                    = (trace w ++ cs ++ ds ++ cl)%list).
      { rewrite Hcl, Hds, Hcs. by rewrite <- !app_assoc. }
      destruct f as [e|e|e]; [| |done]; cbn.
      * right. exists v, L1, w1, v2. split_and!; auto.
        rewrite (new_events_app _ _ _ Htr), !filter_is_blas_app, Hcsb, Hf2,
          (filter_is_blas_clears cl) by done. done.
      * left. destruct Hf2 as [Hne Hf2]. split; [done|].
        rewrite (new_events_app _ _ _ Htr), !filter_is_blas_app, Hcsb, Hf2,
          (filter_is_blas_clears cl) by done. done.
  - destruct (cleanup_trace op L1 w1) as (cl & Hcl & HFcl).
    left. cbn. split; [by destruct Hf|].
    rewrite (new_events_app w _ (cs ++ cl)) by (by rewrite Hcl, Hcs, <- app_assoc).
    by rewrite filter_is_blas_app, Hcsb, (filter_is_blas_clears cl).
  - destruct Hf as (-> & _ & _ & -> & _).
    left. cbn. split; [done|]. unfold new_events. by rewrite drop_all.
Qed.

Lemma elem_of_filter_is_blas call e (l : list Event) :
  EvBlas call e ∈ l ↔ EvBlas call e ∈ List.filter is_blas l.
Proof.
  rewrite !list_elem_of_In, List.filter_In. cbn. naive_solver.
Qed.

(** What a call of the backend tells about the run it is part of. *)
Lemma GpuArray_r_call op cd so P nocopy w call e :
  NoDup (name <$> array_args op) → value_errors cd → value_errors so →
  EvBlas call e ∈ new_events w (GpuArray_r op cd so P nocopy w).2 →
  ∃ v L v2,
    validate op cd P (vars (init_locals P)) = inr v ∧
    so (deref P L) v = inr v2 ∧
    call = blas_call op P (mkLocals (copy_of L) v2) ∧
    (GpuArray_r op cd so P nocopy w).1 = e ∧
    ∀ a, a ∈ array_args op →
      if defect a (p_array P (name a))
      then isoutput a = false ∧ nocopy = 0%Z ∧
           ∃ c, copy_of L !! name a = Some c ∧ copied P a c ∧ data c ∉ live w
      else copy_of L !! name a = None.
Proof.
  intros Hnd Hcd Hso Hin.
  apply elem_of_filter_is_blas in Hin.
  destruct (GpuArray_r_blas_events op cd so P nocopy w Hnd Hcd Hso)
    as [[_ Hnil]|(v & L1 & w1 & v2 & Hval & Hloop & Hso' & Hev)]; cbn zeta in *.
  { rewrite Hnil in Hin. by apply elem_of_nil in Hin. }
  rewrite Hev in Hin. apply list_elem_of_singleton in Hin. injection Hin as -> ->.
  destruct (fallback_loop_outcome P nocopy _ _ _ _ _ _ Hnd (λ _ _, lookup_empty _) Hloop)
    as (Hvars & _ & _ & _ & Hcopies & Hnext).
  cbn in Hvars. rewrite Hvars in Hso'.
  exists v, L1, v2. split_and!; auto.
  intros a Ha. specialize (Hnext a Ha).
  destruct (defect a (p_array P (name a))); [|done].
  destruct Hnext as [Ho [c Hc]].
  destruct (Hcopies a c Ha Hc) as (_ & _ & Hz & Hfresh & _ & Hcop).
  split_and!; eauto.
Qed.

Lemma existsb_false_elem {A} (f : A → bool) (l : list A) a :
  existsb f l = false → a ∈ l → f a = false.
Proof.
  intros H Ha. destruct (f a) eqn:E; [|done].
  rewrite <- H. symmetry. apply existsb_exists. exists a. by rewrite <- list_elem_of_In.
Qed.

Lemma elem_of_concat_map {A B} (f : A → list B) (l : list A) (b : B) :
  b ∈ concat (map f l) ↔ ∃ a, a ∈ l ∧ b ∈ f a.
Proof.
  rewrite list_elem_of_In, in_concat. split.
  - intros (y & Hy & Hb). apply in_map_iff in Hy as (a & <- & Ha).
    exists a. by rewrite !list_elem_of_In.
  - intros (a & Ha & Hb). exists (f a). split; [|by rewrite <- list_elem_of_In].
    apply in_map. by rewrite <- list_elem_of_In.
Qed.

(** What the four checks have established once [validate] lets a call
    through. *)
Lemma validate_passed op cd P v0 v :
  validate op cd P v0 = inr v →
  let first := p_array P (firsta op) in
  (typecode first = GA_FLOAT ∨ typecode first = GA_DOUBLE) ∧
  (∀ a, a ∈ array_args op →
     nd (p_array P (name a)) = (if ismatrix a then 2 else 1)%Z ∧
     typecode (p_array P (name a)) = typecode first ∧
     has_flag (p_array P (name a)) GA_ALIGNED = true) ∧
  cd (p_array P) v0 = inr v.
Proof.
  intros H first. unfold validate in H. fold first in H.
  destruct (negb (bool_decide (typecode first = GA_FLOAT)) && _) eqn:Htc; [done|].
  destruct (existsb (ndcond_c P) _ || _) eqn:Hnt; [done|].
  destruct (existsb (aligncond_c P) _) eqn:Hal; [done|].
  apply orb_false_iff in Hnt as [Hn Ht].
  split_and!; [|intros a Ha; split_and!|done].
  - apply andb_false_iff in Htc as [Htc|Htc]; apply negb_false_iff, bool_decide_eq_true_1 in Htc;
      auto.
  - pose proof (existsb_false_elem _ _ a Hn Ha) as Hna. unfold ndcond_c in Hna.
    destruct (ismatrix a); by apply negb_false_iff, Z.eqb_eq in Hna.
  - pose proof (existsb_false_elem _ _ a Ht Ha) as Hta. unfold typecond_c in Hta.
    by apply negb_false_iff, bool_decide_eq_true_1 in Hta.
  - pose proof (existsb_false_elem _ _ a Hal Ha) as Haa. unfold aligncond_c in Haa.
    by apply negb_false_iff in Haa.
Qed.

(** X1.  For each of the three generated functions: the status of a call
    of the backend, when there is one, is the status the function returns;
    and the function returns [GA_NO_ERROR] exactly when it has called the
    backend and the backend returned [GA_NO_ERROR].  No path past a failed
    step reports success, and no status of the backend is replaced. *)
Theorem backend_status_returned (g : Generated) (P : CArgs) (nocopy : Z) (w : World) :
  g ∈ GENERATED →
  let r := GpuArray_r (g_op g) (g_check_dims g) (g_setup_order g) P nocopy w in
  (∀ call e, EvBlas call e ∈ new_events w r.2 → r.1 = e) ∧
  (r.1 = GA_NO_ERROR ↔ ∃ call, EvBlas call GA_NO_ERROR ∈ new_events w r.2).
Proof.
  intros Hg r. destruct (GENERATED_elem g Hg) as (Hnd & _ & Hcd & Hso).
  assert (H1 : ∀ call e, EvBlas call e ∈ new_events w r.2 → r.1 = e).
  { intros call e Hin.
    by destruct (GpuArray_r_call _ _ _ _ _ _ _ _ Hnd Hcd Hso Hin) as (_ & _ & _ & _ & _ & _ & ? & _). }
  split; [done|]. split.
  - intros Hok.
    destruct (GpuArray_r_blas_events (g_op g) _ _ P nocopy w Hnd Hcd Hso)
      as [[Hne _]|(v & L1 & w1 & v2 & _ & _ & _ & Hev)]; cbn zeta in *; [done|].
    eexists. apply elem_of_filter_is_blas. fold r in Hev. rewrite Hev, Hok.
    apply list_elem_of_here.
  - intros [call Hin]. by apply H1 in Hin.
Qed.

(** X2.  Whenever one of the three generated functions calls the backend,
    the arrays it was given are all of one element type, [GA_FLOAT] or
    [GA_DOUBLE], every matrix has rank 2 and every vector rank 1, and all
    are aligned.  The entry called is [s<op>] or [d<op>]; every scalar is
    passed with the cast of that entry ([float] for [s], [double] for [d]),
    and the call has no other scalar argument.  When the first array needed
    no copy, the entry is [s<op>] exactly for [GA_FLOAT]. *)
Theorem typed_dispatch (g : Generated) (P : CArgs) (nocopy : Z) (w : World)
    (call : BlasCall) (e : ga_error) :
  g ∈ GENERATED →
  EvBlas call e
    ∈ new_events w (GpuArray_r (g_op g) (g_check_dims g) (g_setup_order g) P nocopy w).2 →
  let op := g_op g in
  let first := p_array P (firsta op) in
  (typecode first = GA_FLOAT ∨ typecode first = GA_DOUBLE) ∧
  (∀ a, a ∈ array_args op →
     nd (p_array P (name a)) = (if ismatrix a then 2 else 1)%Z ∧
     typecode (p_array P (name a)) = typecode first ∧
     has_flag (p_array P (name a)) GA_ALIGNED = true) ∧
  (∃ letter ct,
     (letter = "s" ∧ ct = "float" ∨ letter = "d" ∧ ct = "double") ∧
     bc_entry call = letter +:+ opname op ∧
     (∀ a, a ∈ arguments op → is_scalar a = true →
           BScal ct (p_scalar P (name a)) ∈ bc_args call) ∧
     (∀ ct' x, BScal ct' x ∈ bc_args call → ct' = ct) ∧
     (∀ a0, head (array_args op) = Some a0 → defect a0 (p_array P (name a0)) = false →
            (letter = "s" ↔ typecode first = GA_FLOAT))).
Proof.
  intros Hg Hin op first. destruct (GENERATED_elem g Hg) as (Hnd & _ & Hcd & Hso).
  destruct (GpuArray_r_call _ _ _ _ _ _ _ _ Hnd Hcd Hso Hin)
    as (v & L & v2 & Hval & _ & -> & _ & Harr).
  destruct (validate_passed _ _ _ _ _ Hval) as (Htc & Hall & _).
  split; [done|]. split; [done|].
  unfold blas_call. fold op.
  set (L' := mkLocals (copy_of L) v2).
  set (elsize := gpuarray_get_elsize _).
  assert (Hargs : ∀ ct,
    (∀ a, a ∈ arguments op → is_scalar a = true →
          BScal ct (p_scalar P (name a)) ∈ concat (map (blas_arg P L' ct elsize) (arguments op))) ∧
    (∀ ct' x, BScal ct' x ∈ concat (map (blas_arg P L' ct elsize) (arguments op)) → ct' = ct)).
  { intros ct. split.
    - intros a Ha Hs. apply elem_of_concat_map. exists a. split; [done|].
      destruct a; try done. cbn. apply list_elem_of_here.
    - intros ct' x Hx. apply elem_of_concat_map in Hx as (a & _ & Hx).
      destruct a; cbn in Hx; apply list_elem_of_singleton in Hx; by simplify_eq. }
  assert (Hfirst : ∀ a0, head (array_args op) = Some a0 →
            defect a0 (p_array P (name a0)) = false → deref P L' (firsta op) = first).
  { intros a0 Hh Hd. unfold first, firsta. rewrite Hh. cbn.
    assert (Ha0 : a0 ∈ array_args op) by (destruct (array_args op); simplify_eq/=; left).
    specialize (Harr a0 Ha0). rewrite Hd in Harr. unfold deref. cbn. by rewrite Harr. }
  destruct (bool_decide (typecode (deref P L' (firsta op)) = GA_FLOAT)) eqn:Hb.
  - exists "s", "float". split; [auto|]. split; [done|].
    destruct (Hargs "float") as [? ?]. split_and!; auto.
    intros a0 Hh Hd. rewrite (Hfirst a0 Hh Hd) in Hb.
    apply bool_decide_eq_true_1 in Hb. done.
  - exists "d", "double". split; [auto|]. split; [done|].
    destruct (Hargs "double") as [? ?]. split_and!; auto.
    intros a0 Hh Hd. rewrite (Hfirst a0 Hh Hd) in Hb.
    apply bool_decide_eq_false_1 in Hb. split; [done|]. intros ?. done.
Qed.


Lemma GENERATED_gemv : gemv_g ∈ GENERATED.
Proof. apply list_elem_of_here. Qed.

Lemma array_args_gemv : array_args gemv = [matrix "A" false; vector "X" false; vector "Y" true].
Proof. reflexivity. Qed.

Lemma blas_call_gemv P L :
  let elsize := gpuarray_get_elsize (typecode (p_array P "A")) in
  ∃ ct,
    bc_order (blas_call gemv P L) = order_var (vars L) ∧
    bc_args (blas_call gemv P L) =
      [BTrans (trans_var (vars L) "transA");
       BSize (size_var (vars L) "m"); BSize (size_var (vars L) "n");
       BScal ct (p_scalar P "alpha");
       BArray (data (deref P L "A")) (offset (deref P L "A") / elsize);
       BSize (size_var (vars L) "lda");
       BArray (data (deref P L "X")) (offset (deref P L "X") / elsize);
       BInc (inc_arg (deref P L "X") elsize);
       BScal ct (p_scalar P "beta");
       BArray (data (deref P L "Y")) (offset (deref P L "Y") / elsize);
       BInc (inc_arg (deref P L "Y") elsize)].
Proof.
  intros elsize. unfold blas_call.
  destruct (bool_decide _); eexists; split; reflexivity.
Qed.

(** An increment that fits an [int] reaches the backend as the quotient of
    the stride by the element size; from 2^31 on the conversion wraps. *)
Lemma inc_arg_in_range (X : GpuArray) (elsize : Z) :
  (0 ≤ stride X 0 < 2 ^ 64)%Z → (stride X 0 / elsize < 2 ^ 31)%Z → (0 < elsize)%Z →
  inc_arg X elsize = (stride X 0 / elsize)%Z.
Proof.
  intros Hs Hq He. unfold inc_arg, to_int, to_size_t.
  rewrite (Z.mod_small (stride X 0)) by lia.
  assert (0 ≤ stride X 0 / elsize)%Z by (apply Z.div_pos; lia).
  rewrite Z.mod_small; lia.
Qed.

Lemma inc_arg_wraps :
  inc_arg (mkGpuArray 1 0 1 [2%Z] [(2 ^ 33)%Z] 0 GA_FLOAT) 4 = (- 2 ^ 31)%Z.
Proof. reflexivity. Qed.

Ltac lookup_vars :=
  cbn [size_var trans_var order_var assign_size assign_trans assign_order init_locals vars];
  repeat (rewrite fn_lookup_insert || rewrite fn_lookup_insert_ne by done).

(** X3.  Whenever [GpuArray_rgemv] calls the backend: [Y] has as many
    elements as [A] has rows after the transpose the caller asked for, [X]
    as many as it has columns, and [Y] has no negative stride.  The call
    passes the caller's [transA] as it is; for [M] and [N] the two
    dimensions of [A] as stored, whatever [transA] is; the two scalars; for
    [A] and for [X] the caller's array, or the copy of it when [A] was not
    one segment or [X] had a negative stride, a copy being a buffer that was
    not live at the call; the caller's own [Y]; as the order the one read off
    the flags of that [A], and as [lda] its dimension in that order; as
    increments the first strides of the arrays passed, divided by the
    element size of the type of the parameter [A] and converted to the [int]
    the entry declares ([inc_arg]; the quotient itself when it is below
    2^31, [inc_arg_in_range]). *)
Theorem gemv_backend_call (P : CArgs) (nocopy : Z) (w : World)
    (call : BlasCall) (e : ga_error) :
  EvBlas call e ∈ new_events w (GpuArray_rgemv P nocopy w).2 →
  let A := p_array P "A" in
  let X := p_array P "X" in
  let Y := p_array P "Y" in
  let tA := p_trans P "transA" in
  let elsize := gpuarray_get_elsize (typecode A) in
  dim Y 0 = (if decide (tA = cb_no_trans) then dim A 0 else dim A 1) ∧
  dim X 0 = (if decide (tA = cb_no_trans) then dim A 1 else dim A 0) ∧
  (stride Y 0 <? 0)%Z = false ∧
  ∃ Ap Xp ct,
    (if GpuArray_ISONESEGMENT A then Ap = A
     else copied P (matrix "A" false) Ap ∧ data Ap ∉ live w) ∧
    (if (stride X 0 <? 0)%Z then copied P (vector "X" false) Xp ∧ data Xp ∉ live w
     else Xp = X) ∧
    storage_order Ap = Some (bc_order call) ∧
    bc_args call =
      [BTrans tA; BSize (dim A 0); BSize (dim A 1); BScal ct (p_scalar P "alpha");
       BArray (data Ap) (offset Ap / elsize); BSize (dim Ap (ld_index (bc_order call)));
       BArray (data Xp) (offset Xp / elsize); BInc (inc_arg Xp elsize);
       BScal ct (p_scalar P "beta");
       BArray (data Y) (offset Y / elsize); BInc (inc_arg Y elsize)].
Proof.
  intros Hin A X Y tA elsize. unfold GpuArray_rgemv in Hin.
  destruct (GENERATED_elem _ GENERATED_gemv) as (Hnd & _ & Hcd & Hso).
  destruct (GpuArray_r_call _ _ _ _ _ _ _ _ Hnd Hcd Hso Hin)
    as (v & L & v2 & Hval & Hso' & -> & _ & Harr).
  destruct (validate_passed _ _ _ _ _ Hval) as (_ & _ & Hdims).
  clear Hnd Hcd Hso Hin Hval.
  cbn [g_op g_check_dims g_setup_order gemv_g] in *. rewrite array_args_gemv in Harr.
  pose proof (Harr (matrix "A" false) ltac:(set_solver)) as HA.
  pose proof (Harr (vector "X" false) ltac:(set_solver)) as HX.
  pose proof (Harr (vector "Y" true) ltac:(set_solver)) as HY.
  clear Harr. unfold defect in HA, HX, HY.
  cbn [ismatrix name isoutput] in HA, HX, HY. fold A in HA. fold X in HX. fold Y in HY.
  (* the dimension check *)
  unfold check_dims_gemv_c in Hdims. fold A X Y in Hdims.
  cbn [init_locals vars trans_var] in Hdims. fold tA in Hdims.
  assert (Hv : v = assign_size (assign_size (vars (init_locals P)) "m" (dim A 0)) "n" (dim A 1)
               ∧ dim Y 0 = (if decide (tA = cb_no_trans) then dim A 0 else dim A 1)
               ∧ dim X 0 = (if decide (tA = cb_no_trans) then dim A 1 else dim A 0)).
  { destruct (decide (tA = cb_no_trans));
      (destruct (negb (dim Y 0 =? _)%Z || negb (dim X 0 =? _)%Z) eqn:E; [done|]);
      apply orb_false_iff in E as [E1 E2];
      apply negb_false_iff, Z.eqb_eq in E1; apply negb_false_iff, Z.eqb_eq in E2;
      by simplify_eq. }
  destruct Hv as (-> & HdY & HdX). clear Hdims.
  split; [done|]. split; [done|].
  destruct (stride Y 0 <? 0)%Z eqn:HsY; [by destruct HY|]. split; [done|].
  destruct (blas_call_gemv P (mkLocals (copy_of L) v2)) as (ct & Ho & Hargs).
  exists (deref P L "A"), (deref P L "X"), ct.
  assert (HdY' : deref P L "Y" = Y) by (unfold deref; by rewrite HY).
  split_and!.
  - unfold deref. destruct (GpuArray_ISONESEGMENT A); cbn [negb] in HA.
    + by rewrite HA.
    + destruct HA as (_ & _ & c & -> & ? & ?). done.
  - unfold deref. destruct (stride X 0 <? 0)%Z.
    + destruct HX as (_ & _ & c & -> & ? & ?). done.
    + by rewrite HX.
  - rewrite Ho. cbn [vars]. unfold setup_order_gemv_c in Hso'. unfold storage_order.
    destruct (has_flag (deref P L "A") GA_F_CONTIGUOUS); [by injection Hso' as <-|].
    destruct (has_flag (deref P L "A") GA_C_CONTIGUOUS); [by injection Hso' as <-|done].
  - rewrite Hargs, Ho.
    change (deref P {| copy_of := copy_of L; vars := v2 |}) with (deref P L).
    rewrite HdY'. cbn [vars]. unfold setup_order_gemv_c in Hso'.
    destruct (has_flag (deref P L "A") GA_F_CONTIGUOUS);
      [injection Hso' as <-
      |destruct (has_flag (deref P L "A") GA_C_CONTIGUOUS); [injection Hso' as <-|done]];
      lookup_vars; reflexivity.
Qed.


Lemma GENERATED_gemm : gemm_g ∈ GENERATED.
Proof. apply list_elem_of_further, list_elem_of_here. Qed.

Lemma GENERATED_ger : ger_g ∈ GENERATED.
Proof. apply list_elem_of_further, list_elem_of_further, list_elem_of_here. Qed.

Lemma array_args_gemm : array_args gemm = [matrix "A" false; matrix "B" false; matrix "C" true].
Proof. reflexivity. Qed.

Lemma array_args_ger : array_args ger = [vector "X" false; vector "Y" false; matrix "A" true].
Proof. reflexivity. Qed.

Lemma blas_call_gemm P L :
  let elsize := gpuarray_get_elsize (typecode (p_array P "A")) in
  ∃ ct,
    bc_order (blas_call gemm P L) = order_var (vars L) ∧
    bc_args (blas_call gemm P L) =
      [BTrans (trans_var (vars L) "transA"); BTrans (trans_var (vars L) "transB");
       BSize (size_var (vars L) "m"); BSize (size_var (vars L) "n");
       BSize (size_var (vars L) "k");
       BScal ct (p_scalar P "alpha");
       BArray (data (deref P L "A")) (offset (deref P L "A") / elsize);
       BSize (size_var (vars L) "lda");
       BArray (data (deref P L "B")) (offset (deref P L "B") / elsize);
       BSize (size_var (vars L) "ldb");
       BScal ct (p_scalar P "beta");
       BArray (data (deref P L "C")) (offset (deref P L "C") / elsize);
       BSize (size_var (vars L) "ldc")].
Proof.
  intros elsize. unfold blas_call.
  destruct (bool_decide _); eexists; split; reflexivity.
Qed.

Lemma blas_call_ger P L :
  let elsize := gpuarray_get_elsize (typecode (p_array P "X")) in
  ∃ ct,
    bc_order (blas_call ger P L) = order_var (vars L) ∧
    bc_args (blas_call ger P L) =
      [BSize (size_var (vars L) "m"); BSize (size_var (vars L) "n");
       BScal ct (p_scalar P "alpha");
       BArray (data (deref P L "X")) (offset (deref P L "X") / elsize);
       BInc (inc_arg (deref P L "X") elsize);
       BArray (data (deref P L "Y")) (offset (deref P L "Y") / elsize);
       BInc (inc_arg (deref P L "Y") elsize);
       BArray (data (deref P L "A")) (offset (deref P L "A") / elsize);
       BSize (size_var (vars L) "lda")].
Proof.
  intros elsize. unfold blas_call.
  destruct (bool_decide _); eexists; split; reflexivity.
Qed.

(** X5.  Whenever [GpuArray_rger] calls the backend: the shape of [A] is
    (first dimension of [X], first dimension of [Y]) and [A] is one
    segment.  The call passes for [M] and [N] those two dimensions, read
    from the caller's [X] and [Y]; the scalar; for [X] and for [Y] the
    caller's array, or the copy of it when it had a negative stride; the
    caller's own [A]; as the order the one read off the flags of [A], and as
    [lda] its dimension in that order; as increments the first strides of
    the arrays passed, divided by the element size of the type of the
    parameter [X], the first array of the operation, and converted to the
    [int] the entry declares ([inc_arg]; the quotient itself when it is
    below 2^31, [inc_arg_in_range]). *)
Theorem ger_backend_call (P : CArgs) (nocopy : Z) (w : World)
    (call : BlasCall) (e : ga_error) :
  EvBlas call e ∈ new_events w (GpuArray_rger P nocopy w).2 →
  let X := p_array P "X" in
  let Y := p_array P "Y" in
  let A := p_array P "A" in
  let elsize := gpuarray_get_elsize (typecode X) in
  dim A 0 = dim X 0 ∧ dim A 1 = dim Y 0 ∧
  GpuArray_ISONESEGMENT A = true ∧
  ∃ Xp Yp ct,
    (if (stride X 0 <? 0)%Z then copied P (vector "X" false) Xp ∧ data Xp ∉ live w
     else Xp = X) ∧
    (if (stride Y 0 <? 0)%Z then copied P (vector "Y" false) Yp ∧ data Yp ∉ live w
     else Yp = Y) ∧
    storage_order A = Some (bc_order call) ∧
    bc_args call =
      [BSize (dim X 0); BSize (dim Y 0); BScal ct (p_scalar P "alpha");
       BArray (data Xp) (offset Xp / elsize); BInc (inc_arg Xp elsize);
       BArray (data Yp) (offset Yp / elsize); BInc (inc_arg Yp elsize);
       BArray (data A) (offset A / elsize); BSize (dim A (ld_index (bc_order call)))].
Proof.
  intros Hin X Y A elsize. unfold GpuArray_rger in Hin.
  destruct (GENERATED_elem _ GENERATED_ger) as (Hnd & _ & Hcd & Hso).
  destruct (GpuArray_r_call _ _ _ _ _ _ _ _ Hnd Hcd Hso Hin)
    as (v & L & v2 & Hval & Hso' & -> & _ & Harr).
  destruct (validate_passed _ _ _ _ _ Hval) as (_ & _ & Hdims).
  clear Hnd Hcd Hso Hin Hval.
  cbn [g_op g_check_dims g_setup_order ger_g] in *. rewrite array_args_ger in Harr.
  pose proof (Harr (vector "X" false) ltac:(set_solver)) as HX.
  pose proof (Harr (vector "Y" false) ltac:(set_solver)) as HY.
  pose proof (Harr (matrix "A" true) ltac:(set_solver)) as HA.
  clear Harr. unfold defect in HA, HX, HY.
  cbn [ismatrix name isoutput] in HA, HX, HY. fold A in HA. fold X in HX. fold Y in HY.
  unfold check_dims_ger_c in Hdims. fold A X Y in Hdims.
  assert (Hv : v = assign_size (assign_size (vars (init_locals P)) "m" (dim X 0)) "n" (dim Y 0)
               ∧ dim A 0 = dim X 0 ∧ dim A 1 = dim Y 0).
  { destruct (negb (dim A 0 =? _)%Z || negb (dim A 1 =? _)%Z) eqn:E; [done|].
    apply orb_false_iff in E as [E1 E2].
    apply negb_false_iff, Z.eqb_eq in E1. apply negb_false_iff, Z.eqb_eq in E2.
    by injection Hdims as <-. }
  destruct Hv as (-> & HdA0 & HdA1). clear Hdims.
  split; [done|]. split; [done|].
  destruct (GpuArray_ISONESEGMENT A) eqn:HsA; [|by destruct HA]. cbn [negb] in HA.
  split; [done|].
  destruct (blas_call_ger P (mkLocals (copy_of L) v2)) as (ct & Ho & Hargs).
  exists (deref P L "X"), (deref P L "Y"), ct.
  assert (HdA' : deref P L "A" = A) by (unfold deref; by rewrite HA).
  split_and!.
  - unfold deref. destruct (stride X 0 <? 0)%Z.
    + destruct HX as (_ & _ & c & -> & ? & ?). done.
    + by rewrite HX.
  - unfold deref. destruct (stride Y 0 <? 0)%Z.
    + destruct HY as (_ & _ & c & -> & ? & ?). done.
    + by rewrite HY.
  - rewrite Ho. cbn [vars]. unfold setup_order_ger_c in Hso'. rewrite HdA' in Hso'.
    unfold storage_order.
    destruct (has_flag A GA_F_CONTIGUOUS); [by injection Hso' as <-|].
    destruct (has_flag A GA_C_CONTIGUOUS); [by injection Hso' as <-|done].
  - rewrite Hargs, Ho.
    change (deref P {| copy_of := copy_of L; vars := v2 |}) with (deref P L).
    rewrite HdA'. cbn [vars]. unfold setup_order_ger_c in Hso'. rewrite HdA' in Hso'.
    destruct (has_flag A GA_F_CONTIGUOUS);
      [injection Hso' as <-
      |destruct (has_flag A GA_C_CONTIGUOUS); [injection Hso' as <-|done]];
      lookup_vars; reflexivity.
Qed.

(** X4.  Whenever [GpuArray_rgemm] calls the backend: with [m], [k] the
    shape of [A] and [k], [n] the shape of [B], each after the transpose the
    caller asked for, the inner dimensions agree and [C] is one segment of
    shape ([m], [n]).  The call passes [m], [n] and [k] for [M], [N] and
    [K], also when it passes a transpose flag inverted; the order is the one
    read off the flags of [C]; [A] and [B] are the caller's arrays, or their
    copies when they were not one segment; each comes with its leading
    dimension in its own order, and with the caller's transpose flag,
    inverted when its order is not the order of [C]. *)
Theorem gemm_backend_call (P : CArgs) (nocopy : Z) (w : World)
    (call : BlasCall) (e : ga_error) :
  EvBlas call e ∈ new_events w (GpuArray_rgemm P nocopy w).2 →
  let A := p_array P "A" in
  let B := p_array P "B" in
  let C := p_array P "C" in
  let tA := p_trans P "transA" in
  let tB := p_trans P "transB" in
  let elsize := gpuarray_get_elsize (typecode A) in
  let m := if decide (tA = cb_no_trans) then dim A 0 else dim A 1 in
  let k := if decide (tA = cb_no_trans) then dim A 1 else dim A 0 in
  let n := if decide (tB = cb_no_trans) then dim B 1 else dim B 0 in
  (if decide (tB = cb_no_trans) then dim B 0 else dim B 1) = k ∧
  dim C 0 = m ∧ dim C 1 = n ∧
  GpuArray_ISONESEGMENT C = true ∧
  ∃ Ap Bp oa ob ct,
    (if GpuArray_ISONESEGMENT A then Ap = A
     else copied P (matrix "A" false) Ap ∧ data Ap ∉ live w) ∧
    (if GpuArray_ISONESEGMENT B then Bp = B
     else copied P (matrix "B" false) Bp ∧ data Bp ∉ live w) ∧
    storage_order C = Some (bc_order call) ∧
    storage_order Ap = Some oa ∧ storage_order Bp = Some ob ∧
    bc_args call =
      [BTrans (if decide (oa = bc_order call) then tA else flip_trans tA);
       BTrans (if decide (ob = bc_order call) then tB else flip_trans tB);
       BSize m; BSize n; BSize k; BScal ct (p_scalar P "alpha");
       BArray (data Ap) (offset Ap / elsize); BSize (dim Ap (ld_index oa));
       BArray (data Bp) (offset Bp / elsize); BSize (dim Bp (ld_index ob));
       BScal ct (p_scalar P "beta");
       BArray (data C) (offset C / elsize); BSize (dim C (ld_index (bc_order call)))].
Proof.
  intros Hin A B C tA tB elsize m k n. unfold GpuArray_rgemm in Hin.
  destruct (GENERATED_elem _ GENERATED_gemm) as (Hnd & _ & Hcd & Hso).
  destruct (GpuArray_r_call _ _ _ _ _ _ _ _ Hnd Hcd Hso Hin)
    as (v & L & v2 & Hval & Hso' & -> & _ & Harr).
  destruct (validate_passed _ _ _ _ _ Hval) as (_ & _ & Hdims).
  clear Hnd Hcd Hso Hin Hval.
  cbn [g_op g_check_dims g_setup_order gemm_g] in *. rewrite array_args_gemm in Harr.
  pose proof (Harr (matrix "A" false) ltac:(set_solver)) as HA.
  pose proof (Harr (matrix "B" false) ltac:(set_solver)) as HB.
  pose proof (Harr (matrix "C" true) ltac:(set_solver)) as HC.
  clear Harr. unfold defect in HA, HB, HC.
  cbn [ismatrix name isoutput] in HA, HB, HC. fold A in HA. fold B in HB. fold C in HC.
  unfold check_dims_gemm_c in Hdims. fold A B C in Hdims.
  cbn [init_locals vars trans_var] in Hdims. fold tA tB in Hdims.
  assert (Hv : v = assign_size (assign_size (assign_size (vars (init_locals P)) "m" m) "k" k)
                     "n" n
               ∧ (if decide (tB = cb_no_trans) then dim B 0 else dim B 1) = k
               ∧ dim C 0 = m ∧ dim C 1 = n).
  { subst m k n.
    destruct (decide (tA = cb_no_trans)); destruct (decide (tB = cb_no_trans));
      (destruct (negb (_ =? _)%Z) eqn:E0; [done|]);
      (destruct (negb (dim C 0 =? _)%Z || negb (dim C 1 =? _)%Z) eqn:E; [done|]);
      apply orb_false_iff in E as [E1 E2];
      apply negb_false_iff, Z.eqb_eq in E0;
      apply negb_false_iff, Z.eqb_eq in E1; apply negb_false_iff, Z.eqb_eq in E2;
      by injection Hdims as <-. }
  destruct Hv as (-> & Hk & HdC0 & HdC1). clear Hdims.
  split; [done|]. split; [done|]. split; [done|].
  destruct (GpuArray_ISONESEGMENT C) eqn:HsC; [|by destruct HC]. cbn [negb] in HC.
  split; [done|].
  destruct (blas_call_gemm P (mkLocals (copy_of L) v2)) as (ct & Ho & Hargs).
  assert (HdC' : deref P L "C" = C) by (unfold deref; by rewrite HC).
  unfold setup_order_gemm_c in Hso'. rewrite HdC' in Hso'.
  set (v0 := assign_size _ "n" n) in Hso'.
  assert (∃ o, storage_order C = Some o ∧
     match setup_order_gemm_input "A" "lda" "transA" (deref P L)
             (assign_size (assign_order v0 o) "ldc" (dim C (ld_index o))) with
     | inl e => inl e
     | inr v => setup_order_gemm_input "B" "ldb" "transB" (deref P L) v
     end = inr v2) as (o & HoC & Hso2).
  { unfold storage_order.
    destruct (has_flag C GA_F_CONTIGUOUS); [by exists cb_fortran|].
    destruct (has_flag C GA_C_CONTIGUOUS); [by exists cb_c|done]. }
  clear Hso'.
  pose proof (setup_order_gemm_input_spec "A" "lda" "transA" (deref P L)
                (assign_size (assign_order v0 o) "ldc" (dim C (ld_index o)))) as HsA.
  destruct (storage_order (deref P L "A")) as [oa|] eqn:HoA;
    rewrite HsA in Hso2; [|done]. clear HsA.
  match type of Hso2 with setup_order_gemm_input _ _ _ _ ?v1 = _ =>
    pose proof (setup_order_gemm_input_spec "B" "ldb" "transB" (deref P L) v1) as HsB end.
  destruct (storage_order (deref P L "B")) as [ob|] eqn:HoB;
    rewrite HsB in Hso2; [|done]. clear HsB.
  exists (deref P L "A"), (deref P L "B"), oa, ob, ct.
  split_and!.
  - unfold deref. destruct (GpuArray_ISONESEGMENT A); cbn [negb] in HA.
    + by rewrite HA.
    + destruct HA as (_ & _ & c & -> & ? & ?). done.
  - unfold deref. destruct (GpuArray_ISONESEGMENT B); cbn [negb] in HB.
    + by rewrite HB.
    + destruct HB as (_ & _ & c & -> & ? & ?). done.
  - rewrite Ho, HoC. injection Hso2 as <-. lookup_vars.
    destruct (decide (oa = o)); lookup_vars; destruct (decide (ob = o)); lookup_vars;
      repeat case_decide; done.
  - done.
  - done.
  - rewrite Hargs, Ho.
    change (deref P {| copy_of := copy_of L; vars := v2 |}) with (deref P L).
    rewrite HdC'. injection Hso2 as <-. subst v0. lookup_vars.
    destruct (decide (oa = o)); lookup_vars; destruct (decide (ob = o)); lookup_vars;
      repeat case_decide; try done; reflexivity.
Qed.

End backend_calls.

(** ** What the fallback never does *)

Section nocopy.
Context `{rt : Runtime}.

(** With copying disabled the fallback loop makes no copy. *)
Lemma fallback_loop_nocopy_locals P nocopy l L w f L' w' :
  nocopy ≠ 0%Z → NoDup (name <$> l) → copy_of L = ∅ →
  for_each (fallback P nocopy) l L w = (f, L', w') →
  copy_of L' = ∅ ∧ trace w' = trace w.
Proof.
  intros Hnz Hnd HL Hrun.
  destruct (fallback_loop_outcome P nocopy l L w f L' w' Hnd
              ltac:(intros; rewrite HL; apply lookup_empty) Hrun)
    as (_ & _ & (evs & Htr & _ & Hnil) & Hother & Hcopies & _).
  split.
  - apply map_eq. intros n. rewrite lookup_empty.
    destruct (copy_of L' !! n) as [c|] eqn:E; [exfalso|done].
    destruct (decide (n ∈ name <$> l)) as [Hin|Hnin].
    + apply list_elem_of_fmap in Hin as (a & -> & Ha).
      by destruct (Hcopies a c Ha E) as (_ & _ & ? & _).
    + rewrite Hother, HL, lookup_empty in E; [done|].
      intros a Ha <-. apply Hnin. apply list_elem_of_fmap. eauto.
  - rewrite Htr, (Hnil Hnz). by rewrite app_nil_r.
Qed.

(** X6.  With [nocopy] set none of the three generated functions copies or
    releases anything, whatever the arrays are; and when it calls the
    backend, no array had a defect and every array argument of the call is
    the caller's own buffer at its own offset. *)
Theorem nocopy_uses_callers_buffers (g : Generated) (P : CArgs) (nocopy : Z) (w : World) :
  g ∈ GENERATED → nocopy ≠ 0%Z →
  let op := g_op g in
  let r := GpuArray_r op (g_check_dims g) (g_setup_order g) P nocopy w in
  Forall (fun ev => is_copy ev = false ∧ is_clear ev = false) (new_events w r.2) ∧
  ∀ call e, EvBlas call e ∈ new_events w r.2 →
    ∀ a, a ∈ array_args op →
      defect a (p_array P (name a)) = false ∧
      BArray (data (p_array P (name a)))
             (offset (p_array P (name a))
              / gpuarray_get_elsize (typecode (p_array P (firsta op))))
      ∈ bc_args call.
Proof.
  intros Hg Hnz op r. destruct (GENERATED_elem g Hg) as (Hnd & _ & Hcd & Hso).
  fold op in Hnd. split.
  - subst r. rewrite GpuArray_r_unfold.
    destruct (validate op _ P _) as [e|v]; cbn.
    { unfold new_events. rewrite drop_all. constructor. }
    destruct (for_each _ _ _ w) as [[f L1] w1] eqn:Hloop.
    destruct (fallback_loop_nocopy_locals _ _ _ (mkLocals ∅ v) _ _ _ _ Hnz Hnd eq_refl Hloop)
      as [HL1 Htr1].
    assert (Hw1 : new_events w w1 = []).
    { apply new_events_app. by rewrite app_nil_r. }
    destruct f as [[]|e|e]; cbn; rewrite ?(cleanup_no_copy op L1 w1 HL1), ?Hw1;
      try constructor.
    destruct (g_setup_order g (deref P L1) (vars L1)) as [e|v2]; cbn;
      rewrite ?(cleanup_no_copy op L1 w1 HL1), ?Hw1; try constructor.
    destruct (dispatch_blas_events op P (mkLocals (copy_of L1) v2) w1)
      as (f & w2 & ds & Hd & Hds & HF & Hf).
    rewrite Hd. rewrite Htr1 in Hds.
    destruct f as [e|e|e]; [| |done]; cbn;
      rewrite (cleanup_no_copy op (mkLocals (copy_of L1) v2) w2 HL1),
        (new_events_app _ _ _ Hds); done.
  - intros call e Hin a Ha.
    destruct (GpuArray_r_call _ _ _ _ _ _ _ _ Hnd Hcd Hso Hin)
      as (v & L & v2 & _ & _ & -> & _ & Harr).
    specialize (Harr a Ha).
    destruct (defect a (p_array P (name a))); [by destruct Harr as (_ & ? & _)|].
    split; [done|].
    pose proof (blas_call_array op P (mkLocals (copy_of L) v2) a Ha) as Hb.
    unfold deref in Hb. cbn [copy_of] in Hb. by rewrite Harr in Hb.
Qed.

End nocopy.


Section releases.
Context `{rt : Runtime}.

Lemma copied_names_app evs1 evs2 :
  copied_names (evs1 ++ evs2) = (copied_names evs1 ++ copied_names evs2)%list.
Proof. apply omap_app. Qed.

Lemma cleared_names_app evs1 evs2 :
  cleared_names (evs1 ++ evs2) = (cleared_names evs1 ++ cleared_names evs2)%list.
Proof. apply omap_app. Qed.

Lemma names_of_other_events evs :
  Forall (fun ev => is_copy ev = false ∧ is_clear ev = false) evs →
  copied_names evs = [] ∧ cleared_names evs = [].
Proof.
  induction 1 as [|ev evs [Hc Hl] _ [IH1 IH2]]; [done|].
  unfold copied_names, cleared_names in *. cbn. rewrite IH1, IH2.
  by destruct ev.
Qed.

Lemma filter_copies_none (m : gmap string GpuArray) (l : list string) :
  (∀ n, n ∈ l → m !! n = None) → filter (fun n => is_Some (m !! n)) l = [].
Proof.
  induction l as [|n l IH]; intros H; [done|].
  rewrite filter_cons_False.
  - apply IH. intros n' Hn'. apply H. by right.
  - rewrite (H n) by left. by intros [? ?].
Qed.

(** The copies the fallback loop made with success are, in order, the
    arrays of the list that have a copy when it ends; it releases none. *)
Lemma fallback_loop_copied P nocopy l : ∀ L w f L' w',
  NoDup (name <$> l) →
  (∀ a, a ∈ l → copy_of L !! name a = None) →
  for_each (fallback P nocopy) l L w = (f, L', w') →
  ∃ evs, trace w' = (trace w ++ evs)%list ∧
         copied_names evs = filter (fun n => is_Some (copy_of L' !! n)) (name <$> l) ∧
         cleared_names evs = [].
Proof.
  induction l as [|a l IH]; intros L w f L' w' Hnd Hnone Hrun.
  { cbn [for_each] in Hrun. unfold mret, C_ret in Hrun. simplify_eq.
    exists nil. by rewrite app_nil_r. }
  cbn [for_each] in Hrun. rewrite C_bind_eq in Hrun.
  pose proof (NoDup_cons_1_1 _ _ Hnd) as Ha. apply NoDup_cons_1_2 in Hnd.
  assert (Hnone_l : ∀ a', a' ∈ l → copy_of L !! name a' = None)
    by (intros; apply Hnone; by right).
  assert (Hne : ∀ a', a' ∈ l → name a' ≠ name a).
  { intros a' Ha' Heq. apply Ha. rewrite <- Heq. apply list_elem_of_fmap. eauto. }
  assert (Hnames : ∀ n, n ∈ name <$> a :: l → copy_of L !! n = None).
  { intros n (a' & -> & Ha')%list_elem_of_fmap. by apply Hnone. }
  destruct (fallback_cases P nocopy a L w)
    as [[Hd Hf]|[(Hd & Ho & Hf)|[(Hd & Ho & Hnz & Hf)|(Hd & Ho & Hz & err & c0 & Hc & Hf)]]];
    cbn zeta in *.
  - rewrite Hf in Hrun.
    destruct (IH _ _ _ _ _ Hnd Hnone_l Hrun) as (evs & Ht & Hcn & Hcl).
    destruct (fallback_loop_outcome P nocopy l _ _ _ _ _ Hnd Hnone_l Hrun)
      as (_ & _ & _ & Hother & _).
    exists evs. split_and!; try done. rewrite Hcn. cbn [fmap list_fmap].
    rewrite filter_cons_False; [done|].
    rewrite Hother by (intros a' Ha' Heq; by apply (Hne a')).
    rewrite Hnone by left. by intros [? ?].
  - rewrite Hf in Hrun. simplify_eq. exists nil. rewrite app_nil_r.
    split_and!; try done. symmetry. by apply filter_copies_none.
  - rewrite Hf in Hrun. simplify_eq. exists nil. rewrite app_nil_r.
    split_and!; try done. symmetry. by apply filter_copies_none.
  - destruct Hf as [[Herr Hf]|[-> Hf]]; rewrite Hf in Hrun.
    + simplify_eq. eexists [_]. split; [reflexivity|]. split; [|done].
      rewrite filter_copies_none by done. cbn. by destruct err.
    + set (L1 := mkLocals _ _) in Hrun. set (w1 := mkWorld _ _) in Hrun.
      assert (Hnone1 : ∀ a', a' ∈ l → copy_of L1 !! name a' = None).
      { intros a' Ha'. unfold L1. cbn. rewrite lookup_insert_ne by (symmetry; by apply Hne).
        by apply Hnone_l. }
      destruct (IH _ _ _ _ _ Hnd Hnone1 Hrun) as (evs & Ht & Hcn & Hcl).
      destruct (fallback_loop_outcome P nocopy l _ _ _ _ _ Hnd Hnone1 Hrun)
        as (_ & _ & _ & Hother & _).
      eexists (_ :: evs). split; [|split].
      * rewrite Ht. unfold w1, log. cbn. rewrite <- app_assoc. reflexivity.
      * cbn [fmap list_fmap]. rewrite filter_cons_True.
        -- unfold copied_names in *. cbn. by rewrite Hcn.
        -- rewrite Hother by (intros a' Ha' Heq; by apply (Hne a')).
           unfold L1. cbn. rewrite lookup_insert_eq. eauto.
      * unfold cleared_names in *. cbn. exact Hcl.
Qed.

(** [cleanup] releases, in order, the inputs that have a copy. *)
Lemma cleanup_cleared op L w :
  (∀ a, a ∈ array_args op → is_Some (copy_of L !! name a) → isoutput a = false) →
  ∃ cl, trace (cleanup op L w) = (trace w ++ cl)%list ∧
        cleared_names cl = filter (fun n => is_Some (copy_of L !! n)) (name <$> array_args op) ∧
        copied_names cl = [] ∧
        ∀ n b, EvClear n b ∈ cl → ∃ c, copy_of L !! n = Some c ∧ data c = b.
Proof.
  unfold cleanup. generalize (array_args op). intros l. revert w.
  induction l as [|a l IH]; intros w Hin; cbn [foldl].
  { exists nil. rewrite app_nil_r. split_and!; try done.
    intros n b H. by apply elem_of_nil in H. }
  assert (Hin_l : ∀ a', a' ∈ l → is_Some (copy_of L !! name a') → isoutput a' = false)
    by (intros; apply Hin; [by right|done]).
  cbn [fmap list_fmap].
  destruct (copy_of L !! name a) as [c|] eqn:Hc.
  - rewrite (Hin a) by (by left || (rewrite Hc; eauto)).
    destruct (IH (mkWorld (live w ∖ {[data c]}) (trace w ++ [EvClear (name a) (data c)]))
                Hin_l) as (cl & Ht & Hn & Hcn & Hb).
    exists (EvClear (name a) (data c) :: cl). split_and!.
    + rewrite Ht. cbn. by rewrite <- app_assoc.
    + rewrite filter_cons_True by (rewrite Hc; eauto).
      unfold cleared_names in *. cbn. by rewrite Hn.
    + unfold copied_names in *. cbn. exact Hcn.
    + intros n b [[= -> ->]|H]%elem_of_cons; eauto.
  - assert ((if isoutput a then w else w) = w) as -> by (by destruct (isoutput a)).
    destruct (IH w Hin_l) as (cl & Ht & Hn & Hcn & Hb).
    exists cl. split_and!; try done.
    rewrite filter_cons_False; [done|]. rewrite Hc. by intros [? ?].
Qed.

(** X7.  In every run of the three generated functions the copies released
    at [cleanup] are, by name and in order, exactly the copies
    [GpuArray_copy] made with success.  So every copy is released once and no
    array twice; a released buffer was not live when the function was
    called, so no buffer of the caller is released; and only inputs that had
    the defect are copied and released. *)
Theorem copies_cleared_once (g : Generated) (P : CArgs) (nocopy : Z) (w : World) :
  g ∈ GENERATED →
  let op := g_op g in
  let evs := new_events w (GpuArray_r op (g_check_dims g) (g_setup_order g) P nocopy w).2 in
  cleared_names evs = copied_names evs ∧
  NoDup (cleared_names evs) ∧
  (∀ n b, EvClear n b ∈ evs → b ∉ live w) ∧
  (∀ n, n ∈ cleared_names evs →
     ∃ a, a ∈ array_args op ∧ name a = n ∧ isoutput a = false ∧
          defect a (p_array P n) = true).
Proof.
  intros Hg op evs. destruct (GENERATED_elem g Hg) as (Hnd & _ & _ & _). fold op in Hnd.
  assert (Hnil : cleared_names [] = copied_names [] ∧ NoDup (cleared_names []) ∧
            (∀ n b, EvClear n b ∈ @nil Event → b ∉ live w) ∧
            (∀ n, n ∈ cleared_names [] →
               ∃ a, a ∈ array_args op ∧ name a = n ∧ isoutput a = false ∧
                    defect a (p_array P n) = true)).
  { split_and!; try done; [constructor| |]; intros ? H; try intros H';
      by (apply elem_of_nil in H || apply elem_of_nil in H'). }
  subst evs. rewrite GpuArray_r_unfold.
  destruct (validate op _ P _) as [e|v]; cbn [snd].
  { unfold new_events. by rewrite drop_all. }
  destruct (for_each _ _ _ w) as [[f L1] w1] eqn:Hloop.
  pose proof (fallback_loop_outcome P nocopy _ _ _ _ _ _ Hnd (λ _ _, lookup_empty _) Hloop)
    as (_ & _ & _ & Hother & Hcopies & Hf).
  cbn [copy_of] in Hother.
  destruct (fallback_loop_copied P nocopy _ _ _ _ _ _ Hnd (λ _ _, lookup_empty _) Hloop)
    as (cs & Hcs & Hcsn & Hcsc).
  assert (Hinputs : ∀ a, a ∈ array_args op → is_Some (copy_of L1 !! name a) →
                         isoutput a = false).
  { intros a Ha [c Hc]. by destruct (Hcopies a c Ha Hc). }
  (* what holds of a run that ends in [cleanup] after the events [ds] *)
  assert (Hend : ∀ L2 w2 ds,
    copy_of L2 = copy_of L1 → trace w2 = (trace w1 ++ ds)%list →
    Forall (fun ev => is_copy ev = false ∧ is_clear ev = false) ds →
    let evs := new_events w (cleanup op L2 w2) in
    cleared_names evs = copied_names evs ∧ NoDup (cleared_names evs) ∧
    (∀ n b, EvClear n b ∈ evs → b ∉ live w) ∧
    (∀ n, n ∈ cleared_names evs →
       ∃ a, a ∈ array_args op ∧ name a = n ∧ isoutput a = false ∧
            defect a (p_array P n) = true)).
  { intros L2 w2 ds HL2 Hw2 Hds evs.
    assert (Hin2 : ∀ a, a ∈ array_args op → is_Some (copy_of L2 !! name a) →
                        isoutput a = false) by (rewrite HL2; exact Hinputs).
    destruct (cleanup_cleared op L2 w2 Hin2) as (cl & Hcl & Hcln & Hclc & Hclb).
    destruct (names_of_other_events ds Hds) as [Hdc Hdl].
    assert (Hevs : evs = (cs ++ ds ++ cl)%list).
    { apply new_events_app. rewrite Hcl, Hw2, Hcs. by rewrite <- !app_assoc. }
    rewrite Hevs, !cleared_names_app, !copied_names_app.
    rewrite Hcsc, Hdc, Hdl, Hclc, Hcln, Hcsn, HL2, app_nil_r. cbn [app].
    split; [done|]. split; [by apply list.NoDup_filter|]. split.
    - intros n b Hin. rewrite !elem_of_app in Hin. destruct Hin as [Hin|[Hin|Hin]].
      + exfalso. assert (n ∈ cleared_names cs) as Hn.
        { unfold cleared_names. apply list_elem_of_omap. exists (EvClear n b). done. }
        rewrite Hcsc in Hn. by apply elem_of_nil in Hn.
      + exfalso. rewrite Forall_forall in Hds. apply list_elem_of_In in Hin.
        by destruct (Hds _ Hin).
      + destruct (Hclb n b Hin) as (c & Hc & <-). rewrite HL2 in Hc.
        destruct (decide (n ∈ name <$> array_args op)) as [Hn|Hn].
        * apply list_elem_of_fmap in Hn as (a & -> & Ha).
          by destruct (Hcopies a c Ha Hc) as (_ & _ & _ & ? & _).
        * rewrite Hother in Hc; [by rewrite lookup_empty in Hc|].
          intros a Ha <-. apply Hn. apply list_elem_of_fmap. eauto.
    - intros n [[c Hc] Hn]%list_elem_of_filter.
      apply list_elem_of_fmap in Hn as (a & -> & Ha). exists a.
      destruct (Hcopies a c Ha Hc) as (? & ? & _). done. }
  destruct f as [[]|e|e].
  - destruct (g_setup_order g (deref P L1) (vars L1)) as [e|v2]; cbn [snd].
    + apply (Hend L1 w1 []); [done|by rewrite app_nil_r|constructor].
    + destruct (dispatch_blas_events op P (mkLocals (copy_of L1) v2) w1)
        as (f & w2 & ds & Hd & Hds & HF & Hf2).
      rewrite Hd. destruct f as [e|e|e]; [| |done]; cbn [snd];
        by apply (Hend _ w2 ds).
  - cbn [snd]. apply (Hend L1 w1 []); [done|by rewrite app_nil_r|constructor].
  - destruct Hf as (_ & _ & _ & -> & _). cbn [snd]. unfold new_events. by rewrite drop_all.
Qed.

End releases.


Section chain.
Context `{rt : Runtime}.






End chain.

(** ** The callables *)

Section callables.
Context `{rt : Runtime}.

(** X8.  The first loops of a callable, for any operation whose matrices
    have distinct names: [trans<M>] is assigned for each matrix [M] that is
    not an output, [cb_trans] when the option [trans_<m>] is set and
    [cb_no_trans] otherwise; no other transpose variable changes, and the
    scalars, the arrays and the options are as they were. *)
Theorem transposes_from_options (op : BlasOp) (f : PyVars) :
  NoDup (name <$> matrix_args op) →
  let f' := py_set_transposes op f in
  py_scalar f' = py_scalar f ∧ py_array f' = py_array f ∧ py_option f' = py_option f ∧
  (∀ m, m ∈ matrix_args op → isoutput m = false →
     py_trans f' ("trans" +:+ name m)
     = if py_option f ("trans_" +:+ lower (name m)) then cb_trans else cb_no_trans) ∧
  (∀ x, (∀ m, m ∈ matrix_args op → isoutput m = false → x ≠ "trans" +:+ name m) →
     py_trans f' x = py_trans f x).
Proof.
  unfold py_set_transposes. generalize (matrix_args op). intros l. revert f.
  induction l as [|m l IH]; intros f Hnd; cbn zeta.
  { cbn. split_and!; try done. intros m Hm. by apply elem_of_nil in Hm. }
  pose proof (NoDup_cons_1_1 _ _ Hnd) as Hm. apply NoDup_cons_1_2 in Hnd.
  cbn [foldl].
  set (f1 := if isoutput m then f else _).
  destruct (IH f1 Hnd) as (Hs & Ha & Ho & Ht & Hx). cbn zeta in *.
  assert (Hf1 : py_scalar f1 = py_scalar f ∧ py_array f1 = py_array f
                ∧ py_option f1 = py_option f).
  { subst f1. by destruct (isoutput m). }
  destruct Hf1 as (Hs1 & Ha1 & Ho1).
  rewrite Hs, Ha, Ho, Hs1, Ha1, Ho1. split_and!; try done.
  - intros m0 Hm0 Hout. apply elem_of_cons in Hm0 as [->|Hm0].
    + rewrite Hx.
      * subst f1. rewrite Hout. cbn. by rewrite fn_lookup_insert.
      * intros m' Hm' _ Heq. cbn in Heq. simplify_eq. apply Hm.
        rewrite Heq. apply list_elem_of_fmap. eauto.
    + rewrite (Ht m0 Hm0 Hout). by rewrite Ho1.
  - intros x Hne. rewrite Hx by (intros m' Hm'; apply Hne; by right).
    subst f1. destruct (isoutput m) eqn:Hout; [done|]. cbn.
    rewrite fn_lookup_insert_ne; [done|]. intros Heq. by apply (Hne m); [left| |].
Qed.


(** The loop of [py_copy_outputs] over a list of arrays with distinct
    names: it replaces exactly the outputs whose [overwrite_] option is
    not set, each by a copy of the array the caller gave. *)
Lemma py_copy_outputs_loop (l : list Argument) : ∀ f w,
  NoDup (name <$> l) →
  let needs_copy a :=
    isoutput a = true ∧ py_option f ("overwrite_" +:+ lower (name a)) = false in
  ∃ evs,
    Forall (fun ev => ∃ A, ev = EvPyCopy A GA_ANY_ORDER) evs ∧
    match
      foldl (fun st a =>
               match st with
               | (inl e, w) => (inl e, w)
               | (inr f, w) =>
                   if negb (isoutput a) then (inr f, w)
                   else if py_option f ("overwrite_" +:+ lower (name a)) then (inr f, w)
                   else match py_array f (name a) with
                        | None => (inl NoneAccess, w)
                        | Some A =>
                            (inr (py_set_array f (name a) (pygpu_copy w A GA_ANY_ORDER)),
                             log (EvPyCopy A GA_ANY_ORDER) w)
                        end
               end) (inr f, w) l
    with
    | (inl e, w') =>
        e = NoneAccess ∧ live w' = live w ∧ trace w' = (trace w ++ evs)%list ∧
        ∃ a, a ∈ l ∧ needs_copy a ∧ py_array f (name a) = None
    | (inr f', w') =>
        py_scalar f' = py_scalar f ∧ py_option f' = py_option f ∧
        py_trans f' = py_trans f ∧
        live w' = live w ∧ trace w' = (trace w ++ evs)%list ∧
        (∀ x, (∀ a, a ∈ l → needs_copy a → x ≠ name a) → py_array f' x = py_array f x) ∧
        (∀ a, a ∈ l → needs_copy a →
           ∃ A w1, py_array f (name a) = Some A ∧
                   py_array f' (name a) = Some (pygpu_copy w1 A GA_ANY_ORDER) ∧
                   live w1 = live w ∧
                   EvPyCopy A GA_ANY_ORDER ∈ evs)
    end.
Proof.
  induction l as [|a l IH]; intros f w Hnd needs_copy.
  { exists nil. split; [constructor|]. cbn. rewrite app_nil_r. split_and!; try done.
    intros a Ha. by apply elem_of_nil in Ha. }
  pose proof (NoDup_cons_1_1 _ _ Hnd) as Ha. apply NoDup_cons_1_2 in Hnd.
  assert (Hne : ∀ a', a' ∈ l → name a ≠ name a').
  { intros a' Ha' Heq. apply Ha. rewrite Heq. apply list_elem_of_fmap. eauto. }
  cbn [foldl].
  destruct (negb (isoutput a)) eqn:Hout.
  { apply negb_true_iff in Hout.
    destruct (IH f w Hnd) as (evs & Hevs & IH'). exists evs. split; [done|].
    cbn zeta in IH'. destruct (foldl _ _ l) as [[e|f'] w'].
    - destruct IH' as (-> & ? & ? & a0 & ? & ? & ?). split_and!; try done.
      exists a0. split_and!; try done. by right.
    - destruct IH' as (? & ? & ? & ? & ? & Hx & Hc). split_and!; try done.
      + intros x Hxne. apply Hx. intros a0 Ha0. apply Hxne. by right.
      + intros a0 [->|Ha0]%elem_of_cons Hn; [|by apply Hc].
        destruct Hn as [Hn _]. congruence. }
  apply negb_false_iff in Hout.
  destruct (py_option f ("overwrite_" +:+ lower (name a))) eqn:Hov.
  { destruct (IH f w Hnd) as (evs & Hevs & IH'). exists evs. split; [done|].
    cbn zeta in IH'. destruct (foldl _ _ l) as [[e|f'] w'].
    - destruct IH' as (-> & ? & ? & a0 & ? & ? & ?). split_and!; try done.
      exists a0. split_and!; try done. by right.
    - destruct IH' as (? & ? & ? & ? & ? & Hx & Hc). split_and!; try done.
      + intros x Hxne. apply Hx. intros a0 Ha0. apply Hxne. by right.
      + intros a0 [->|Ha0]%elem_of_cons Hn; [|by apply Hc].
        destruct Hn as [_ Hn]. congruence. }
  destruct (py_array f (name a)) as [A|] eqn:HA.
  2:{ exists nil. split; [constructor|].
      assert (Hinl : ∀ l' st e w0, st = (inl e, w0) →
        foldl (fun st a =>
               match st with
               | (inl e, w) => (inl e, w)
               | (inr f, w) =>
                   if negb (isoutput a) then (inr f, w)
                   else if py_option f ("overwrite_" +:+ lower (name a)) then (inr f, w)
                   else match py_array f (name a) with
                        | None => (inl NoneAccess, w)
                        | Some A =>
                            (inr (py_set_array f (name a) (pygpu_copy w A GA_ANY_ORDER)),
                             log (EvPyCopy A GA_ANY_ORDER) w)
                        end
               end) st l' = (inl e, w0) :> (PyExn + PyVars) * World).
      { induction l' as [|? ? IHl]; intros st e w0 ->; [done|]. cbn [foldl]. by apply IHl. }
      rewrite (Hinl l _ NoneAccess w eq_refl). rewrite app_nil_r. split_and!; try done.
      exists a. split_and!; try done. by left. }
  set (f1 := py_set_array f (name a) (pygpu_copy w A GA_ANY_ORDER)).
  set (w1 := log (EvPyCopy A GA_ANY_ORDER) w).
  destruct (IH f1 w1 Hnd) as (evs & Hevs & IH').
  exists (EvPyCopy A GA_ANY_ORDER :: evs). split; [constructor; eauto|].
  cbn zeta in IH'. destruct (foldl _ _ l) as [[e|f'] w'].
  - destruct IH' as (-> & Hl & Ht & a0 & Ha0 & [Ho0 Hv0] & HN). split_and!; try done.
    { rewrite Ht. unfold w1, log. cbn. by rewrite <- app_assoc. }
    exists a0. split; [by right|]. split; [split; [done|exact Hv0]|].
    unfold f1 in HN. cbn in HN. rewrite fn_lookup_insert_ne in HN; [done|by apply Hne].
  - destruct IH' as (Hs & Ho & Htr & Hl & Ht & Hx & Hc). split_and!; try done.
    { rewrite Ht. unfold w1, log. cbn. by rewrite <- app_assoc. }
    + intros x Hxne. rewrite Hx.
      * unfold f1. cbn. rewrite fn_lookup_insert_ne; [done|].
        intros <-. apply (Hxne a); [by left|by split|done].
      * intros a0 Ha0 Hn. apply Hxne; [by right|done].
    + intros a0 [->|Ha0]%elem_of_cons Hn.
      * exists A, w. split_and!; try done; [|left].
        rewrite Hx.
        -- unfold f1. cbn. by rewrite fn_lookup_insert.
        -- intros a0 Ha0 _. by apply Hne.
      * destruct (Hc a0 Ha0 Hn) as (A0 & w0 & HA0 & HA0' & Hl0 & Hev0).
        exists A0, w0. split_and!; try done; [|by right].
        unfold f1 in HA0. cbn in HA0.
        rewrite fn_lookup_insert_ne in HA0; [done|by apply Hne].
Qed.

(** X9.  The loop of a callable after its [py_ensure_output] fragment, for
    any operation whose arrays have distinct names.  Every output whose
    option [overwrite_<a>] is not set is replaced by [pygpu_copy] of the
    array the caller gave, so the C function does not write into the
    caller's array; every other array, and every scalar, option and
    transpose flag, is as it was; the events are those copies and the live
    buffers of the C layer do not change.  The loop raises only when such an
    output is [None]. *)
Theorem outputs_copied_unless_overwrite (op : BlasOp) (f : PyVars) (w : World) :
  NoDup (name <$> array_args op) →
  let needs_copy a :=
    isoutput a = true ∧ py_option f ("overwrite_" +:+ lower (name a)) = false in
  match py_copy_outputs op f w with
  | (inl e, w') =>
      e = NoneAccess ∧ live w' = live w ∧
      ∃ a, a ∈ array_args op ∧ needs_copy a ∧ py_array f (name a) = None
  | (inr f', w') =>
      py_scalar f' = py_scalar f ∧ py_option f' = py_option f ∧ py_trans f' = py_trans f ∧
      live w' = live w ∧
      Forall (fun ev => ∃ A, ev = EvPyCopy A GA_ANY_ORDER) (new_events w w') ∧
      (∀ x, (∀ a, a ∈ array_args op → needs_copy a → x ≠ name a) →
            py_array f' x = py_array f x) ∧
      (∀ a, a ∈ array_args op → needs_copy a →
         ∃ A w1, py_array f (name a) = Some A ∧
                 py_array f' (name a) = Some (pygpu_copy w1 A GA_ANY_ORDER) ∧
                 live w1 = live w ∧
                 EvPyCopy A GA_ANY_ORDER ∈ new_events w w')
  end.
Proof.
  intros Hnd needs_copy.
  destruct (py_copy_outputs_loop (array_args op) f w Hnd) as (evs & Hevs & H).
  cbn zeta in H. unfold py_copy_outputs.
  destruct (foldl _ _ (array_args op)) as [[e|f'] w'].
  - destruct H as (? & ? & _ & ?). done.
  - destruct H as (? & ? & ? & ? & Ht & ? & ?).
    rewrite (new_events_app _ _ _ Ht). by split_and!.
Qed.

End callables.

Section callable_runs.
Context `{rt : Runtime}.

Lemma py_ensure_output_run g f w :
  g ∈ GENERATED →
  match g_py_ensure_output g f w with
  | (inl e, w') => w' = w ∧ ∀ err, e ≠ GpuArrayException err
  | (inr f', w') =>
      py_trans f' = py_trans f ∧ py_scalar f' = py_scalar f ∧ live w' = live w ∧
      ∃ evs, trace w' = (trace w ++ evs)%list ∧ List.filter is_blas evs = []
  end.
Proof.
  intros Hg.
  assert (Hnil : ∀ w0 : World, trace w0 = (trace w0 ++ [])%list) by (intros; by rewrite app_nil_r).
  unfold GENERATED in Hg.
  repeat (apply elem_of_cons in Hg as [->|Hg]); [| | |by apply elem_of_nil in Hg];
    cbn [g_py_ensure_output gemv_g gemm_g ger_g].
  - unfold py_ensure_output_gemv_py.
    repeat case_match; simplify_eq; split_and!; try done;
      first [by exists nil; rewrite app_nil_r | by eexists; split; [reflexivity|]].
  - unfold py_ensure_output_gemm_py.
    repeat case_match; simplify_eq; split_and!; try done;
      first [by exists nil; rewrite app_nil_r | by eexists; split; [reflexivity|]].
  - unfold py_ensure_output_ger_py.
    repeat case_match; simplify_eq; split_and!; try done;
      first [by exists nil; rewrite app_nil_r | by eexists; split; [reflexivity|]].
Qed.

Lemma py_set_transposes_scalar op f :
  py_scalar (py_set_transposes op f) = py_scalar f.
Proof.
  unfold py_set_transposes. generalize (matrix_args op). intros l. revert f.
  induction l as [|m l IH]; intros f; [done|]. cbn [foldl]. rewrite IH.
  by destruct (isoutput m).
Qed.

Lemma filter_is_blas_pycopies evs :
  Forall (fun ev => ∃ A, ev = EvPyCopy A GA_ANY_ORDER) evs → List.filter is_blas evs = [].
Proof. induction 1 as [|ev evs [A ->] _ IH]; [done|]. cbn. exact IH. Qed.

(** A call of a callable either raises before it reaches the C function,
    leaving no call of the backend behind, or runs the C function with
    copying allowed on a frame in which every array is present. *)
Lemma py_call_run g f w :
  g ∈ GENERATED →
  let op := g_op g in
  let r := py_call op (g_check_dims g) (g_setup_order g) (g_py_ensure_output g) f w in
  ((∃ e, r.1 = inl e ∧ ∀ err, e ≠ GpuArrayException err) ∧
   List.filter is_blas (new_events w r.2) = [] ∧ live r.2 = live w)
  ∨ ∃ f3 w2 evs,
      py_trans f3 = py_trans (py_set_transposes op f) ∧
      py_scalar f3 = py_scalar f ∧
      (∀ a, a ∈ array_args op → is_Some (py_array f3 (name a))) ∧
      live w2 = live w ∧
      trace w2 = (trace w ++ evs)%list ∧ List.filter is_blas evs = [] ∧
      let c := GpuArray_r op (g_check_dims g) (g_setup_order g) (c_params f3) 0 w2 in
      r.2 = c.2 ∧
      r.1 = if decide (c.1 = GA_NO_ERROR)
            then inr (map (fun a => py_array f3 (name a))
                          (filter (fun a => isoutput a = true) (array_args op)))
            else inl (GpuArrayException c.1).
Proof.
  intros Hg op r. subst r. unfold py_call.
  destruct (GENERATED_elem g Hg) as (Hnd & _). fold op in Hnd.
  pose proof (py_ensure_output_run g (py_set_transposes op f) w Hg) as He.
  destruct (g_py_ensure_output g (py_set_transposes op f) w) as [[e|f2] w1].
  { destruct He as [-> He]. left. cbn. split_and!; eauto.
    unfold new_events. by rewrite drop_all. }
  destruct He as (Ht2 & Hs2 & Hl1 & evs1 & Htr1 & Hb1).
  unfold py_finish.
  destruct (py_copy_outputs_loop (array_args op) f2 w1 Hnd) as (evs2 & Hevs2 & Hc).
  cbn zeta in Hc. unfold py_copy_outputs.
  destruct (foldl _ _ (array_args op)) as [[e|f3] w2].
  { destruct Hc as (-> & Hl2 & Htr2 & _). left. cbn. split_and!; eauto.
    - rewrite (new_events_app w w2 (evs1 ++ evs2)) by (by rewrite Htr2, Htr1, <- app_assoc).
      by rewrite filter_is_blas_app, Hb1, (filter_is_blas_pycopies evs2).
    - congruence. }
  destruct Hc as (Hs3 & _ & Ht3 & Hl2 & Htr2 & _ & _).
  assert (Htr : trace w2 = (trace w ++ evs1 ++ evs2)%list)
    by (by rewrite Htr2, Htr1, <- app_assoc).
  assert (Hb : List.filter is_blas (evs1 ++ evs2) = [])
    by (by rewrite filter_is_blas_app, Hb1, (filter_is_blas_pycopies evs2)).
  unfold pygpu_blas_r.
  destruct (existsb _ (array_args op)) eqn:Hex.
  { left. cbn. split_and!; eauto.
    - by rewrite (new_events_app w w2 _ Htr).
    - congruence. }
  right. exists f3, w2, (evs1 ++ evs2)%list.
  split; [congruence|].
  split; [rewrite Hs3, Hs2; apply py_set_transposes_scalar|].
  split.
  { intros a Ha. pose proof (existsb_false_elem _ _ a Hex Ha) as Hn. cbn in Hn.
    apply bool_decide_eq_false_1 in Hn. by destruct (py_array f3 (name a)). }
  split; [congruence|]. split; [done|]. split; [done|].
  cbn zeta. by destruct (GpuArray_r _ _ _ _ _ _) as [err w3]; destruct (decide _).
Qed.


Lemma GENERATED_one_output g :
  g ∈ GENERATED →
  ∃ a, a ∈ array_args (g_op g) ∧
       filter (fun a => isoutput a = true) (array_args (g_op g)) = [a].
Proof.
  intros Hg. unfold GENERATED in Hg.
  repeat (apply elem_of_cons in Hg as [->|Hg]); [| | |by apply elem_of_nil in Hg];
    cbn [g_op gemv_g gemm_g ger_g].
  - exists (vector "Y" true). split; [|reflexivity]. rewrite array_args_gemv. set_solver.
  - exists (matrix "C" true). split; [|reflexivity]. rewrite array_args_gemm. set_solver.
  - exists (matrix "A" true). split; [|reflexivity]. rewrite array_args_ger. set_solver.
Qed.

(** The calls of the backend in a run of a callable are those of the run of
    the C function it ends with. *)
Lemma py_call_blas_events op cd so P w w2 evs :
  NoDup (name <$> array_args op) →
  trace w2 = (trace w ++ evs)%list → List.filter is_blas evs = [] →
  List.filter is_blas (new_events w (GpuArray_r op cd so P 0 w2).2)
  = List.filter is_blas (new_events w2 (GpuArray_r op cd so P 0 w2).2).
Proof.
  intros Hnd Htr Hb.
  destruct (GpuArray_r_events op cd so P 0 w2 Hnd) as (cs & ds & cl & Hc & _).
  rewrite (new_events_app w2 _ _ Hc).
  rewrite (new_events_app w _ (evs ++ cs ++ ds ++ cl)) by (by rewrite Hc, Htr, <- app_assoc).
  by rewrite filter_is_blas_app, Hb.
Qed.

Lemma py_copy_outputs_gemv f w :
  py_copy_outputs gemv f w =
  if py_option f "overwrite_y" then (inr f, w)
  else match py_array f "Y" with
       | None => (inl NoneAccess, w)
       | Some A => (inr (py_set_array f "Y" (pygpu_copy w A GA_ANY_ORDER)),
                    log (EvPyCopy A GA_ANY_ORDER) w)
       end.
Proof. reflexivity. Qed.

Lemma py_copy_outputs_gemm f w :
  py_copy_outputs gemm f w =
  if py_option f "overwrite_c" then (inr f, w)
  else match py_array f "C" with
       | None => (inl NoneAccess, w)
       | Some A => (inr (py_set_array f "C" (pygpu_copy w A GA_ANY_ORDER)),
                    log (EvPyCopy A GA_ANY_ORDER) w)
       end.
Proof. reflexivity. Qed.

Lemma py_copy_outputs_ger f w :
  py_copy_outputs ger f w =
  if py_option f "overwrite_a" then (inr f, w)
  else match py_array f "A" with
       | None => (inl NoneAccess, w)
       | Some A => (inr (py_set_array f "A" (pygpu_copy w A GA_ANY_ORDER)),
                    log (EvPyCopy A GA_ANY_ORDER) w)
       end.
Proof. reflexivity. Qed.

(** A callable that returns has run its three parts: the fragment, the
    copies of the outputs and the C function, whose events come last. *)
Lemma py_call_parts g f w outs :
  g ∈ GENERATED →
  let op := g_op g in
  let r := py_call op (g_check_dims g) (g_setup_order g) (g_py_ensure_output g) f w in
  r.1 = inr outs →
  ∃ f2 w1 f3 w2 rest,
    g_py_ensure_output g (py_set_transposes op f) w = (inr f2, w1) ∧
    py_copy_outputs op f2 w1 = (inr f3, w2) ∧
    outs = map (fun a => py_array f3 (name a))
               (filter (fun a => isoutput a = true) (array_args op)) ∧
    trace r.2 = (trace w2 ++ rest)%list.
Proof.
  intros Hg op r. subst r. unfold py_call.
  destruct (GENERATED_elem g Hg) as (Hnd & _). fold op in Hnd.
  destruct (g_py_ensure_output g (py_set_transposes op f) w) as [[e|f2] w1]; [by cbn|].
  unfold py_finish.
  destruct (py_copy_outputs op f2 w1) as [[e|f3] w2] eqn:Hco; [by cbn|].
  unfold pygpu_blas_r. destruct (existsb _ _); [by cbn|].
  destruct (GpuArray_r_events op (g_check_dims g) (g_setup_order g) (c_params f3) 0 w2 Hnd)
    as (cs & ds & cl & Ht & _).
  destruct (GpuArray_r _ _ _ _ _ _) as [err w3]. cbn [snd] in Ht.
  destruct (decide _); [|by cbn]. cbn [fst snd]. intros [= <-].
  exists f2, w1, f3, w2, (cs ++ ds ++ cl)%list. done.

Qed.


(** What the fragment of an operation does to its output array: it leaves
    the one the caller gave, or allocates one and sets the [overwrite_]
    option of it. *)
Lemma py_ensure_output_output g f w f2 w1 :
  g ∈ GENERATED →
  g_py_ensure_output g f w = (inr f2, w1) →
  ∃ a, filter (fun a => isoutput a = true) (array_args (g_op g)) = [a] ∧
    match py_array f (name a) with
    | Some A0 => f2 = f ∧ w1 = w
    | None =>
        py_option f2 ("overwrite_" +:+ lower (name a)) = true ∧
        ∃ shape tc ctx,
          let alloc := if bool_decide (opname (g_op g) = "ger")
                       then pygpu_zeros else pygpu_empty in
          let ev := if bool_decide (opname (g_op g) = "ger")
                    then EvPyZeros else EvPyEmpty in
          py_array f2 (name a) = Some (alloc w shape tc GA_ANY_ORDER ctx) ∧
          w1 = log (ev shape tc GA_ANY_ORDER ctx) w
    end.
Proof.
  intros Hg. unfold GENERATED in Hg.
  repeat (apply elem_of_cons in Hg as [->|Hg]); [| | |by apply elem_of_nil in Hg];
    cbn [g_py_ensure_output g_op gemv_g gemm_g ger_g]; intros H.
  - exists (vector "Y" true). split; [reflexivity|]. cbn [name].
    replace (bool_decide (opname gemv = "ger")) with false by reflexivity.
    unfold py_ensure_output_gemv_py in H.
    repeat case_match; simplify_eq; try done;
      (split; [reflexivity|]; eexists _, _, _; split; [|reflexivity]; cbn;
       by rewrite fn_lookup_insert).
  - exists (matrix "C" true). split; [reflexivity|]. cbn [name].
    replace (bool_decide (opname gemm = "ger")) with false by reflexivity.
    unfold py_ensure_output_gemm_py in H.
    repeat case_match; simplify_eq; try done;
      (split; [reflexivity|]; eexists _, _, _; split; [|reflexivity]; cbn;
       by rewrite fn_lookup_insert).
  - exists (matrix "A" true). split; [reflexivity|]. cbn [name].
    replace (bool_decide (opname ger = "ger")) with true by reflexivity.
    unfold py_ensure_output_ger_py in H.
    repeat case_match; simplify_eq; try done;
      (split; [reflexivity|]; eexists _, _, _; split; [|reflexivity]; cbn;
       by rewrite fn_lookup_insert).
Qed.

Lemma py_set_transposes_array g f :
  g ∈ GENERATED →
  py_array (py_set_transposes (g_op g) f) = py_array f ∧
  py_option (py_set_transposes (g_op g) f) = py_option f.
Proof.
  intros Hg. unfold GENERATED in Hg.
  repeat (apply elem_of_cons in Hg as [->|Hg]); [| | |by apply elem_of_nil in Hg]; done.
Qed.

Lemma py_copy_outputs_output g f w f3 w2 a :
  g ∈ GENERATED →
  filter (fun a => isoutput a = true) (array_args (g_op g)) = [a] →
  py_copy_outputs (g_op g) f w = (inr f3, w2) →
  if py_option f ("overwrite_" +:+ lower (name a))
  then f3 = f ∧ w2 = w
  else ∃ A0, py_array f (name a) = Some A0 ∧
             py_array f3 (name a) = Some (pygpu_copy w A0 GA_ANY_ORDER) ∧
             w2 = log (EvPyCopy A0 GA_ANY_ORDER) w.
Proof.
  intros Hg. unfold GENERATED in Hg.
  repeat (apply elem_of_cons in Hg as [->|Hg]); [| | |by apply elem_of_nil in Hg];
    cbn [g_op gemv_g gemm_g ger_g]; intros Ha; vm_compute in Ha; injection Ha as <-;
    cbn [name].
  - rewrite py_copy_outputs_gemv. change ("overwrite_" +:+ lower "Y") with "overwrite_y".
    intros H. repeat case_match; simplify_eq; try done.
    eexists; split; [reflexivity|]; split; [|reflexivity]; cbn; by rewrite fn_lookup_insert.
  - rewrite py_copy_outputs_gemm. change ("overwrite_" +:+ lower "C") with "overwrite_c".
    intros H. repeat case_match; simplify_eq; try done.
    eexists; split; [reflexivity|]; split; [|reflexivity]; cbn; by rewrite fn_lookup_insert.
  - rewrite py_copy_outputs_ger. change ("overwrite_" +:+ lower "A") with "overwrite_a".
    intros H. repeat case_match; simplify_eq; try done.
    eexists; split; [reflexivity|]; split; [|reflexivity]; cbn; by rewrite fn_lookup_insert.
Qed.


(** X10.  Each of the three callables leaves the live buffers as they
    were.  When it returns, it returns one array, the output: the array the
    caller gave when its [overwrite_] option is set, a copy of it that
    [pygpu_copy] made at the call when the option is not set, and, when the
    caller gave none, the array the fragment allocated, with [pygpu_zeros]
    for [ger] and with [pygpu_empty] for the others; the backend has been
    called exactly once, with the buffer of that array among its arguments,
    and has returned [GA_NO_ERROR].  When it raises [GpuArrayException], the
    status it carries is not [GA_NO_ERROR], and it is the status of the
    backend's call if there was one.  When it raises anything else, the
    backend has not been called. *)
Theorem callable_outcome (g : Generated) (f : PyVars) (w : World) :
  g ∈ GENERATED →
  let op := g_op g in
  let r := py_call op (g_check_dims g) (g_setup_order g) (g_py_ensure_output g) f w in
  live r.2 = live w ∧
  (∀ outs, r.1 = inr outs →
     ∃ a out call,
       filter (fun a => isoutput a = true) (array_args op) = [a] ∧
       outs = [Some out] ∧
       match py_array f (name a) with
       | Some A0 =>
           if py_option f ("overwrite_" +:+ lower (name a)) then out = A0
           else out = pygpu_copy w A0 GA_ANY_ORDER ∧
                EvPyCopy A0 GA_ANY_ORDER ∈ new_events w r.2
       | None =>
           ∃ shape tc ctx,
             if bool_decide (opname op = "ger")
             then out = pygpu_zeros w shape tc GA_ANY_ORDER ctx ∧
                  EvPyZeros shape tc GA_ANY_ORDER ctx ∈ new_events w r.2
             else out = pygpu_empty w shape tc GA_ANY_ORDER ctx ∧
                  EvPyEmpty shape tc GA_ANY_ORDER ctx ∈ new_events w r.2
       end ∧
       List.filter is_blas (new_events w r.2) = [EvBlas call GA_NO_ERROR] ∧
       ∃ off, BArray (data (ga out)) off ∈ bc_args call) ∧
  (∀ err, r.1 = inl (GpuArrayException err) →
     err ≠ GA_NO_ERROR ∧ ∀ call e, EvBlas call e ∈ new_events w r.2 → e = err) ∧
  (∀ e, r.1 = inl e → (∀ err, e ≠ GpuArrayException err) →
     List.filter is_blas (new_events w r.2) = []).
Proof.
  intros Hg op r. destruct (GENERATED_elem g Hg) as (Hnd & _ & Hcd & Hso).
  pose proof (py_call_parts g f w) as Hparts. cbn zeta in Hparts. fold op r in Hparts.
  destruct (py_call_run g f w Hg)
    as [((e & He & Hne) & Hb & Hl)
       |(f3 & w2 & evs & _ & _ & Harr & Hl & Htr & Hb & Hw & Hr)];
    cbn zeta in *; fold op r in He || fold op r in Hw, Hr.
  { fold op r in Hb, Hl. split; [done|]. split; [|split].
    - intros outs Ho. congruence.
    - intros err Ho. rewrite He in Ho. injection Ho as ->. by destruct (Hne err).
    - done. }
  fold op in Harr.
  set (c := GpuArray_r op (g_check_dims g) (g_setup_order g) (c_params f3) 0 w2) in *.
  assert (Hbl : List.filter is_blas (new_events w r.2)
                = List.filter is_blas (new_events w2 c.2)).
  { rewrite Hw. by apply (py_call_blas_events _ _ _ _ _ _ evs). }
  pose proof (GpuArray_r_blas_events op _ _ (c_params f3) 0 w2 Hnd Hcd Hso) as Hc.
  cbn zeta in Hc. fold c in Hc.
  split; [rewrite Hw; unfold c; by rewrite GpuArray_r_live|].
  split; [|split].
  - intros outs Ho.
    destruct (Hparts outs Hg Ho) as (g2 & u1 & g3 & u2 & rest & Heo & Hco & Houts & Hrest).
    rewrite Ho in Hr. destruct (decide (c.1 = GA_NO_ERROR)) as [Hok|]; [|done].
    injection Hr as Houts'.
    destruct Hc as [[Hne _]|(v & L1 & w1 & v2 & _ & Hloop & _ & Hev)]; [done|].
    destruct (py_ensure_output_output g _ w g2 u1 Hg Heo) as (a & Hfa & Hens).
    fold op in Hfa.
    assert (Ha : a ∈ array_args op ∧ isoutput a = true).
    { assert (a ∈ filter (fun a => isoutput a = true) (array_args op)) as Hin
        by (rewrite Hfa; by left).
      apply list_elem_of_filter in Hin. by destruct Hin. }
    destruct Ha as [Ha Hout].
    pose proof (py_copy_outputs_output g g2 u1 g3 u2 a Hg Hfa Hco) as Hcp.
    destruct (py_set_transposes_array g f Hg) as [Hta Hto]. fold op in Hta, Hto.
    rewrite Hta in Hens.
    rewrite Hfa in Houts, Houts'. cbn [map] in Houts, Houts'.
    destruct (Harr a Ha) as [out Hout3].
    assert (Hg3 : py_array g3 (name a) = Some out) by congruence.
    exists a, out. eexists. split; [done|]. split; [by rewrite Houts', Hout3|].
    split; [|split].
    + destruct (py_array f (name a)) as [A0|] eqn:HA0.
      * destruct Hens as [-> ->]. rewrite Hto in Hcp.
        destruct (py_option f ("overwrite_" +:+ lower (name a))).
        -- destruct Hcp as [-> ->]. rewrite Hta in Hg3. congruence.
        -- destruct Hcp as (A0' & HA0' & Hc3 & ->). rewrite Hta in HA0'.
           assert (A0' = A0) as -> by congruence.
           split; [congruence|].
           rewrite (new_events_app w r.2 (EvPyCopy A0 GA_ANY_ORDER :: rest)).
           ++ by left.
           ++ rewrite Hrest. cbn. by rewrite <- app_assoc.
      * cbn zeta in Hens. fold op in Hens.
        destruct Hens as (Hov & shape & tc & ctx & Hal & ->).
        rewrite Hov in Hcp. destruct Hcp as [-> ->].
        exists shape, tc, ctx. rewrite Hal in Hg3.
        destruct (bool_decide (opname op = "ger")).
        -- split; [congruence|].
           rewrite (new_events_app w r.2 (EvPyZeros shape tc GA_ANY_ORDER ctx :: rest)).
           ++ by left.
           ++ rewrite Hrest. cbn. by rewrite <- app_assoc.
        -- split; [congruence|].
           rewrite (new_events_app w r.2 (EvPyEmpty shape tc GA_ANY_ORDER ctx :: rest)).
           ++ by left.
           ++ rewrite Hrest. cbn. by rewrite <- app_assoc.
    + rewrite Hbl, Hev, Hok. reflexivity.
    + pose proof (blas_call_array op (c_params f3) (mkLocals (copy_of L1) v2) a Ha) as Hin.
      pose proof (validated_loop_output_not_copied op (c_params f3) 0 v w2 L1 w1 a
                    Hnd Hloop Ha Hout) as Hd.
      unfold deref in Hin, Hd. cbn [copy_of] in Hin. rewrite Hd in Hin.
      cbn [c_params p_array] in Hin. rewrite Hout3 in Hin. eauto.
  - intros err Ho. rewrite Ho in Hr. destruct (decide (c.1 = GA_NO_ERROR)) as [|Hne]; [done|].
    injection Hr as Herr. subst err. split; [done|].
    intros call e Hin. apply elem_of_filter_is_blas in Hin. rewrite Hbl in Hin.
    destruct Hc as [[_ Hnil]|(v & L1 & w1 & v2 & _ & _ & _ & Hev)].
    + rewrite Hnil in Hin. by apply elem_of_nil in Hin.
    + rewrite Hev in Hin. apply list_elem_of_singleton in Hin. by injection Hin.
  - intros e Ho Hne. rewrite Ho in Hr.
    destruct (decide (c.1 = GA_NO_ERROR)); [done|]. injection Hr as He. subst e.
    by destruct (Hne (c.1)).
Qed.


Lemma check_dims_keeps_trans g arr v0 v :
  g ∈ GENERATED → g_check_dims g arr v0 = inr v → trans_var v = trans_var v0.
Proof.
  intros Hg. unfold GENERATED in Hg.
  repeat (apply elem_of_cons in Hg as [->|Hg]); [| | |by apply elem_of_nil in Hg];
    cbn [g_check_dims gemv_g gemm_g ger_g];
    [unfold check_dims_gemv_c|unfold check_dims_gemm_c|unfold check_dims_ger_c];
    intros H; repeat case_match; by simplify_eq.
Qed.

Lemma flip_trans_not_conj t : flip_trans t ≠ cb_conj_trans.
Proof. unfold flip_trans. by case_decide. Qed.

Lemma setup_order_gemm_input_trans x ldx tx arr v v' n :
  setup_order_gemm_input x ldx tx arr v = inr v' →
  trans_var v n ≠ cb_conj_trans → trans_var v' n ≠ cb_conj_trans.
Proof.
  unfold setup_order_gemm_input. intros H Hn.
  repeat case_match; simplify_eq; try done; cbn;
    (destruct (decide (tx = n)) as [->|];
       [rewrite fn_lookup_insert; apply flip_trans_not_conj
       |by rewrite fn_lookup_insert_ne]).
Qed.

Lemma setup_order_keeps_trans g arr v v2 n :
  g ∈ GENERATED → g_setup_order g arr v = inr v2 →
  trans_var v n ≠ cb_conj_trans → trans_var v2 n ≠ cb_conj_trans.
Proof.
  intros Hg. unfold GENERATED in Hg.
  repeat (apply elem_of_cons in Hg as [->|Hg]); [| | |by apply elem_of_nil in Hg];
    cbn [g_setup_order gemv_g gemm_g ger_g].
  - unfold setup_order_gemv_c. intros H ?. repeat case_match; by simplify_eq.
  - unfold setup_order_gemm_c. intros H Hn.
    destruct (if has_flag (arr "C") GA_F_CONTIGUOUS then _ else _) as [|v1] eqn:H1; [done|].
    destruct (setup_order_gemm_input "A" _ _ arr v1) as [|v1'] eqn:H2; [done|].
    eapply setup_order_gemm_input_trans; [exact H|].
    eapply setup_order_gemm_input_trans; [exact H2|].
    repeat case_match; by simplify_eq.
  - unfold setup_order_ger_c. intros H ?. repeat case_match; by simplify_eq.
Qed.

Lemma py_trans_of_trans_args g f a :
  g ∈ GENERATED → a ∈ arguments (g_op g) → is_trans a = true →
  py_trans (py_set_transposes (g_op g) f) (name a) ≠ cb_conj_trans.
Proof.
  intros Hg. unfold GENERATED in Hg.
  repeat (apply elem_of_cons in Hg as [->|Hg]); [| | |by apply elem_of_nil in Hg];
    cbn [g_op gemv_g gemm_g ger_g]; intros Ha Ht.
  - rewrite py_set_transposes_gemv. unfold gemv in Ha. cbn [arguments] in Ha.
    repeat (apply elem_of_cons in Ha as [->|Ha]); try done; [|by apply elem_of_nil in Ha].
    cbn. rewrite fn_lookup_insert. by destruct (py_option f "trans_a").
  - rewrite py_set_transposes_gemm. unfold gemm in Ha. cbn [arguments] in Ha.
    repeat (apply elem_of_cons in Ha as [->|Ha]); try done; [| |by apply elem_of_nil in Ha].
    + cbn. rewrite fn_lookup_insert_ne by done. rewrite fn_lookup_insert.
      by destruct (py_option f "trans_a").
    + cbn. rewrite fn_lookup_insert. by destruct (py_option f "trans_b").
  - unfold ger in Ha. cbn [arguments] in Ha.
    repeat (apply elem_of_cons in Ha as [->|Ha]); try done. by apply elem_of_nil in Ha.
Qed.

(** X11.  No call of the backend made through one of the three callables
    passes [cb_conj_trans]: every transpose argument of the call is
    [cb_no_trans] or [cb_trans], whatever the transpose variables held
    before the call. *)
Theorem callables_never_conjugate (g : Generated) (f : PyVars) (w : World)
    (call : BlasCall) (e : ga_error) :
  g ∈ GENERATED →
  EvBlas call e
    ∈ new_events w (py_call (g_op g) (g_check_dims g) (g_setup_order g)
                      (g_py_ensure_output g) f w).2 →
  ∀ t, BTrans t ∈ bc_args call → t = cb_no_trans ∨ t = cb_trans.
Proof.
  intros Hg Hin t Ht. destruct (GENERATED_elem g Hg) as (Hnd & _ & Hcd & Hso).
  apply elem_of_filter_is_blas in Hin.
  destruct (py_call_run g f w Hg)
    as [(_ & Hb & _)|(f3 & w2 & evs & Htr3 & _ & _ & _ & Htr & Hb & Hw & _)];
    cbn zeta in *.
  { rewrite Hb in Hin. by apply elem_of_nil in Hin. }
  rewrite Hw, (py_call_blas_events _ _ _ _ _ _ evs) in Hin by done.
  apply elem_of_filter_is_blas in Hin.
  destruct (GpuArray_r_call _ _ _ _ _ _ _ _ Hnd Hcd Hso Hin)
    as (v & L & v2 & Hval & Hso' & -> & _ & _).
  destruct (validate_passed _ _ _ _ _ Hval) as (_ & _ & Hdims).
  apply (check_dims_keeps_trans g) in Hdims; [|done].
  cbn [init_locals vars trans_var c_params p_trans] in Hdims.
  assert (Hv2 : ∃ a, a ∈ arguments (g_op g) ∧ is_trans a = true ∧ t = trans_var v2 (name a)).
  { unfold blas_call in Ht. destruct (bool_decide _); cbn [bc_args] in Ht;
      apply elem_of_concat_map in Ht as (a & Ha & Ht); exists a;
      (destruct a; cbn in Ht; apply list_elem_of_singleton in Ht; by simplify_eq). }
  destruct Hv2 as (a & Ha & Hta & ->).
  assert (trans_var v2 (name a) ≠ cb_conj_trans) as Hne.
  { eapply (setup_order_keeps_trans g); [done|exact Hso'|].
    rewrite Hdims, Htr3. by apply py_trans_of_trans_args. }
  destruct (trans_var v2 (name a)); auto. done.
Qed.

End callable_runs.

(** ** The script *)



















(** [gen_blas] is the script where every file can be opened and
    written. *)
Lemma run_script_all_written ops fs :
  let r := run_script ops (fun _ => Written) fs in
  (exit_status r.1, r.2) = gen_blas ops fs.
Proof.
  cbn zeta. rewrite gen_blas_writes. unfold run_script.
  destruct (GENERIC_TMPL ops BS); [|done]. destruct (BUFFERBLAS_TMPL ops); [|done].
  destruct (BLAS_TMPL ops); [|done]. destruct (ARRAYBLAS_TMPL ops); [|done].
  by destruct (BLAS_PYX_TMPL ops).
Qed.


(** The script on its own table, run in a directory that has [src/] and
    [src/gpuarray/] and no [pygpu/]: it ends on the fifth file with an
    exception, the status is 1, and the first four files are written. *)
Example script_without_pygpu_directory :
  let io p := if String.eqb p "pygpu/blas.pyx" then OpenFails else Written in
  let r := run_script OPS io ∅ in
  r.1 = Uncaught "pygpu/blas.pyx" ∧ exit_status r.1 = 1%Z ∧
  map (fun p => bool_decide (is_Some (r.2 !! p))) artifacts
  = [true; true; true; true; false].
Proof. vm_compute. by split_and!. Qed.

(** ** These properties at work *)

(** Finds an event in the events of a run in the example runtime. *)
Ltac find_event :=
  match goal with
  | |- _ ∈ ?l =>
      let t := eval vm_compute in l in
      replace l with t by (vm_compute; reflexivity)
  end;
  repeat first [apply list_elem_of_here | apply list_elem_of_further].

(** [GpuArray_rgemv] copying both inputs, with a backend that fails: the
    status is the backend's. *)
Lemma backend_status_returned_witness :
  let rt := example_runtime GA_NO_ERROR (GA_ERROR 11) in
  let P := params (arrays3 "A" (strided_mat 10 3 4) "X" (reversed_vec 11 4)
                     "Y" (compact_vec 12 3)) cb_no_trans cb_no_trans in
  (GpuArray_rgemv P 0 w0).1 = GA_ERROR 11.
Proof.
  intros rt P.
  refine (proj1 (@backend_status_returned rt gemv_g P 0 w0 _) _ _ _).
  - apply list_elem_of_here.
  - cbn [g_op g_check_dims g_setup_order gemv_g]. find_event.
Defined.

(** [GpuArray_rgemv] on a transposed matrix of shape (3,4) that is not one
    segment, a reversed [X] of length 3 and a [Y] of length 4: the call of
    [sgemv] and what holds of the arrays. *)
Lemma typed_dispatch_witness :
  let rt := example_runtime GA_NO_ERROR GA_NO_ERROR in
  let P := params (arrays3 "A" (strided_mat 10 3 4) "X" (reversed_vec 11 3)
                     "Y" (compact_vec 12 4)) cb_trans cb_no_trans in
  let call :=
    mkBlasCall "sgemv" cb_column
      [BTrans cb_trans; BSize 3; BSize 4; BScal "float" PrimFloat.one; BArray 1 0;
       BSize 3; BArray 2 0; BInc 1; BScal "float" PrimFloat.one; BArray 12 0; BInc 1] in
  EvBlas call GA_NO_ERROR ∈ new_events w0 (GpuArray_rgemv P 0 w0).2 ∧
  (typecode (p_array P "A") = GA_FLOAT ∨ typecode (p_array P "A") = GA_DOUBLE) ∧
  (∀ a, a ∈ array_args gemv →
     nd (p_array P (name a)) = (if ismatrix a then 2 else 1)%Z ∧
     typecode (p_array P (name a)) = typecode (p_array P "A") ∧
     has_flag (p_array P (name a)) GA_ALIGNED = true).
Proof.
  intros rt P call.
  refine (let H := _ in
          let T := @typed_dispatch rt gemv_g P 0 w0 call GA_NO_ERROR
                     (list_elem_of_here _ _) H in
          conj H (conj (proj1 T) (proj1 (proj2 T)))).
  unfold GpuArray_rgemv. find_event.
Defined.

Lemma gemv_backend_call_witness :
  let rt := example_runtime GA_NO_ERROR GA_NO_ERROR in
  let P := params (arrays3 "A" (strided_mat 10 3 4) "X" (reversed_vec 11 3)
                     "Y" (compact_vec 12 4)) cb_trans cb_no_trans in
  let call :=
    mkBlasCall "sgemv" cb_column
      [BTrans cb_trans; BSize 3; BSize 4; BScal "float" PrimFloat.one; BArray 1 0;
       BSize 3; BArray 2 0; BInc 1; BScal "float" PrimFloat.one; BArray 12 0; BInc 1] in
  EvBlas call GA_NO_ERROR ∈ new_events w0 (GpuArray_rgemv P 0 w0).2 ∧
  let A := p_array P "A" in
  let X := p_array P "X" in
  let Y := p_array P "Y" in
  dim Y 0 = dim A 1 ∧ dim X 0 = dim A 0 ∧ (stride Y 0 <? 0)%Z = false ∧
  ∃ Ap Xp ct,
    (copied P (matrix "A" false) Ap ∧ data Ap ∉ live w0) ∧
    (copied P (vector "X" false) Xp ∧ data Xp ∉ live w0) ∧
    storage_order Ap = Some cb_column ∧
    bc_args call =
      [BTrans cb_trans; BSize (dim A 0); BSize (dim A 1); BScal ct (p_scalar P "alpha");
       BArray (data Ap) (offset Ap / 4); BSize (dim Ap 0);
       BArray (data Xp) (offset Xp / 4); BInc (inc_arg Xp 4);
       BScal ct (p_scalar P "beta");
       BArray (data Y) (offset Y / 4); BInc (inc_arg Y 4)].
Proof.
  intros rt P call.
  refine (let H := _ in conj H (@gemv_backend_call rt P 0 w0 call GA_NO_ERROR H)).
  unfold GpuArray_rgemv. find_event.
Defined.

(** [GpuArray_rgemm] on a row-major [A] of shape (2,3), a column-major [B]
    of shape (4,3) to be transposed and a row-major [C] of shape (2,4): the
    order is that of [C], and the flag of [B] is passed inverted. *)
Lemma gemm_backend_call_witness :
  let rt := example_runtime GA_NO_ERROR GA_NO_ERROR in
  let P := params (arrays3 "A" (compact_mat 10 GA_C_ORDER 2 3)
                     "B" (compact_mat 11 GA_F_ORDER 4 3)
                     "C" (compact_mat 12 GA_C_ORDER 2 4)) cb_no_trans cb_trans in
  let call :=
    mkBlasCall "sgemm" cb_row
      [BTrans cb_no_trans; BTrans cb_no_trans; BSize 2; BSize 4; BSize 3;
       BScal "float" PrimFloat.one; BArray 10 0; BSize 3; BArray 11 0; BSize 4;
       BScal "float" PrimFloat.one; BArray 12 0; BSize 4] in
  EvBlas call GA_NO_ERROR ∈ new_events w0 (GpuArray_rgemm P 0 w0).2 ∧
  dim (p_array P "B") 1 = dim (p_array P "A") 1 ∧
  dim (p_array P "C") 0 = dim (p_array P "A") 0 ∧
  dim (p_array P "C") 1 = dim (p_array P "B") 0 ∧
  GpuArray_ISONESEGMENT (p_array P "C") = true.
Proof.
  intros rt P call.
  refine (let H := _ in
          let T := @gemm_backend_call rt P 0 w0 call GA_NO_ERROR H in
          conj H (conj (proj1 T) (conj (proj1 (proj2 T))
            (conj (proj1 (proj2 (proj2 T))) (proj1 (proj2 (proj2 (proj2 T)))))))).
  unfold GpuArray_rgemm. find_event.
Defined.

(** [GpuArray_rger] on [X] of length 5, a reversed [Y] of length 7 and a
    column-major [A] of shape (5,7). *)
Lemma ger_backend_call_witness :
  let rt := example_runtime GA_NO_ERROR GA_NO_ERROR in
  let P := params (arrays3 "X" (compact_vec 10 5) "Y" (reversed_vec 11 7)
                     "A" (compact_mat 12 GA_F_ORDER 5 7)) cb_no_trans cb_no_trans in
  let call :=
    mkBlasCall "sger" cb_column
      [BSize 5; BSize 7; BScal "float" PrimFloat.one; BArray 10 0; BInc 1;
       BArray 1 0; BInc 1; BArray 12 0; BSize 5] in
  EvBlas call GA_NO_ERROR ∈ new_events w0 (GpuArray_rger P 0 w0).2 ∧
  dim (p_array P "A") 0 = dim (p_array P "X") 0 ∧
  dim (p_array P "A") 1 = dim (p_array P "Y") 0 ∧
  GpuArray_ISONESEGMENT (p_array P "A") = true.
Proof.
  intros rt P call.
  refine (let H := _ in
          let T := @ger_backend_call rt P 0 w0 call GA_NO_ERROR H in
          conj H (conj (proj1 T) (conj (proj1 (proj2 T)) (proj1 (proj2 (proj2 T)))))).
  unfold GpuArray_rger. find_event.
Defined.

(** [GpuArray_rgemv] with copying disabled on compact arrays: nothing is
    copied, and the call passes the buffer of the caller's [A]. *)
Lemma nocopy_uses_callers_buffers_witness :
  let rt := example_runtime GA_NO_ERROR GA_NO_ERROR in
  let P := params (arrays3 "A" (compact_mat 10 GA_F_ORDER 3 4) "X" (compact_vec 11 4)
                     "Y" (compact_vec 12 3)) cb_no_trans cb_no_trans in
  let call :=
    mkBlasCall "sgemv" cb_column
      [BTrans cb_no_trans; BSize 3; BSize 4; BScal "float" PrimFloat.one; BArray 10 0;
       BSize 3; BArray 11 0; BInc 1; BScal "float" PrimFloat.one; BArray 12 0; BInc 1] in
  Forall (fun ev => is_copy ev = false ∧ is_clear ev = false)
         (new_events w0 (GpuArray_rgemv P 1 w0).2) ∧
  EvBlas call GA_NO_ERROR ∈ new_events w0 (GpuArray_rgemv P 1 w0).2 ∧
  BArray 10 0 ∈ bc_args call.
Proof.
  intros rt P call.
  refine (let N := @nocopy_uses_callers_buffers rt gemv_g P 1 w0 (list_elem_of_here _ _)
                      ltac:(discriminate) in
          let H := _ in
          conj (proj1 N)
            (conj H (proj2 (proj2 N call GA_NO_ERROR H (matrix "A" false)
                              (list_elem_of_here _ _))))).
  unfold GpuArray_rgemv. find_event.
Defined.

(** [GpuArray_rgemv] copying [A] and [X]: both copies are released, once. *)
Lemma copies_cleared_once_witness :
  let rt := example_runtime GA_NO_ERROR GA_NO_ERROR in
  let P := params (arrays3 "A" (strided_mat 10 3 4) "X" (reversed_vec 11 4)
                     "Y" (compact_vec 12 3)) cb_no_trans cb_no_trans in
  let evs := new_events w0 (GpuArray_rgemv P 0 w0).2 in
  cleared_names evs = copied_names evs ∧ NoDup (cleared_names evs).
Proof.
  intros rt P evs.
  exact (let H := @copies_cleared_once rt gemv_g P 0 w0 (list_elem_of_here _ _) in
         conj (proj1 H) (proj1 (proj2 H))).
Defined.

(** The callable [gemm] called with [trans_b] set, in a frame whose
    transpose variables hold [cb_conj_trans]. *)
Lemma transposes_from_options_witness :
  let f := mkPyVars (fun _ => PrimFloat.zero) (fun _ => None)
             (<["trans_b" := true]> (fun _ => false)) (fun _ => cb_conj_trans) in
  py_trans (py_set_transposes gemm f) "transA" = cb_no_trans ∧
  py_trans (py_set_transposes gemm f) "transB" = cb_trans.
Proof.
  intros f.
  refine (let T := transposes_from_options gemm f _ in
          let H := proj1 (proj2 (proj2 (proj2 T))) in
          conj (H (matrix "A" false) (list_elem_of_here _ _) eq_refl)
               (H (matrix "B" false) (list_elem_of_further _ _ _ (list_elem_of_here _ _))
                  eq_refl)).
  refine (bool_decide_unpack _ _). vm_compute. reflexivity.
Defined.

(** The callable [gemv] given a [Y] it may not overwrite. *)
Lemma outputs_copied_unless_overwrite_witness :
  let rt := example_runtime GA_NO_ERROR GA_NO_ERROR in
  let Y := mkPyGpuArray (compact_vec 12 3) 7 in
  let f := py_frame "A" (Some (mkPyGpuArray (strided_mat 10 3 4) 7))
             "X" (Some (mkPyGpuArray (compact_vec 11 4) 7)) "Y" (Some Y)
             PrimFloat.one false in
  let needs_copy a :=
    isoutput a = true ∧ py_option f ("overwrite_" +:+ lower (name a)) = false in
  match py_copy_outputs gemv f w0 with
  | (inl e, w') =>
      e = NoneAccess ∧ live w' = live w0 ∧
      ∃ a, a ∈ array_args gemv ∧ needs_copy a ∧ py_array f (name a) = None
  | (inr f', w') =>
      py_scalar f' = py_scalar f ∧ py_option f' = py_option f ∧ py_trans f' = py_trans f ∧
      live w' = live w0 ∧
      Forall (fun ev => ∃ A, ev = EvPyCopy A GA_ANY_ORDER) (new_events w0 w') ∧
      (∀ x, (∀ a, a ∈ array_args gemv → needs_copy a → x ≠ name a) →
            py_array f' x = py_array f x) ∧
      (∀ a, a ∈ array_args gemv → needs_copy a →
         ∃ A w1, py_array f (name a) = Some A ∧
                 py_array f' (name a) = Some (pygpu_copy w1 A GA_ANY_ORDER) ∧
                 live w1 = live w0 ∧
                 EvPyCopy A GA_ANY_ORDER ∈ new_events w0 w')
  end.
Proof.
  intros rt Y f.
  refine (@outputs_copied_unless_overwrite rt gemv f w0 _).
  refine (bool_decide_unpack _ _). vm_compute. reflexivity.
Defined.

(** The callable [gemv] on a strided matrix, with [Y] given and
    [overwrite_y] not set. *)
Lemma callable_outcome_witness :
  let rt := example_runtime GA_NO_ERROR GA_NO_ERROR in
  let f := py_frame "A" (Some (mkPyGpuArray (strided_mat 10 3 4) 7))
             "X" (Some (mkPyGpuArray (compact_vec 11 4) 7))
             "Y" (Some (mkPyGpuArray (compact_vec 12 3) 7)) PrimFloat.one false in
  live (py_gemv f w0).2 = live w0 ∧
  (∀ outs, (py_gemv f w0).1 = inr outs →
     ∃ a out call,
       filter (fun a => isoutput a = true) (array_args gemv) = [a] ∧
       outs = [Some out] ∧
       match py_array f (name a) with
       | Some A0 =>
           if py_option f ("overwrite_" +:+ lower (name a)) then out = A0
           else out = pygpu_copy w0 A0 GA_ANY_ORDER ∧
                EvPyCopy A0 GA_ANY_ORDER ∈ new_events w0 (py_gemv f w0).2
       | None =>
           ∃ shape tc ctx,
             if bool_decide (opname gemv = "ger")
             then out = pygpu_zeros w0 shape tc GA_ANY_ORDER ctx ∧
                  EvPyZeros shape tc GA_ANY_ORDER ctx ∈ new_events w0 (py_gemv f w0).2
             else out = pygpu_empty w0 shape tc GA_ANY_ORDER ctx ∧
                  EvPyEmpty shape tc GA_ANY_ORDER ctx ∈ new_events w0 (py_gemv f w0).2
       end ∧
       List.filter is_blas (new_events w0 (py_gemv f w0).2) = [EvBlas call GA_NO_ERROR] ∧
       ∃ off, BArray (data (ga out)) off ∈ bc_args call).
Proof.
  intros rt f.
  exact (let H := @callable_outcome rt gemv_g f w0 (list_elem_of_here _ _) in
         conj (proj1 H) (proj1 (proj2 H))).
Defined.

(** The callable [gemm] with [trans_b] set, in a frame whose transpose
    variables hold [cb_conj_trans]: the call passes none. *)
Lemma callables_never_conjugate_witness :
  let rt := example_runtime GA_NO_ERROR GA_NO_ERROR in
  let f := mkPyVars (fun _ => PrimFloat.zero)
             (<["A" := Some (mkPyGpuArray (compact_mat 10 GA_C_ORDER 2 3) 7)]>
                (<["B" := Some (mkPyGpuArray (compact_mat 11 GA_F_ORDER 4 3) 7)]>
                   (fun _ => None)))
             (<["trans_b" := true]> (fun _ => false)) (fun _ => cb_conj_trans) in
  let call :=
    mkBlasCall "sgemm" cb_row
      [BTrans cb_no_trans; BTrans cb_no_trans; BSize 2; BSize 4; BSize 3;
       BScal "float" PrimFloat.zero; BArray 10 0; BSize 3; BArray 11 0; BSize 4;
       BScal "float" PrimFloat.zero; BArray 100 0; BSize 4] in
  EvBlas call GA_NO_ERROR ∈ new_events w0 (py_gemm f w0).2 ∧
  ∀ t, BTrans t ∈ bc_args call → t = cb_no_trans ∨ t = cb_trans.
Proof.
  intros rt f call.
  refine (let H := _ in
          conj H (@callables_never_conjugate rt gemm_g f w0 call GA_NO_ERROR
                    (list_elem_of_further _ _ _ (list_elem_of_here _ _)) H)).
  cbn [g_op g_check_dims g_setup_order g_py_ensure_output gemm_g].
  change (py_call gemm check_dims_gemm_c setup_order_gemm_c py_ensure_output_gemm_py f w0)
    with (py_gemm f w0).
  find_event.
Defined.

